(** * Harmonix: pitch-to-notation quantization and stabilization engine

    A shallow embedding of [src/lib/audio-utils.ts] and of the
    [useAudioProcessor] hook (offline [quantizeMelody], live [updatePitch]),
    with the properties of the specification stated over it.

    Conventions.
    - A JavaScript number holding an integer is a [Z]; [%] is [Z.rem]
      (the sign follows the dividend) and [Math.floor (a / 12)] is [a / 12].
    - [number | null] is [option Z]; an array is a [list], read with [!!]
      and written in place with [<[i := x]>].
    - A counter that only starts at 0 and is incremented is a [nat].
    - An object literal used as a table is looked up by the keys written
      in it; the names every object inherits are not keys of the model
      (see [majorScaleOffsets]).
    - Floating-point tests (the silence ratio, the clarity threshold, the
      frequency-to-semitone logarithm) are parameters of the sections that
      use them; every theorem holds for any value of them. *)

From Stdlib Require Import ZArith QArith Bool Ascii String List Lia.
From Stdlib Require Import Numbers.DecimalString Numbers.DecimalNat.
From stdpp Require Import base list.

Import ListNotations.
Local Open Scope Z_scope.

(** ** Strings *)

(** [n.toString()] for a non-negative integer counter. *)
Definition natToString (n : nat) : string :=
  NilZero.string_of_uint (Nat.to_uint n).

(** [s += c] repeated [n] times, starting from the empty string. *)
Fixpoint repeatStr (c : string) (n : nat) : string :=
  match n with
  | O => EmptyString
  | S n' => String.append (repeatStr c n') c
  end.

Definition lowerAscii (c : ascii) : ascii :=
  let n := nat_of_ascii c in
  if ((65 <=? n)%nat && (n <=? 90)%nat)%bool then ascii_of_nat (n + 32) else c.

(** [s.toLowerCase()] on ASCII text. *)
Fixpoint toLowerCase (s : string) : string :=
  match s with
  | EmptyString => EmptyString
  | String c s' => String (lowerAscii c) (toLowerCase s')
  end.

(** [s.startsWith(p)]. *)
Definition startsWith (s p : string) : bool := String.prefix p s.

(** First character of a token, if any. *)
Definition firstChar (s : string) : option ascii :=
  match s with
  | EmptyString => None
  | String c _ => Some c
  end.

Definition isDigit (c : ascii) : bool :=
  let n := nat_of_ascii c in ((48 <=? n)%nat && (n <=? 57)%nat)%bool.

(** The text matched by [/\d+$/]: the longest suffix made of digits
    (empty when the regular expression does not match). *)
Fixpoint trailingDigits (s : string) : list ascii :=
  match s with
  | EmptyString => []
  | String c s' =>
      let r := trailingDigits s' in
      if ((length r =? String.length s')%nat && isDigit c)%bool then c :: r
      else r
  end.

(** [parseInt] on a string of digits. *)
Definition parseDigits (ds : list ascii) : nat :=
  fold_left (fun acc c => (10 * acc + (nat_of_ascii c - 48))%nat) ds O.

(** [const match = item.match(/\d+$/); match ? parseInt(match[0]) : 1]. *)
Definition parsedDuration (item : string) : nat :=
  match trailingDigits item with
  | [] => 1%nat
  | ds => parseDigits ds
  end.

(** ** Octave folding loops

    [while (m < lo) m += 12] and [while (m > hi) m -= 12].  The fuel bounds
    the number of iterations; the callers pass a bound that is never
    reached (see [raiseTo_exit] and [lowerTo_exit]). *)

Fixpoint raiseTo (lo : Z) (fuel : nat) (m : Z) : Z :=
  match fuel with
  | O => m
  | S f => if m <? lo then raiseTo lo f (m + 12) else m
  end.

Fixpoint lowerTo (hi : Z) (fuel : nat) (m : Z) : Z :=
  match fuel with
  | O => m
  | S f => if m >? hi then lowerTo hi f (m - 12) else m
  end.

(** [let hMidi = note - 12; while (hMidi > 55) hMidi -= 12;
    while (hMidi < 36) hMidi += 12;] *)
Definition harmonyOf (note : Z) : Z :=
  let hMidi := note - 12 in
  let hMidi := lowerTo 55 (Z.to_nat hMidi) hMidi in
  raiseTo 36 (Z.to_nat (36 - hMidi)) hMidi.

(** [while (midi < 48) midi += 12; while (midi > 84) midi -= 12;] *)
Definition rangeLock (midi : Z) : Z :=
  let midi := raiseTo 48 (Z.to_nat (48 - midi)) midi in
  lowerTo 84 (Z.to_nat midi) midi.

(** ** audio-utils.ts *)

Module AudioUtils.

Definition abcNotes : list string :=
  ["C"; "^C"; "D"; "^D"; "E"; "F"; "^F"; "G"; "^G"; "A"; "^A"; "B"]%string.

(** [midiToAbc] on an integer pitch: the guards against [null], [NaN] and
    non-numbers cannot fire, and [Math.round] is the identity. *)
Definition midiToAbc (midi : Z) : string :=
  let safeMidi := Z.max 0 (Z.min 127 midi) in
  let noteIndex := Z.rem safeMidi 12 in
  let octave := safeMidi / 12 - 1 in
  let noteName := nth (Z.to_nat noteIndex) abcNotes "C"%string in
  if octave =? 4 then noteName
  else if octave <? 4 then
    let diff := Z.max 0 (Z.min 10 (4 - octave)) in
    String.append noteName (repeatStr ","%string (Z.to_nat diff))
  else
    let prefix := toLowerCase noteName in
    let diff := Z.max 0 (Z.min 10 (octave - 5)) in
    if octave =? 5 then prefix
    else String.append prefix (repeatStr "'"%string (Z.to_nat diff)).

Definition majorIntervals : list Z := [0; 2; 4; 5; 7; 9; 11].

Definition nameMap : list string :=
  ["C"; "Db"; "D"; "Eb"; "E"; "F"; "Gb"; "G"; "Ab"; "A"; "Bb"; "B"]%string.

(** [majorIntervals.map(i => (root + i) % 12)]. *)
Definition scaleOf (root : Z) : list Z :=
  map (fun i => Z.rem (root + i) 12) majorIntervals.

(** [scale.includes(c)]. *)
Definition includes (scale : list Z) (c : Z) : bool :=
  existsb (Z.eqb c) scale.

(** [chromas.filter(c => scale.includes(c)).length] for one root. *)
Definition matchCount (chromas : list Z) (root : nat) : Z :=
  Z.of_nat (length (List.filter (includes (scaleOf (Z.of_nat root))) chromas)).

(** Body of the loop over the twelve roots; the state is
    [(bestKey, maxMatch)]. *)
Definition detectKeyStep (chromas : list Z) (st : string * Z) (root : nat)
  : string * Z :=
  let '(bestKey, maxMatch) := st in
  let matches := matchCount chromas root in
  if matches >? maxMatch then (nth root nameMap "C"%string, matches)
  else (bestKey, maxMatch).

Definition detectKey (midiNotes : list Z) : string :=
  if (length midiNotes <? 5)%nat then "C"%string
  else
    let chromas := map (fun m => Z.rem m 12) midiNotes in
    fst (fold_left (detectKeyStep chromas) (seq 0 12) ("C"%string, -1)).

(** The table [majorScaleOffsets]: eight keys, all with the major
    intervals.  This and [rootMap] are the lookups of the keys written in
    the object literals.  A string that names a member every object
    inherits ([constructor], [toString], ...) finds that member instead
    and [intervals.map] then throws; [detectKey] and the callers of
    [quantizeMelody] never pass such a string, and what is proved of the
    result of [snapToScale] for a given key is stated for the twelve key
    names. *)
Definition majorScaleOffsets (key : string) : option (list Z) :=
  if existsb (String.eqb key) ["C"; "G"; "D"; "F"; "Bb"; "A"; "E"; "Eb"]%string
  then Some [0; 2; 4; 5; 7; 9; 11]
  else None.

Definition rootMap (key : string) : option Z :=
  if String.eqb key "C" then Some 0
  else if String.eqb key "Db" then Some 1
  else if String.eqb key "D" then Some 2
  else if String.eqb key "Eb" then Some 3
  else if String.eqb key "E" then Some 4
  else if String.eqb key "F" then Some 5
  else if String.eqb key "Gb" then Some 6
  else if String.eqb key "G" then Some 7
  else if String.eqb key "Ab" then Some 8
  else if String.eqb key "A" then Some 9
  else if String.eqb key "Bb" then Some 10
  else if String.eqb key "B" then Some 11
  else None.

(** [rootMap[key] || 0]: a missing key and the root 0 both give 0. *)
Definition keyRoot (key : string) : Z :=
  match rootMap key with
  | Some r => r
  | None => 0
  end.

(** [majorScaleOffsets[key] || majorScaleOffsets['C']]. *)
Definition keyIntervals (key : string) : list Z :=
  match majorScaleOffsets key with
  | Some l => l
  | None => [0; 2; 4; 5; 7; 9; 11]
  end.

Definition keyScale (key : string) : list Z :=
  map (fun i => Z.rem (keyRoot key + i) 12) (keyIntervals key).

(** The wrapped distance computed inside the loop of [snapToScale]. *)
Definition wrapDiff (chroma s : Z) : Z :=
  let diff := Z.abs (chroma - s) in
  if diff >? 6 then 12 - diff else diff.

(** Body of [for (const s of scale)]; the state is [(bestNote, minDiff)]. *)
Definition snapStep (midi chroma : Z) (st : Z * Z) (s : Z) : Z * Z :=
  let '(bestNote, minDiff) := st in
  let diff := wrapDiff chroma s in
  if diff <? minDiff then (midi / 12 * 12 + s, diff) else (bestNote, minDiff).

Definition snapToScale (midi : Z) (key : string) : Z :=
  let scale := keyScale key in
  let chroma := Z.rem midi 12 in
  if includes scale chroma then midi
  else fst (fold_left (snapStep midi chroma) scale (midi, 13)).

End AudioUtils.

(** ** The offline quantizer: [quantizeMelody] *)

Abbreviation cell := (option Z).
Abbreviation grid := (list (option Z)).

(** [a === b] on [number | null]. *)
Definition cell_eqb (a b : cell) : bool :=
  match a, b with
  | Some x, Some y => x =? y
  | None, None => true
  | _, _ => false
  end.

Module Quantizer.
Import AudioUtils.

(** *** Step 1: bucketing *)

(** A property name that is an array index is enumerated first, in
    ascending numeric order; the other names follow in insertion order. *)
Definition isIndexKey (n : Z) : bool := (0 <=? n) && (n <? 4294967295).

(** [counts[n] = (counts[n] || 0) + 1], keeping the entries in the order
    in which [Object.entries] lists them. *)
Fixpoint countsAdd (n : Z) (counts : list (Z * nat)) : list (Z * nat) :=
  match counts with
  | [] => [(n, 1%nat)]
  | (k, c) :: rest =>
      if k =? n then (k, S c) :: rest
      else if isIndexKey n && (negb (isIndexKey k) || (n <? k))
           then (n, 1%nat) :: (k, c) :: rest
           else (k, c) :: countsAdd n rest
  end.

(** Body of [chunk.forEach]; the state is [(counts, nullCount)]. *)
Definition tally (st : list (Z * nat) * nat) (n : cell)
  : list (Z * nat) * nat :=
  let '(counts, nullCount) := st in
  match n with
  | None => (counts, S nullCount)
  | Some v => (countsAdd v counts, nullCount)
  end.

(** Body of the loop over [Object.entries(counts)]; the state is
    [(bestNote, maxCount)]. *)
Definition voteStep (st : Z * Z) (e : Z * nat) : Z * Z :=
  let '(bestNote, maxCount) := st in
  let '(note, count) := e in
  if Z.of_nat count >? maxCount then (note, Z.of_nat count)
  else (bestNote, maxCount).

Section Bucketing.

(** [silent nullCount chunkLength] is the floating-point test
    [nullCount / chunk.length > 0.2 + sensitivity * 0.6]. *)
Variable silent : nat -> nat -> bool.
(** [Math.round(samplesPerGrid / sliceSize)]. *)
Variable roundedSlices : nat.
Variable key : string.

Definition slicesPerGrid : nat := Nat.max 1 roundedSlices.

Definition bucketCell (chunk : list cell) : cell :=
  let '(counts, nullCount) := fold_left tally chunk ([], O) in
  if silent nullCount (length chunk) then None
  else
    let '(bestNote, _) := fold_left voteStep counts (-1, -1) in
    if bestNote =? -1 then None
    else Some (snapToScale bestNote key).

(** [for (let i = 0; i < rawNotes.length; i += slicesPerGrid)]. *)
Fixpoint bucketLoop (fuel i : nat) (rawNotes : list cell) (gridNotes : grid)
  : grid :=
  match fuel with
  | O => gridNotes
  | S f =>
      if (i <? length rawNotes)%nat then
        let chunk := take slicesPerGrid (drop i rawNotes) in
        bucketLoop f (i + slicesPerGrid) rawNotes
                   (gridNotes ++ [bucketCell chunk])
      else gridNotes
  end.

Definition bucket (rawNotes : list cell) : grid :=
  bucketLoop (length rawNotes) 0 rawNotes [].

End Bucketing.

(** The silence test over exact rationals, for a sensitivity [s]:
    [nullCount / len > 1/5 + s * 3/5]. *)
Definition silentQ (s : Q) (nullCount len : nat) : bool :=
  negb (Qle_bool (inject_Z (Z.of_nat nullCount) / inject_Z (Z.of_nat len))
                 ((1 # 5) + s * (3 # 5))).

(** *** Step 1.5: gap filling *)

(** Body of [for (let i = 1; i < gridNotes.length - 1; i++)]. *)
Definition gapFillAt (i : nat) (gridNotes : grid) : grid :=
  match gridNotes !! (i - 1)%nat, gridNotes !! i, gridNotes !! (i + 1)%nat with
  | Some (Some prev), Some None, Some (Some next) =>
      if prev =? next then <[i := Some prev]> gridNotes
      else <[i := Some prev]> gridNotes
  | _, _, _ => gridNotes
  end.

Fixpoint gapFillLoop (n i : nat) (gridNotes : grid) : grid :=
  match n with
  | O => gridNotes
  | S n' => gapFillLoop n' (S i) (gapFillAt i gridNotes)
  end.

(** The loop runs for [i = 1 .. length - 2]. *)
Definition gapFill (gridNotes : grid) : grid :=
  gapFillLoop (length gridNotes - 2) 1 gridNotes.

(** *** Step 1.6: tail extension *)

(** [while (j < gridNotes.length && gridNotes[j] === pitch) { run++; j++ }];
    returns [(run, j)]. *)
Fixpoint scanRun (fuel : nat) (gridNotes : grid) (pitch : cell) (run j : nat)
  : nat * nat :=
  match fuel with
  | O => (run, j)
  | S f =>
      match gridNotes !! j with
      | Some c =>
          if cell_eqb c pitch then scanRun f gridNotes pitch (S run) (S j)
          else (run, j)
      | None => (run, j)
      end
  end.

Definition niceRun (run : nat) : bool :=
  (run =? 3)%nat || (run =? 7)%nat || (run =? 15)%nat.

(** One pass of the body of [while (i < gridNotes.length)]: the grid and
    the index after it. *)
Definition tailStep (gridNotes : grid) (i : nat) : grid * nat :=
  match gridNotes !! i with
  | Some (Some p) =>
      let pitch := Some p in
      let '(run, j) := scanRun (length gridNotes) gridNotes pitch 0 i in
      let gridNotes' :=
        match gridNotes !! j with
        | Some None => if niceRun run then <[j := pitch]> gridNotes
                       else gridNotes
        | _ => gridNotes
        end in
      (gridNotes', j)
  | _ => (gridNotes, S i)
  end.

Fixpoint tailLoop (fuel : nat) (gridNotes : grid) (i : nat) : grid :=
  match fuel with
  | O => gridNotes
  | S f =>
      if (i <? length gridNotes)%nat then
        let '(gridNotes', i') := tailStep gridNotes i in
        tailLoop f gridNotes' i'
      else gridNotes
  end.

Definition tailExtend (gridNotes : grid) : grid :=
  tailLoop (length gridNotes) gridNotes 0.

(** *** Step 2: encoding *)

Record encState := mkEnc {
  melRes : list string;
  harRes : list string;
  lastNote : cell;
  duration : nat
}.

(** [(abc && abc !== "undefined") ? abc : "z"]. *)
Definition safeAbc (abc : string) : string :=
  if String.eqb abc EmptyString || String.eqb abc "undefined"
  then "z"%string else abc.

Section Encoder.

Variable qValue : nat.

Definition getDurStr (d : nat) : string :=
  if (qValue =? 8)%nat then
    if (d =? 1)%nat then EmptyString else natToString d
  else if (qValue =? 16)%nat then
    if (d mod 2 =? 0)%nat then
      let eights := (d / 2)%nat in
      if (eights =? 1)%nat then EmptyString else natToString eights
    else
      if (d =? 1)%nat then "/2"%string
      else String.append (natToString d) "/2"
  else if (qValue =? 4)%nat then natToString (d * 2)
  else natToString d.

Definition pushNote (note : cell) (dur : nat) (st : encState) : encState :=
  if (dur =? 0)%nat then st
  else
    let durStr := getDurStr dur in
    match note with
    | Some n =>
        let abc := midiToAbc n in
        let hAbc := midiToAbc (harmonyOf n) in
        mkEnc (melRes st ++ [String.append (safeAbc abc) durStr])
              (harRes st ++ [String.append (safeAbc hAbc) durStr])
              (lastNote st) (duration st)
    | None =>
        mkEnc (melRes st ++ [String.append "z" durStr])
              (harRes st ++ [String.append "z" durStr])
              (lastNote st) (duration st)
    end.

(** The bar test at the head of the loop body. *)
Definition barCheck (i : nat) (st : encState) : encState :=
  if (0 <? i)%nat && (i mod qValue =? 0)%nat then
    let st1 :=
      if (0 <? duration st)%nat then
        let s := pushNote (lastNote st) (duration st) st in
        mkEnc (melRes s) (harRes s) None O
      else st in
    mkEnc (melRes st1 ++ ["|"%string]) (harRes st1 ++ ["|"%string])
          (lastNote st1) (duration st1)
  else st.

(** The run-length update at the end of the loop body. *)
Definition runUpdate (note : cell) (st : encState) : encState :=
  if (duration st =? 0)%nat then
    mkEnc (melRes st) (harRes st) note 1
  else if cell_eqb note (lastNote st) then
    mkEnc (melRes st) (harRes st) (lastNote st) (S (duration st))
  else
    let s := pushNote (lastNote st) (duration st) st in
    mkEnc (melRes s) (harRes s) note 1.

(** [for (let i = 0; i < gridNotes.length; i++)], from index [i] on. *)
Fixpoint encodeLoop (i : nat) (cells : grid) (st : encState) : encState :=
  match cells with
  | [] => st
  | note :: rest => encodeLoop (S i) rest (runUpdate note (barCheck i st))
  end.

Definition encodeFinish (st : encState) : encState :=
  if (0 <? duration st)%nat then pushNote (lastNote st) (duration st) st
  else st.

Definition encode (gridNotes : grid) : encState :=
  encodeFinish (encodeLoop 0 gridNotes (mkEnc [] [] None O)).

End Encoder.

Record result := mkResult { melody : list string; harmony : list string }.

Definition quantizeMelody (silent : nat -> nat -> bool) (roundedSlices : nat)
    (rawNotes : list cell) (key : string) (qValue : nat) : result :=
  let gridNotes := bucket silent roundedSlices key rawNotes in
  let gridNotes := gapFill gridNotes in
  let gridNotes := tailExtend gridNotes in
  let st := encode qValue gridNotes in
  mkResult (melRes st) (harRes st).

(** The grid that [quantizeMelody] encodes. *)
Definition quantizeGrid (silent : nat -> nat -> bool) (roundedSlices : nat)
    (rawNotes : list cell) (key : string) : grid :=
  tailExtend (gapFill (bucket silent roundedSlices key rawNotes)).

End Quantizer.

(** ** The live stabilizer: [updatePitch] of the buffer-synced hook *)

Module Realtime.
Import AudioUtils.

Record frame := mkFrame { pitch : Q; clarity : Q }.

(** The closure variables of [startRecording], the two buffers, the list
    kept for key detection and the pitch shown to the user. *)
Record session := mkSession {
  lastMidi : option Z;
  stableFrames : nat;
  isContinuous : bool;
  gridUnitsFilled : nat;
  melodyBuffer : list string;
  harmonyBuffer : list string;
  liveMidi : list Z;
  currentPitch : option Q
}.

Definition startSession : session :=
  mkSession None O false O [] [] [] None.

Definition Qltb (x y : Q) : bool := negb (Qle_bool y x).

(** [lastItem && lastItem !== "|" && lastItem.startsWith(abc)], where
    [lastItem] is [undefined] for an empty buffer. *)
Definition mergeable (lastItem : option string) (abc : string) : bool :=
  match lastItem with
  | Some item =>
      negb (String.eqb item EmptyString) && negb (String.eqb item "|")
      && startsWith item abc
  | None => false
  end.

Section Live.

(** [freqToMidi], a floating-point logarithm rounded to an integer. *)
Variable freqToMidi : Q -> Z.
(** [0.95 - sensitivity * 0.35]. *)
Variable baseClarity : Q.
Variable qValue : nat.

(** [pitch < 85 || pitch > 1200 || clarity < baseClarity]. *)
Definition isSilence (f : frame) : bool :=
  Qltb (pitch f) (85 # 1) || Qltb (1200 # 1) (pitch f)
  || Qltb (clarity f) baseClarity.

(** The block run when [stableFrames === 6].  When the merge branch
    finds no harmony token at [lastIdx] the call [hLast.match] throws;
    the handler of the loop then keeps what was written so far. *)
Definition confirm (midi : Z) (s : session) : session :=
  let abc := midiToAbc midi in
  let hAbc := midiToAbc (harmonyOf midi) in
  let mel := melodyBuffer s in
  let har := harmonyBuffer s in
  let lastIdx := (length mel - 1)%nat in
  let lastItem := last mel in
  let shouldMerge := isContinuous s && mergeable lastItem abc in
  let units := S (gridUnitsFilled s) in
  let insertBar := (qValue <=? units)%nat in
  let units := if insertBar then O else units in
  let bar := if insertBar then ["|"%string] else [] in
  if shouldMerge then
    let dur := S (parsedDuration (default EmptyString lastItem)) in
    let mel := <[lastIdx := String.append abc (natToString dur)]> mel in
    match har !! lastIdx with
    | Some hLast =>
        let hDur := S (parsedDuration hLast) in
        let har := <[lastIdx := String.append hAbc (natToString hDur)]> har in
        mkSession (lastMidi s) O true units (mel ++ bar) (har ++ bar)
                  (liveMidi s) (currentPitch s)
    | None =>
        mkSession (lastMidi s) (stableFrames s) (isContinuous s) units
                  mel har (liveMidi s) (currentPitch s)
    end
  else
    mkSession (lastMidi s) O true units
              (mel ++ [abc] ++ bar) (har ++ [hAbc] ++ bar)
              (liveMidi s ++ [midi]) (currentPitch s).

Definition updatePitch (s : session) (f : frame) : session :=
  if isSilence f then
    mkSession None O false (gridUnitsFilled s)
              (melodyBuffer s) (harmonyBuffer s) (liveMidi s) None
  else
    let midi := rangeLock (freqToMidi (pitch f)) in
    if cell_eqb (Some midi) (lastMidi s) then
      let frames := S (stableFrames s) in
      let s1 := mkSession (lastMidi s) frames (isContinuous s)
                          (gridUnitsFilled s) (melodyBuffer s)
                          (harmonyBuffer s) (liveMidi s) (Some (pitch f)) in
      if (frames =? 6)%nat then confirm midi s1 else s1
    else
      mkSession (Some midi) O false (gridUnitsFilled s)
                (melodyBuffer s) (harmonyBuffer s) (liveMidi s)
                (Some (pitch f)).

(** The session after a sequence of frames. *)
Definition runFrames (fs : list frame) : session :=
  fold_left updatePitch fs startSession.

End Live.

End Realtime.

(** ** The file analysis: [analyzeFile] and [stopRecording] *)

Module Analyze.
Import AudioUtils.

Section File.

(** [freqToMidi], a floating-point logarithm rounded to an integer. *)
Variable freqToMidi : Q -> Z.
(** [0.95 - sensitivity * 0.35]. *)
Variable baseClarity : Q.

(** Body of the raw detection loop for one slice, given what the pitch
    detector found in it: the pitch pushed on [rawMidi]. *)
Definition rawSlice (f : Realtime.frame) : cell :=
  if Realtime.Qltb (Realtime.pitch f) (85 # 1)
     || Realtime.Qltb (1200 # 1) (Realtime.pitch f)
  then None
  else
    let midi :=
      if Realtime.Qltb baseClarity (Realtime.clarity f)
      then Some (freqToMidi (Realtime.pitch f)) else None in
    match midi with
    | Some correctedMidi => Some (rangeLock correctedMidi)
    | None => None
    end.

(** [rawMidi.filter(m => m !== null)]. *)
Definition validNotes (rawMidi : list cell) : list Z :=
  flat_map (fun m => match m with Some n => [n] | None => [] end) rawMidi.

(** [validNotes.length > 5 ? detectKey(validNotes) : "C"]. *)
Definition autoKey (rawMidi : list cell) : string :=
  if (5 <? length (validNotes rawMidi))%nat then detectKey (validNotes rawMidi)
  else "C"%string.

(** [analyzeFile] after decoding: the detected key and the two lines, from
    the detector results of the successive slices. *)
Definition analyzeFile (silent : nat -> nat -> bool) (roundedSlices : nat)
    (slices : list Realtime.frame) (qValue : nat)
  : string * Quantizer.result :=
  let rawMidi := map rawSlice slices in
  (autoKey rawMidi,
   Quantizer.quantizeMelody silent roundedSlices rawMidi (autoKey rawMidi)
                            qValue).

(** The grid [analyzeFile] hands to the encoder. *)
Definition analyzeGrid (silent : nat -> nat -> bool) (roundedSlices : nat)
    (slices : list Realtime.frame) : grid :=
  Quantizer.quantizeGrid silent roundedSlices (map rawSlice slices)
                         (autoKey (map rawSlice slices)).

End File.

(** [stopRecording]: the key shown after it, [detectedKey] being the key
    shown before. *)
Definition stopRecording (detectedKey : string) (s : Realtime.session)
  : string :=
  if (5 <? length (Realtime.liveMidi s))%nat
  then detectKey (Realtime.liveMidi s)
  else detectedKey.

End Analyze.

(** ** audio-utils.ts: chords and the MIDI export *)

Module Chords.

Definition noteNames : list string :=
  ["C"; "C#"; "D"; "D#"; "E"; "F"; "F#"; "G"; "G#"; "A"; "A#"; "B"]%string.

(** [Array.from(new Set(l))]: the first occurrence of every value, in
    order. *)
Fixpoint setFrom (seen l : list Z) : list Z :=
  match l with
  | [] => []
  | x :: rest =>
      if AudioUtils.includes seen x then setFrom seen rest
      else x :: setFrom (x :: seen) rest
  end.

Fixpoint insertAsc (x : Z) (l : list Z) : list Z :=
  match l with
  | [] => [x]
  | y :: rest => if x <=? y then x :: y :: rest else y :: insertAsc x rest
  end.

(** [l.sort((a, b) => a - b)]. *)
Definition sortAsc (l : list Z) : list Z := fold_right insertAsc [] l.

Definition uniqueNotes (midiNotes : list Z) : list Z :=
  sortAsc (setFrom [] (map (fun m => Z.rem m 12) midiNotes)).

(** [[root % 12, (root + third) % 12, (root + 7) % 12].sort(...)]. *)
Definition triad (root third : Z) : list Z :=
  sortAsc [Z.rem root 12; Z.rem (root + third) 12; Z.rem (root + 7) 12].

(** [template.every(note => uniqueNotes.includes(note))]. *)
Definition matches (unique template : list Z) : bool :=
  forallb (AudioUtils.includes unique) template.

(** The loop over the roots, with its two early returns. *)
Fixpoint chordLoop (unique : list Z) (roots : list nat) : string :=
  match roots with
  | [] => "Complex"%string
  | root :: rest =>
      if matches unique (triad (Z.of_nat root) 4)
      then String.append (nth root noteNames "undefined"%string) " Maj"
      else if matches unique (triad (Z.of_nat root) 3)
      then String.append (nth root noteNames "undefined"%string) " min"
      else chordLoop unique rest
  end.

Definition detectChord (midiNotes : list Z) : string :=
  if (length midiNotes =? 0)%nat then "---"%string
  else
    let unique := uniqueNotes midiNotes in
    if (length unique <? 2)%nat then "---"%string
    else chordLoop unique (seq 0 12).

End Chords.

Module MidiExport.

Definition countChar (c : ascii) (s : string) : nat :=
  length (List.filter (Ascii.eqb c) (list_ascii_of_string s)).

(** [abc.replace(/[',]/g, '')]. *)
Fixpoint stripMarks (s : string) : string :=
  match s with
  | EmptyString => EmptyString
  | String c rest =>
      if Ascii.eqb c "'" || Ascii.eqb c ","
      then stripMarks rest else String c (stripMarks rest)
  end.

(** [s.replace('^', '#')]: the first caret only. *)
Fixpoint sharpenFirst (s : string) : string :=
  match s with
  | EmptyString => EmptyString
  | String c rest =>
      if Ascii.eqb c "^" then String "#" rest
      else String c (sharpenFirst rest)
  end.

(** [4 - commas + ticks]. *)
Definition abcOctave (abc : string) : Z :=
  4 - Z.of_nat (countChar "," abc) + Z.of_nat (countChar "'" abc).

(** [n.toString()] for an integer. *)
Definition intToString (n : Z) : string :=
  NilZero.string_of_int (Z.to_int n).

(** The [notes] array of [generateMidiData], one pitch name per note
    event. *)
Definition exportNotes (abcNotes : list string) : list string :=
  map (fun abc =>
         String.append (sharpenFirst (stripMarks abc))
                       (intToString (abcOctave abc)))
      (List.filter (fun n => negb (String.eqb n "|")) abcNotes).

End MidiExport.

(** ** Token classes *)

Definition isBar (t : string) : bool := String.eqb t "|".

(** A rest is rendered with the letter [z]. *)
Definition isRest (t : string) : bool :=
  match firstChar t with
  | Some c => Ascii.eqb c "z"
  | None => false
  end.

(** The characters a note name can start with. *)
Definition noteHead (t : string) : bool :=
  match firstChar t with
  | Some c => existsb (Ascii.eqb c) (list_ascii_of_string "CDEFGAB^cdefgab")
  | None => false
  end.

(** ** Vocabulary of the specification *)

(** Section 4.6: [d = |a - b|; if d > 6 then d = 12 - d]. *)
Definition circularDistance (a b : Z) : Z :=
  let d := Z.abs (a - b) in
  if d >? 6 then 12 - d else d.

(** Section 4.5: the number of input pitches whose pitch class falls in
    the major scale of [root]. *)
Definition keyMatches (notes : list Z) (root : nat) : Z :=
  AudioUtils.matchCount (map (fun m => Z.rem m 12) notes) root.

(** Every input pitch class lies in the major scale of [root]. *)
Definition allInScale (notes : list Z) (root : nat) : Prop :=
  Forall (fun m => AudioUtils.includes (AudioUtils.scaleOf (Z.of_nat root))
                                       (Z.rem m 12) = true) notes.

(** A run of pitch [p] that starts at index [i] and is exactly [run] cells
    long: the cell after it, if any, does not hold [p]. *)
Definition pitchRun (g : grid) (i run : nat) (p : Z) : Prop :=
  (forall m, (i <= m < i + run)%nat -> g !! m = Some (Some p))
  /\ g !! (i + run)%nat <> Some (Some p).

(** The cell at index [j] exists and is silent. *)
Definition silentAt (g : grid) (j : nat) : bool :=
  match g !! j with
  | Some None => true
  | _ => false
  end.

(** Consecutive bars of [q] cells; the last one may be shorter. *)
Fixpoint barsOf (fuel q : nat) (g : grid) : list grid :=
  match fuel with
  | O => []
  | S f =>
      match g with
      | [] => []
      | _ :: _ => take q g :: barsOf f q (drop q g)
      end
  end.

Definition bars (q : nat) (g : grid) : list grid := barsOf (length g) q g.

(** Run-length encoding of a list of cells: each maximal run of equal
    cells with its length. *)
Fixpoint runs (l : grid) : list (cell * nat) :=
  match l with
  | [] => []
  | x :: tl =>
      match runs tl with
      | (y, n) :: r =>
          if cell_eqb x y then (x, S n) :: r else (x, 1%nat) :: (y, n) :: r
      | [] => [(x, 1%nat)]
      end
  end.

(** The cells a list of runs stands for. *)
Definition expand (rs : list (cell * nat)) : grid :=
  flat_map (fun r => repeat (fst r) (snd r)) rs.

(** An event of the encoded line: a run (note or rest) or a bar marker. *)
Definition event : Type := option (cell * nat).

Definition melToken (q : nat) (r : cell * nat) : string :=
  String.append
    (match fst r with Some n => AudioUtils.midiToAbc n | None => "z"%string end)
    (Quantizer.getDurStr q (snd r)).

Definition harToken (q : nat) (r : cell * nat) : string :=
  String.append
    (match fst r with
     | Some n => AudioUtils.midiToAbc (harmonyOf n)
     | None => "z"%string
     end)
    (Quantizer.getDurStr q (snd r)).

Definition renderMel (q : nat) (e : event) : string :=
  match e with Some r => melToken q r | None => "|"%string end.

Definition renderHar (q : nat) (e : event) : string :=
  match e with Some r => harToken q r | None => "|"%string end.

(** Lists joined with one separator between neighbours. *)
Fixpoint joinWith {A} (sep : A) (ls : list (list A)) : list A :=
  match ls with
  | [] => []
  | l :: rest =>
      match rest with
      | [] => l
      | _ :: _ => l ++ sep :: joinWith sep rest
      end
  end.

(** The events of a grid: the runs of each bar, bars separated by one
    marker. *)
Definition barEvents (q : nat) (g : grid) : list event :=
  joinWith None (map (fun b => map Some (runs b)) (bars q g)).

(** Two tokens at the same index agree on being a bar marker and on being
    a rest. *)
Definition aligned (m h : string) : Prop :=
  isBar m = isBar h /\ isRest m = isRest h.

(** The encoder state has written the events [es] on both lines. *)
Definition emitted (q : nat) (st : Quantizer.encState) (es : list event)
  : Prop :=
  Quantizer.melRes st = map (renderMel q) es
  /\ Quantizer.harRes st = map (renderHar q) es.

(** The cells counted in the pending run of the encoder. *)
Definition pendingCells (st : Quantizer.encState) : grid :=
  repeat (Quantizer.lastNote st) (Quantizer.duration st).

(** The loop body without the bar test, over the cells of one bar. *)
Definition runLoop (q : nat) (c : grid) (st : Quantizer.encState)
  : Quantizer.encState :=
  fold_left (fun st note => Quantizer.runUpdate q note st) c st.

(** The two lines of an encoder state or of a session agree token by
    token. *)
Definition linesAligned (mel har : list string) : Prop :=
  Forall2 aligned mel har.

(** A frequency-to-semitone map for the examples: the values fixed by the
    tests of the repository ([freqToMidi(440) = 69],
    [freqToMidi(261.63) = 60]); no other frequency is used. *)
Definition freqToMidiSample (f : Q) : Z :=
  if Qeq_bool f (440 # 1) then 69
  else if Qeq_bool f (26163 # 100) then 60
  else 0.

(** A cell is silent or holds a pitch between [lo] and [hi]. *)
Definition cellWithin (lo hi : Z) (c : cell) : Prop :=
  match c with
  | Some v => lo <= v <= hi
  | None => True
  end.

(** Pitches of a recording in D major that touches the top note of the
    vocal band, four slices per note. *)
Definition topNoteInput : list Z :=
  flat_map (fun n => repeat n 4) [84; 62; 64; 66; 67; 69; 73].

(** For every root and every pitch class: the snap lands in the scale, is
    a fixed point, and is the class itself, the class below it, or class
    11 for class 0. *)
Definition snapTableOk (name : string) (c : Z) : bool :=
  let r := AudioUtils.snapToScale c name in
  AudioUtils.includes (AudioUtils.keyScale name) r
  && (AudioUtils.snapToScale r name =? r)
  && ((r =? c) || (r =? c - 1) || ((c =? 0) && (r =? 11)))
  && (0 <=? r) && (r <=? 11).

(** The count kept for the pitch [k] in a tally (0 when it has none). *)
Fixpoint getCount (k : Z) (counts : list (Z * nat)) : nat :=
  match counts with
  | [] => O
  | (k', c) :: rest => if k' =? k then c else getCount k rest
  end.

(** The keys of a tally are strictly ascending. *)
Fixpoint sortedKeys (counts : list (Z * nat)) : Prop :=
  match counts with
  | [] => True
  | e :: rest => Forall (fun e' => fst e < fst e') rest /\ sortedKeys rest
  end.

(** A cell is silent or holds a pitch whose class is in [scale]. *)
Definition cellInScale (scale : list Z) (c : cell) : Prop :=
  match c with
  | Some v => In (v mod 12) scale
  | None => True
  end.

(** The twelve keys by name, each with the pitch class of its root. *)
Definition keyTable : list (string * Z) :=
  [("C", 0); ("Db", 1); ("D", 2); ("Eb", 3); ("E", 4); ("F", 5);
   ("Gb", 6); ("G", 7); ("Ab", 8); ("A", 9); ("Bb", 10); ("B", 11)]%string.

(** Section 4.6: the major-scale pitch-class set rooted at [root], its
    degrees in ascending interval order. *)
Definition majorScale (root : Z) : list Z :=
  map (fun i => (root + i) mod 12) [0; 2; 4; 5; 7; 9; 11].

(** A maximal run of pitch [p]: [run] cells from index [i] on, at least
    one, with no cell of pitch [p] right before or right after them. *)
Definition maximalRun (g : grid) (i run : nat) (p : Z) : Prop :=
  (1 <= run)%nat /\ pitchRun g i run p
  /\ (i = 0%nat \/ g !! (i - 1)%nat <> Some (Some p)).

(** The cell at index [k] holds the pitch [p]. *)
Definition holdsPitch (g : grid) (k : nat) (p : Z) : bool :=
  match g !! k with
  | Some (Some v) => v =? p
  | _ => false
  end.

(** The length the scan counts for the maximal run of [p] that starts at
    [i], [g'] being the grid after the pass: the scan resumes at a cell
    it has just converted, so a run that directly follows a cell converted
    to [p] is counted with that cell. *)
Definition countedRun (g' : grid) (i run : nat) (p : Z) : nat :=
  if (0 <? i)%nat && holdsPitch g' (i - 1) p then S run else run.

(** A token of a live buffer: a bar marker or a token that starts with a
    note name. *)
Definition noteOrBar (t : string) : Prop :=
  t = "|"%string \/ noteHead t = true.

(** Every bar marker of [l] directly follows a note token. *)
Definition barsFollowNotes (l : list string) : Prop :=
  forall i, l !! i = Some "|"%string ->
    exists t, (1 <= i)%nat /\ l !! (i - 1)%nat = Some t /\ noteHead t = true.

(** Number of bar markers of a line. *)
Fixpoint barCount (l : list string) : nat :=
  match l with
  | [] => O
  | t :: rest => ((if isBar t then 1 else 0) + barCount rest)%nat
  end.

(** Number of tokens of a line that are not bar markers. *)
Fixpoint noteCount (l : list string) : nat :=
  match l with
  | [] => O
  | t :: rest => ((if isBar t then 0 else 1) + noteCount rest)%nat
  end.

(** The durations of the note tokens of a line, as [updatePitch] reads
    them back, added up. *)
Fixpoint totalDuration (l : list string) : nat :=
  match l with
  | [] => O
  | t :: rest =>
      ((if isBar t then 0 else parsedDuration t) + totalDuration rest)%nat
  end.

(** What holds of one buffer of the live loop, [units] being
    [gridUnitsFilled] and [n] the number of pushed pitches. *)
Definition lineInv (q units n : nat) (l : list string) : Prop :=
  Forall noteOrBar l
  /\ barsFollowNotes l
  /\ noteCount l = n
  /\ ((1 <= q)%nat -> totalDuration l = (q * barCount l + units)%nat).

(** What holds of the closure variables of [startRecording] between two
    calls of [updatePitch]. *)
Definition liveInv (q : nat) (s : Realtime.session) : Prop :=
  linesAligned (Realtime.melodyBuffer s) (Realtime.harmonyBuffer s)
  /\ (Realtime.stableFrames s <= 5)%nat
  /\ (Realtime.gridUnitsFilled s < Nat.max 1 q)%nat
  /\ (forall m, Realtime.lastMidi s = Some m -> 48 <= m <= 84)
  /\ (Realtime.isContinuous s = true ->
      Realtime.lastMidi s <> None
      /\ last (Realtime.liveMidi s) = Realtime.lastMidi s)
  /\ Forall (fun m => 48 <= m <= 84) (Realtime.liveMidi s)
  /\ lineInv q (Realtime.gridUnitsFilled s) (length (Realtime.liveMidi s))
             (Realtime.melodyBuffer s)
  /\ lineInv q (Realtime.gridUnitsFilled s) (length (Realtime.liveMidi s))
             (Realtime.harmonyBuffer s).

(** The token of a note confirmed [k] times in a row. *)
Definition heldToken (abc : string) (k : nat) : string :=
  if (k =? 1)%nat then abc else String.append abc (natToString k).

(** The pitch classes of [notes], as [%] gives them, contain the triad on
    [root] with the given third: the classes [root], [root + third] and
    [root + 7], modulo 12. *)
Definition hasTriad (notes : list Z) (root : nat) (third : Z) : bool :=
  forallb (fun c => existsb (fun m => Z.rem m 12 =? c) notes)
          [Z.of_nat root; (Z.of_nat root + third) mod 12;
           (Z.of_nat root + 7) mod 12].

(** No triad, major or minor, on a root below [r]. *)
Definition noTriadBelow (notes : list Z) (r : nat) : Prop :=
  forall r', (r' < r)%nat ->
    hasTriad notes r' 4 = false /\ hasTriad notes r' 3 = false.

(** The twelve note names as the export writes them: the caret of the
    notation becomes a sharp sign, in front of the letter. *)
Definition exportNames : list string :=
  ["C"; "#C"; "D"; "#D"; "E"; "F"; "#F"; "G"; "#G"; "A"; "#A"; "B"]%string.

(** The name and the octave number the export gives the token of the
    pitch [safe] of [0,127]. *)
Definition exportName (safe : Z) : string :=
  let name := nth (Z.to_nat (safe mod 12)) exportNames "C"%string in
  if safe <? 72 then name else toLowerCase name.

Definition exportOctave (safe : Z) : Z :=
  if safe <? 72 then safe / 12 - 1 else safe / 12 - 2.

(** None of the characters the export looks for: quote, comma, caret. *)
Definition noMark (c : ascii) : bool :=
  negb (Ascii.eqb c "'" || Ascii.eqb c "," || Ascii.eqb c "^").

Definition exportTableOk (n : nat) : bool :=
  let abc := AudioUtils.midiToAbc (Z.of_nat n) in
  String.eqb (MidiExport.sharpenFirst (MidiExport.stripMarks abc))
             (exportName (Z.of_nat n))
  && (MidiExport.abcOctave abc =? exportOctave (Z.of_nat n)).

(** * Properties *)

(** ** Octave folding *)

Lemma lowerTo_exit hi fuel m :
  m <= hi + 12 * Z.of_nat fuel ->
  lowerTo hi fuel m <= hi
  /\ (hi < m -> hi - 12 < lowerTo hi fuel m)
  /\ (m <= hi -> lowerTo hi fuel m = m)
  /\ exists k, 0 <= k /\ lowerTo hi fuel m = m - 12 * k.
Proof.
  revert m. induction fuel as [|f IH]; intros m Hm; simpl.
  - repeat split; try lia. exists 0. lia.
  - destruct (Z.gtb_spec m hi) as [Hgt|Hle].
    + destruct (IH (m - 12)) as (H1 & H2 & H3 & k & Hk & H4); [lia|].
      repeat split; try lia.
      exists (k + 1). lia.
    + repeat split; try lia. exists 0. lia.
Qed.

Lemma raiseTo_exit lo fuel m :
  lo <= m + 12 * Z.of_nat fuel ->
  lo <= raiseTo lo fuel m
  /\ (m < lo -> raiseTo lo fuel m < lo + 12)
  /\ (lo <= m -> raiseTo lo fuel m = m)
  /\ exists k, 0 <= k /\ raiseTo lo fuel m = m + 12 * k.
Proof.
  revert m. induction fuel as [|f IH]; intros m Hm; simpl.
  - repeat split; try lia. exists 0. lia.
  - destruct (Z.ltb_spec m lo) as [Hlt|Hge].
    + destruct (IH (m + 12)) as (H1 & H2 & H3 & k & Hk & H4); [lia|].
      repeat split; try lia.
      exists (k + 1). lia.
    + repeat split; try lia. exists 0. lia.
Qed.

Lemma harmonyOf_range p : 36 <= harmonyOf p <= 55.
Proof.
  unfold harmonyOf.
  set (h := lowerTo 55 (Z.to_nat (p - 12)) (p - 12)).
  destruct (lowerTo_exit 55 (Z.to_nat (p - 12)) (p - 12)) as (H1 & _); [lia|].
  fold h in H1.
  destruct (raiseTo_exit 36 (Z.to_nat (36 - h)) h) as (R1 & R2 & R3 & _); [lia|].
  destruct (Z_lt_le_dec h 36) as [Hlt|Hge].
  - specialize (R2 Hlt). lia.
  - rewrite (R3 Hge). lia.
Qed.

Lemma harmonyOf_shift p : exists k, harmonyOf p = p - 12 + 12 * k.
Proof.
  unfold harmonyOf.
  set (h := lowerTo 55 (Z.to_nat (p - 12)) (p - 12)).
  destruct (lowerTo_exit 55 (Z.to_nat (p - 12)) (p - 12))
    as (_ & _ & _ & k1 & _ & E1); [lia|].
  fold h in E1.
  destruct (raiseTo_exit 36 (Z.to_nat (36 - h)) h)
    as (_ & _ & _ & k2 & _ & E2); [lia|].
  exists (k2 - k1). lia.
Qed.

Lemma harmonyOf_in_range p : 36 <= p - 12 <= 55 -> harmonyOf p = p - 12.
Proof.
  intros Hp. unfold harmonyOf.
  destruct (lowerTo_exit 55 (Z.to_nat (p - 12)) (p - 12))
    as (_ & _ & E & _); [lia|].
  rewrite E by lia.
  destruct (raiseTo_exit 36 (Z.to_nat (36 - (p - 12))) (p - 12))
    as (_ & _ & E2 & _); [lia|].
  apply E2; lia.
Qed.

Lemma rangeLock_range m : 48 <= rangeLock m <= 84.
Proof.
  unfold rangeLock.
  set (a := raiseTo 48 (Z.to_nat (48 - m)) m).
  destruct (raiseTo_exit 48 (Z.to_nat (48 - m)) m) as (R1 & _); [lia|].
  fold a in R1.
  destruct (lowerTo_exit 84 (Z.to_nat a) a) as (L1 & L2 & L3 & _); [lia|].
  destruct (Z_lt_le_dec 84 a) as [Hgt|Hle].
  - specialize (L2 Hgt). lia.
  - rewrite (L3 Hle). lia.
Qed.

(** ** Note names *)

Lemma midiToAbc_clamp m :
  AudioUtils.midiToAbc m = AudioUtils.midiToAbc (Z.max 0 (Z.min 127 m)).
Proof.
  unfold AudioUtils.midiToAbc.
  replace (Z.max 0 (Z.min 127 (Z.max 0 (Z.min 127 m))))
    with (Z.max 0 (Z.min 127 m)) by lia.
  reflexivity.
Qed.

Lemma midiToAbc_table :
  forallb (fun n => noteHead (AudioUtils.midiToAbc (Z.of_nat n))) (seq 0 128)
  = true.
Proof. vm_compute. reflexivity. Qed.

Lemma midiToAbc_head m : noteHead (AudioUtils.midiToAbc m) = true.
Proof.
  rewrite midiToAbc_clamp.
  set (k := Z.max 0 (Z.min 127 m)).
  assert (Hk : 0 <= k <= 127) by (unfold k; lia).
  replace k with (Z.of_nat (Z.to_nat k)) by lia.
  pose proof midiToAbc_table as T.
  rewrite forallb_forall in T. apply T.
  apply in_seq. lia.
Qed.

Lemma noteHead_cases t :
  noteHead t = true ->
  exists c rest, t = String c rest
    /\ existsb (Ascii.eqb c) (list_ascii_of_string "CDEFGAB^cdefgab") = true.
Proof.
  destruct t as [|c rest]; simpl; [discriminate|].
  intros H. exists c, rest. split; [reflexivity|exact H].
Qed.

Lemma noteHead_safeAbc t : noteHead t = true -> Quantizer.safeAbc t = t.
Proof.
  intros H. destruct (noteHead_cases t H) as (c & rest & -> & Hc).
  unfold Quantizer.safeAbc.
  destruct (String.eqb_spec (String c rest) "undefined") as [E|_].
  - inversion E; subst. vm_compute in Hc. discriminate.
  - reflexivity.
Qed.

Lemma noteHead_append t d : noteHead t = true -> noteHead (String.append t d) = true.
Proof.
  intros H. destruct (noteHead_cases t H) as (c & rest & -> & Hc).
  exact Hc.
Qed.

Lemma noteHead_not_bar t : noteHead t = true -> isBar t = false.
Proof.
  intros H. destruct (noteHead_cases t H) as (c & rest & -> & Hc).
  unfold isBar. destruct (String.eqb_spec (String c rest) "|") as [E|_].
  - inversion E; subst. vm_compute in Hc. discriminate.
  - reflexivity.
Qed.

Lemma noteHead_not_rest t : noteHead t = true -> isRest t = false.
Proof.
  intros H. destruct (noteHead_cases t H) as (c & rest & -> & Hc).
  unfold isRest; simpl. destruct (Ascii.eqb_spec c "z") as [E|_].
  - subst. vm_compute in Hc. discriminate.
  - reflexivity.
Qed.

Lemma safeAbc_midiToAbc m :
  Quantizer.safeAbc (AudioUtils.midiToAbc m) = AudioUtils.midiToAbc m.
Proof. apply noteHead_safeAbc, midiToAbc_head. Qed.

(** ** Harmony derivation and duration strings *)

Lemma pushNote_note qValue p d st :
  Quantizer.pushNote qValue (Some p) (S d) st
  = Quantizer.mkEnc
      (Quantizer.melRes st
         ++ [String.append (AudioUtils.midiToAbc p)
                           (Quantizer.getDurStr qValue (S d))])
      (Quantizer.harRes st
         ++ [String.append (AudioUtils.midiToAbc (harmonyOf p))
                           (Quantizer.getDurStr qValue (S d))])
      (Quantizer.lastNote st) (Quantizer.duration st).
Proof.
  unfold Quantizer.pushNote. simpl Nat.eqb. cbv iota.
  rewrite !safeAbc_midiToAbc. reflexivity.
Qed.

(** The loops of the harmony fold stop in the first octave they reach. *)
Lemma harmonyOf_fold p :
  (55 < p - 12 -> 44 <= harmonyOf p)
  /\ (p - 12 < 36 -> harmonyOf p <= 47).
Proof.
  unfold harmonyOf.
  set (h := lowerTo 55 (Z.to_nat (p - 12)) (p - 12)).
  destruct (lowerTo_exit 55 (Z.to_nat (p - 12)) (p - 12))
    as (L1 & L2 & L3 & _); [lia|].
  fold h in L1, L2, L3.
  destruct (raiseTo_exit 36 (Z.to_nat (36 - h)) h)
    as (R1 & R2 & R3 & _); [lia|].
  split.
  - intros Hp. specialize (L2 Hp). rewrite R3 by lia. lia.
  - intros Hp. rewrite L3 in * by lia. specialize (R2 Hp). lia.
Qed.

Lemma harmonyOf_closed p :
  harmonyOf p
  = if 55 <? p - 12 then 44 + (p - 56) mod 12
    else if p - 12 <? 36 then 36 + (p - 48) mod 12
    else p - 12.
Proof.
  pose proof (harmonyOf_range p) as Hr.
  destruct (harmonyOf_shift p) as [k Hk].
  destruct (harmonyOf_fold p) as [Hup Hdown].
  destruct (Z.ltb_spec 55 (p - 12)) as [H1|H1].
  - specialize (Hup H1).
    assert (E : (p - 56) mod 12 = harmonyOf p - 44).
    { symmetry. apply (Z.mod_unique_pos _ _ (- k)). lia. lia. }
    lia.
  - destruct (Z.ltb_spec (p - 12) 36) as [H2|H2].
    + specialize (Hdown H2).
      assert (E : (p - 48) mod 12 = harmonyOf p - 36).
      { symmetry. apply (Z.mod_unique_pos _ _ (- k)). lia. lia. }
      lia.
    + apply harmonyOf_in_range. lia.
Qed.

(** C7. The harmony pitch derived from a melody pitch [p], whatever integer
    [p] is, is [p - 12] folded into [36,55] by octaves: it is [p - 12]
    itself when that lies in [36,55]; from above the fold stops in the
    first octave it reaches, [44,55], and from below in [36,47], in the
    pitch class of [p] (so the pitch is fixed for every [p], as the last
    equation spells out).  The harmony token pushed for a note is the name
    of that pitch, offline and live, and a silent run pushes the rest
    token [z] with the same duration on both lines. *)
Theorem harmony_register (p : Z) (qValue d : nat) (st : Quantizer.encState)
    (lm : option Z) (sf gu : nat) (mel har : list string) (lv : list Z)
    (cp : option Q) :
  36 <= harmonyOf p <= 55
  /\ (exists k, harmonyOf p = p - 12 + 12 * k)
  /\ harmonyOf (harmonyOf p + 12) = harmonyOf p
  /\ (36 <= p - 12 <= 55 -> harmonyOf p = p - 12)
  /\ (55 < p - 12 -> 44 <= harmonyOf p <= 55)
  /\ (p - 12 < 36 -> 36 <= harmonyOf p <= 47)
  /\ harmonyOf p
     = (if 55 <? p - 12 then 44 + (p - 56) mod 12
        else if p - 12 <? 36 then 36 + (p - 48) mod 12
        else p - 12)
  /\ Quantizer.harRes (Quantizer.pushNote qValue (Some p) (S d) st)
     = Quantizer.harRes st
       ++ [String.append (AudioUtils.midiToAbc (harmonyOf p))
                         (Quantizer.getDurStr qValue (S d))]
  /\ Quantizer.melRes (Quantizer.pushNote qValue None (S d) st)
     = Quantizer.melRes st
       ++ [String.append "z" (Quantizer.getDurStr qValue (S d))]
  /\ Quantizer.harRes (Quantizer.pushNote qValue None (S d) st)
     = Quantizer.harRes st
       ++ [String.append "z" (Quantizer.getDurStr qValue (S d))]
  /\ Realtime.harmonyBuffer
       (Realtime.confirm qValue p
          (Realtime.mkSession lm sf false gu mel har lv cp))
     = har ++ [AudioUtils.midiToAbc (harmonyOf p)]
           ++ (if (qValue <=? S gu)%nat then ["|"%string] else []).
Proof.
  pose proof (harmonyOf_range p) as Hr.
  destruct (harmonyOf_fold p) as [Hup Hdown].
  split; [exact Hr|].
  split; [apply harmonyOf_shift|].
  split; [rewrite harmonyOf_in_range; lia|].
  split; [apply harmonyOf_in_range|].
  split; [intros H; specialize (Hup H); lia|].
  split; [intros H; specialize (Hdown H); lia|].
  split; [apply harmonyOf_closed|].
  split; [rewrite pushNote_note; reflexivity|].
  split; [reflexivity|].
  split; [reflexivity|].
  unfold Realtime.confirm. simpl.
  destruct (qValue <=? S gu)%nat; reflexivity.
Qed.

Lemma even_mod2 d : Nat.even d = (d mod 2 =? 0)%nat.
Proof.
  pose proof (Nat.div_mod_eq d 2) as E.
  pose proof (Nat.mod_upper_bound d 2 ltac:(lia)) as B.
  rewrite E at 1. rewrite Nat.add_comm, Nat.even_add_mul_2.
  destruct (d mod 2)%nat as [|[|r]]; simpl; try reflexivity; lia.
Qed.

(** C8. The duration string of [d] grid units: for qValue 8 nothing when
    [d] is 1 and the decimal of [d] otherwise; for qValue 16 the count of
    eighths [d/2] for an even [d] (nothing when that count is 1), [/2] for
    [d = 1] and the decimal of [d] followed by [/2] for the other odd [d];
    for qValue 4 the decimal of [2 d]. *)
Theorem duration_string_table (d : nat) :
  Quantizer.getDurStr 8 d
  = (if (d =? 1)%nat then EmptyString else natToString d)
  /\ Quantizer.getDurStr 16 d
     = (if Nat.even d
        then (if (d / 2 =? 1)%nat then EmptyString else natToString (d / 2))
        else (if (d =? 1)%nat then "/2"%string
              else String.append (natToString d) "/2"))
  /\ Quantizer.getDurStr 4 d = natToString (2 * d).
Proof.
  split; [reflexivity|]. split.
  - rewrite even_mod2. reflexivity.
  - unfold Quantizer.getDurStr. simpl Nat.eqb. cbv iota.
    rewrite Nat.mul_comm. reflexivity.
Qed.

(** ** ScaleSnapper *)

Lemma keyRoot_range key : 0 <= AudioUtils.keyRoot key <= 11.
Proof.
  unfold AudioUtils.keyRoot, AudioUtils.rootMap.
  repeat (match goal with |- context [String.eqb ?a ?b] =>
                            destruct (String.eqb a b) end; [lia|]).
  lia.
Qed.

Lemma keyScale_mod key :
  AudioUtils.keyScale key
  = map (fun i => (AudioUtils.keyRoot key + i) mod 12) [0; 2; 4; 5; 7; 9; 11].
Proof.
  pose proof (keyRoot_range key) as R.
  unfold AudioUtils.keyScale, AudioUtils.keyIntervals,
    AudioUtils.majorScaleOffsets.
  destruct (existsb _ _); simpl map;
    rewrite !Z.rem_mod_nonneg by lia; reflexivity.
Qed.

Lemma keyScale_bounds key :
  Forall (fun s => 0 <= s <= 11) (AudioUtils.keyScale key).
Proof.
  rewrite keyScale_mod. simpl map.
  repeat (apply Forall_cons; split;
          [match goal with |- _ <= ?a mod 12 <= _ =>
             pose proof (Z.mod_pos_bound a 12 ltac:(lia)); lia end|]).
  apply Forall_nil. trivial.
Qed.

Lemma wrapDiff_bounds c s :
  0 <= c <= 11 -> 0 <= s <= 11 -> 0 <= AudioUtils.wrapDiff c s <= 6.
Proof.
  intros Hc Hs. unfold AudioUtils.wrapDiff.
  destruct (Z.gtb_spec (Z.abs (c - s)) 6); lia.
Qed.

(** The loop of [snapToScale] keeps the first scale degree of least
    wrapped distance. *)
Lemma snap_fold midi chroma l : forall b m,
  let r := fold_left (AudioUtils.snapStep midi chroma) l (b, m) in
  (r = (b, m) /\ Forall (fun s => m <= AudioUtils.wrapDiff chroma s) l)
  \/ (exists i s,
        l !! i = Some s
        /\ r = (midi / 12 * 12 + s, AudioUtils.wrapDiff chroma s)
        /\ AudioUtils.wrapDiff chroma s < m
        /\ (forall j t, l !! j = Some t ->
                        AudioUtils.wrapDiff chroma s
                        <= AudioUtils.wrapDiff chroma t)
        /\ (forall j t, (j < i)%nat -> l !! j = Some t ->
                        AudioUtils.wrapDiff chroma s
                        < AudioUtils.wrapDiff chroma t)).
Proof.
  induction l as [|x l IH]; intros b m; simpl.
  - left. split; [reflexivity|apply Forall_nil; trivial].
  - destruct (Z.ltb_spec (AudioUtils.wrapDiff chroma x) m) as [Hlt|Hge].
    + destruct (IH (midi / 12 * 12 + x) (AudioUtils.wrapDiff chroma x))
        as [[E F]|(i & s & Hi & E & Hs & Hmin & Hfirst)].
      * right. exists 0%nat, x. rewrite Forall_forall in F.
        repeat split; try assumption.
        -- intros [|j] t Ht; simpl in Ht.
           ++ inversion Ht; subst; lia.
           ++ apply F. eapply list_elem_of_lookup_2; eassumption.
        -- intros j t Hj. lia.
      * right. exists (S i), s. repeat split; try assumption; try lia.
        -- intros [|j] t Ht; simpl in Ht.
           ++ inversion Ht; subst; lia.
           ++ eapply Hmin; eassumption.
        -- intros [|j] t Hj Ht; simpl in Ht.
           ++ inversion Ht; subst; lia.
           ++ eapply Hfirst; [|eassumption]. lia.
    + destruct (IH b m) as [[E F]|(i & s & Hi & E & Hs & Hmin & Hfirst)].
      * left. split; [assumption|]. apply Forall_cons. split; assumption.
      * right. exists (S i), s. repeat split; try assumption.
        -- intros [|j] t Ht; simpl in Ht.
           ++ inversion Ht; subst; lia.
           ++ eapply Hmin; eassumption.
        -- intros [|j] t Hj Ht; simpl in Ht.
           ++ inversion Ht; subst; lia.
           ++ eapply Hfirst; [|eassumption]. lia.
Qed.

Lemma includes_In scale c : AudioUtils.includes scale c = true <-> In c scale.
Proof.
  unfold AudioUtils.includes. rewrite existsb_exists. split.
  - intros (x & Hx & E). apply Z.eqb_eq in E. subst. assumption.
  - intros H. exists c. split; [assumption|apply Z.eqb_refl].
Qed.

(** The result of [snapToScale] in terms of the root [rootMap] gives the
    key. *)
Lemma snapToScale_nearest_root (midi : Z) (key : string) (Hmidi : 0 <= midi) :
  let pc := midi mod 12 in
  let scale :=
    map (fun i => (AudioUtils.keyRoot key + i) mod 12) [0; 2; 4; 5; 7; 9; 11] in
  (In pc scale -> AudioUtils.snapToScale midi key = midi)
  /\ (~ In pc scale ->
      exists i s,
        scale !! i = Some s
        /\ (forall j t, scale !! j = Some t ->
                        circularDistance pc s <= circularDistance pc t)
        /\ (forall j t, (j < i)%nat -> scale !! j = Some t ->
                        circularDistance pc s < circularDistance pc t)
        /\ AudioUtils.snapToScale midi key = 12 * (midi / 12) + s
        /\ AudioUtils.snapToScale midi key / 12 = midi / 12).
Proof.
  intros pc scale.
  assert (Hscale : AudioUtils.keyScale key = scale) by apply keyScale_mod.
  assert (Hpc : Z.rem midi 12 = pc) by (apply Z.rem_mod_nonneg; lia).
  assert (Bpc : 0 <= pc <= 11)
    by (pose proof (Z.mod_pos_bound midi 12 ltac:(lia)); unfold pc; lia).
  pose proof (keyScale_bounds key) as Bs. rewrite Hscale in Bs.
  unfold AudioUtils.snapToScale. rewrite Hscale, Hpc.
  split.
  - intros Hin. apply includes_In in Hin. rewrite Hin. reflexivity.
  - intros Hnin.
    destruct (AudioUtils.includes scale pc) eqn:Ein.
    { apply includes_In in Ein. contradiction. }
    destruct (snap_fold midi pc scale midi 13)
      as [[_ F]|(i & s & Hi & E & _ & Hmin & Hfirst)].
    + exfalso. subst scale. simpl in F, Bs.
      apply Forall_cons in F as [F _]. apply Forall_cons in Bs as [Bs _].
      pose proof (wrapDiff_bounds pc _ Bpc Bs). lia.
    + exists i, s. rewrite E. simpl fst.
      assert (Hs : 0 <= s <= 11).
      { rewrite Forall_forall in Bs. apply Bs.
        eapply list_elem_of_lookup_2; eassumption. }
      repeat split; try assumption; try lia.
      replace (midi / 12 * 12 + s) with (s + (midi / 12) * 12) by lia.
      rewrite Z.div_add by lia. rewrite Z.div_small by lia. lia.
Qed.

Lemma keyTable_root key root :
  In (key, root) keyTable -> AudioUtils.keyRoot key = root.
Proof.
  unfold keyTable. cbn [In].
  intros H.
  repeat (destruct H as [H|H]; [injection H as <- <-; reflexivity|]).
  contradiction.
Qed.

(** C5. For each of the twelve keys, named as in [keyTable] with the
    pitch class of its root, and a pitch number (a non-negative integer):
    [snapToScale] returns the pitch itself when its class is in the major
    scale built on that root; otherwise it returns the pitch of the same
    octave (same [midi / 12]) whose class is the first scale degree, in
    ascending interval order, of least circular distance from the class
    of the input. *)
Theorem snap_to_scale_nearest (midi : Z) (key : string) (root : Z)
    (Hmidi : 0 <= midi) (Hkey : In (key, root) keyTable) :
  let pc := midi mod 12 in
  let scale := majorScale root in
  (In pc scale -> AudioUtils.snapToScale midi key = midi)
  /\ (~ In pc scale ->
      exists i s,
        scale !! i = Some s
        /\ (forall j t, scale !! j = Some t ->
                        circularDistance pc s <= circularDistance pc t)
        /\ (forall j t, (j < i)%nat -> scale !! j = Some t ->
                        circularDistance pc s < circularDistance pc t)
        /\ AudioUtils.snapToScale midi key = 12 * (midi / 12) + s
        /\ AudioUtils.snapToScale midi key / 12 = midi / 12).
Proof.
  pose proof (snapToScale_nearest_root midi key Hmidi) as H.
  rewrite (keyTable_root key root Hkey) in H. exact H.
Qed.

Lemma snap_to_scale_nearest_witness :
  (0 <= 60 /\ In ("D"%string, 2) keyTable)
  /\ AudioUtils.snapToScale 61 "D" = 61
  /\ exists i s,
       majorScale 2 !! i = Some s
       /\ AudioUtils.snapToScale 60 "D" = 12 * (60 / 12) + s.
Proof.
  assert (Hk : In ("D"%string, 2) keyTable)
    by (right; right; left; reflexivity).
  split; [split; [lia|exact Hk]|]. split.
  - apply (proj1 (snap_to_scale_nearest 61 "D" 2 ltac:(lia) Hk)).
    vm_compute. repeat (first [left; reflexivity|right]).
  - destruct (proj2 (snap_to_scale_nearest 60 "D" 2 ltac:(lia) Hk))
      as (i & s & Hi & _ & _ & E & _).
    + vm_compute. intuition discriminate.
    + exists i, s. split; assumption.
Defined.

(** ** KeyDetector *)

Lemma filter_length_le {A} (f : A -> bool) (l : list A) :
  (length (List.filter f l) <= length l)%nat.
Proof.
  induction l as [|x l IH]; simpl; [lia|].
  destruct (f x); simpl; lia.
Qed.

Lemma filter_length_all {A} (f : A -> bool) (l : list A) :
  length (List.filter f l) = length l <-> Forall (fun x => f x = true) l.
Proof.
  induction l as [|x l IH]; simpl.
  - split; [intros _; apply Forall_nil; trivial|reflexivity].
  - pose proof (filter_length_le f l) as L.
    destruct (f x) eqn:E; simpl.
    + rewrite Forall_cons. split.
      * intros H. split; [assumption|]. apply IH. lia.
      * intros [_ H]. f_equal. apply IH. assumption.
    + rewrite Forall_cons. split; [lia|]. intros [H _]. congruence.
Qed.

Lemma keyMatches_le notes r : 0 <= keyMatches notes r <= Z.of_nat (length notes).
Proof.
  unfold keyMatches, AudioUtils.matchCount.
  pose proof (filter_length_le
    (AudioUtils.includes (AudioUtils.scaleOf (Z.of_nat r)))
    (map (fun m => Z.rem m 12) notes)) as L.
  rewrite length_map in L. lia.
Qed.

Lemma keyMatches_all notes r :
  keyMatches notes r = Z.of_nat (length notes) <-> allInScale notes r.
Proof.
  unfold keyMatches, AudioUtils.matchCount, allInScale.
  rewrite <- (length_map (fun m => Z.rem m 12) notes) at 1.
  rewrite Nat2Z.inj_iff, filter_length_all, Forall_map. reflexivity.
Qed.

(** The loop of [detectKey] keeps the first root of greatest count. *)
Lemma detect_fold chromas l : forall k m,
  let r := fold_left (AudioUtils.detectKeyStep chromas) l (k, m) in
  (r = (k, m) /\ Forall (fun x => AudioUtils.matchCount chromas x <= m) l)
  \/ (exists i x,
        l !! i = Some x
        /\ r = (nth x AudioUtils.nameMap "C"%string,
                AudioUtils.matchCount chromas x)
        /\ m < AudioUtils.matchCount chromas x
        /\ (forall j y, l !! j = Some y ->
                        AudioUtils.matchCount chromas y
                        <= AudioUtils.matchCount chromas x)
        /\ (forall j y, (j < i)%nat -> l !! j = Some y ->
                        AudioUtils.matchCount chromas y
                        < AudioUtils.matchCount chromas x)).
Proof.
  induction l as [|x l IH]; intros k m; simpl.
  - left. split; [reflexivity|apply Forall_nil; trivial].
  - destruct (Z.gtb_spec (AudioUtils.matchCount chromas x) m) as [Hgt|Hle].
    + destruct (IH (nth x AudioUtils.nameMap "C"%string)
                   (AudioUtils.matchCount chromas x))
        as [[E F]|(i & y & Hi & E & Hy & Hmax & Hfirst)].
      * right. exists 0%nat, x. rewrite Forall_forall in F.
        split; [reflexivity|]. split; [assumption|]. split; [lia|]. split.
        -- intros [|j] t Ht; simpl in Ht.
           ++ inversion Ht; subst; lia.
           ++ apply F. eapply list_elem_of_lookup_2; eassumption.
        -- intros j t Hj. lia.
      * right. exists (S i), y.
        split; [assumption|]. split; [assumption|]. split; [lia|]. split.
        -- intros [|j] t Ht; simpl in Ht.
           ++ inversion Ht; subst; lia.
           ++ eapply Hmax; eassumption.
        -- intros [|j] t Hj Ht; simpl in Ht.
           ++ inversion Ht; subst; lia.
           ++ eapply Hfirst; [|eassumption]. lia.
    + destruct (IH k m) as [[E F]|(i & y & Hi & E & Hy & Hmax & Hfirst)].
      * left. split; [assumption|]. apply Forall_cons. split; assumption.
      * right. exists (S i), y.
        split; [assumption|]. split; [assumption|]. split; [lia|]. split.
        -- intros [|j] t Ht; simpl in Ht.
           ++ inversion Ht; subst; lia.
           ++ eapply Hmax; eassumption.
        -- intros [|j] t Hj Ht; simpl in Ht.
           ++ inversion Ht; subst; lia.
           ++ eapply Hfirst; [|eassumption]. lia.
Qed.

(** With five notes or more, [detectKey] names the lowest root among those
    of greatest count. *)
Lemma detectKey_first_max notes :
  (5 <= length notes)%nat ->
  exists r, (r < 12)%nat
    /\ AudioUtils.nameMap !! r = Some (AudioUtils.detectKey notes)
    /\ (forall r', (r' < 12)%nat -> keyMatches notes r' <= keyMatches notes r)
    /\ (forall r', (r' < r)%nat -> keyMatches notes r' < keyMatches notes r).
Proof.
  intros Hlen. unfold AudioUtils.detectKey.
  destruct (Nat.ltb_spec (length notes) 5) as [?|_]; [lia|].
  cbv zeta.
  destruct (detect_fold (map (fun m => Z.rem m 12) notes) (seq 0 12)
              "C"%string (-1))
    as [[_ F]|(i & x & Hi & E & _ & Hmax & Hfirst)].
  - exfalso. apply Forall_cons in F as [F _].
    pose proof (keyMatches_le notes 0). unfold keyMatches in *. lia.
  - apply lookup_seq in Hi as [-> Hi]. change (0 + i)%nat with i in *.
    exists i. rewrite E. cbn [fst].
    split; [assumption|]. split.
    { clear -Hi. do 12 (destruct i as [|i]; [reflexivity|]). lia. }
    split.
    + intros r' Hr'. apply (Hmax r' r'). apply lookup_seq. split; [reflexivity|lia].
    + intros r' Hr'. apply (Hfirst r' r'); [assumption|].
      apply lookup_seq. split; [reflexivity|lia].
Qed.

Lemma allInScale_of_classes notes r classes :
  AudioUtils.scaleOf (Z.of_nat r) = classes ->
  Forall (fun m => In (Z.rem m 12) classes) notes -> allInScale notes r.
Proof.
  intros <- H. unfold allInScale. eapply Forall_impl; [exact H|].
  intros m Hm. apply includes_In. exact Hm.
Qed.

Lemma nameMap_inj r name :
  (r < 12)%nat -> AudioUtils.nameMap !! r = Some name ->
  (name = "C"%string <-> r = 0%nat) /\ (name = "G"%string <-> r = 7%nat).
Proof.
  intros Hr. do 12 (destruct r as [|r];
    [intros [= <-]; split; split; (discriminate || reflexivity)|]).
  lia.
Qed.

(** The part of C4 on G major fails: five notes G are drawn from the
    pitch classes of G major, and the key found is C. *)
Lemma detect_key_G_counterexample :
  Forall (fun m => In (Z.rem m 12) [7; 9; 11; 0; 2; 4; 6]) [67; 67; 67; 67; 67]
  /\ AudioUtils.detectKey [67; 67; 67; 67; 67] = "C"%string
  /\ AudioUtils.detectKey [67; 67; 67; 67; 67] <> "G"%string.
Proof.
  split.
  - repeat (apply Forall_cons; split; [simpl; tauto|]). apply Forall_nil. trivial.
  - split; [reflexivity|]. vm_compute. discriminate.
Qed.

(** C4, amended. With fewer than five notes [detectKey] answers C.
    Otherwise it answers the lowest of the roots whose major scale holds
    the greatest number of input pitch classes.  Hence notes drawn only
    from the classes of C major give C; five or more notes drawn only from
    the classes of G major give G exactly when no root below G has a scale
    holding all of them, and a lower root otherwise. *)
Theorem detect_key_first_best (notes : list Z) :
  ((length notes < 5)%nat -> AudioUtils.detectKey notes = "C"%string)
  /\ ((5 <= length notes)%nat ->
      exists r, (r < 12)%nat
        /\ AudioUtils.nameMap !! r = Some (AudioUtils.detectKey notes)
        /\ (forall r', (r' < 12)%nat ->
                       keyMatches notes r' <= keyMatches notes r)
        /\ (forall r', (r' < r)%nat ->
                       keyMatches notes r' < keyMatches notes r))
  /\ (Forall (fun m => In (Z.rem m 12) [0; 2; 4; 5; 7; 9; 11]) notes ->
      AudioUtils.detectKey notes = "C"%string)
  /\ ((5 <= length notes)%nat ->
      Forall (fun m => In (Z.rem m 12) [7; 9; 11; 0; 2; 4; 6]) notes ->
      (AudioUtils.detectKey notes = "G"%string
       <-> forall r, (r < 7)%nat -> ~ allInScale notes r)).
Proof.
  assert (Hshort : (length notes < 5)%nat ->
                   AudioUtils.detectKey notes = "C"%string).
  { intros H. unfold AudioUtils.detectKey.
    destruct (Nat.ltb_spec (length notes) 5); [reflexivity|lia]. }
  split; [exact Hshort|].
  split; [apply detectKey_first_max|].
  split.
  - intros Hc.
    destruct (Nat.lt_ge_cases (length notes) 5) as [Hlt|Hge];
      [auto|].
    destruct (detectKey_first_max notes Hge) as (r & Hr & Hname & Hmax & Hfirst).
    apply (nameMap_inj r _ Hr Hname).
    destruct r as [|r]; [reflexivity|exfalso].
    assert (H0 : keyMatches notes 0 = Z.of_nat (length notes)).
    { apply keyMatches_all.
      apply (allInScale_of_classes notes 0 [0; 2; 4; 5; 7; 9; 11]);
        [reflexivity|assumption]. }
    pose proof (Hfirst 0%nat ltac:(lia)).
    pose proof (keyMatches_le notes (S r)). lia.
  - intros Hge Hg.
    destruct (detectKey_first_max notes Hge) as (r & Hr & Hname & Hmax & Hfirst).
    assert (H7 : keyMatches notes 7 = Z.of_nat (length notes)).
    { apply keyMatches_all.
      apply (allInScale_of_classes notes 7 [7; 9; 11; 0; 2; 4; 6]);
        [reflexivity|assumption]. }
    destruct (nameMap_inj r _ Hr Hname) as [_ HG]. rewrite HG. split.
    + intros -> r' Hr' Hall. apply keyMatches_all in Hall.
      pose proof (Hfirst r' Hr'). lia.
    + intros Hnone.
      pose proof (Hmax 7%nat ltac:(lia)) as M7.
      pose proof (keyMatches_le notes r) as Lr.
      assert (Er : keyMatches notes r = Z.of_nat (length notes)) by lia.
      destruct (Nat.lt_trichotomy r 7) as [Hlt|[->|Hgt]]; [|reflexivity|].
      * exfalso. apply (Hnone r Hlt). apply keyMatches_all. assumption.
      * pose proof (Hfirst 7%nat Hgt). lia.
Qed.

Lemma detect_key_first_best_witness :
  AudioUtils.detectKey [60; 62] = "C"%string
  /\ AudioUtils.detectKey [60; 62; 64; 65; 67; 69; 71] = "C"%string
  /\ AudioUtils.detectKey [67; 69; 71; 72; 74; 76; 78] = "G"%string.
Proof.
  split; [|split].
  - apply (proj1 (detect_key_first_best [60; 62])). simpl. lia.
  - apply (proj1 (proj2 (proj2 (detect_key_first_best
                                   [60; 62; 64; 65; 67; 69; 71])))).
    repeat (apply Forall_cons; split; [simpl; tauto|]).
    apply Forall_nil. trivial.
  - apply (proj2 (proj2 (proj2 (detect_key_first_best
                                   [67; 69; 71; 72; 74; 76; 78])))).
    + simpl. lia.
    + repeat (apply Forall_cons; split; [simpl; tauto|]).
      apply Forall_nil. trivial.
    + intros r Hr Hall. unfold allInScale in Hall.
      rewrite Forall_lookup in Hall.
      do 7 (destruct r as [|r];
            [ first
                [ specialize (Hall 3%nat 72 eq_refl); vm_compute in Hall;
                  discriminate
                | specialize (Hall 6%nat 78 eq_refl); vm_compute in Hall;
                  discriminate
                | specialize (Hall 0%nat 67 eq_refl); vm_compute in Hall;
                  discriminate ]
            |]).
      lia.
Defined.

(** ** Gap filling *)

Section GapFill.
Import Quantizer.

Lemma gapFillAt_cases i (g : grid) :
  (gapFillAt i g = g
   /\ ~ (exists a b, g !! (i - 1)%nat = Some (Some a) /\ g !! i = Some None
                     /\ g !! (i + 1)%nat = Some (Some b)))
  \/ (exists a b, g !! (i - 1)%nat = Some (Some a) /\ g !! i = Some None
                  /\ g !! (i + 1)%nat = Some (Some b)
                  /\ gapFillAt i g = <[i := Some a]> g).
Proof.
  unfold gapFillAt.
  destruct (g !! (i - 1)%nat) as [[a|]|] eqn:E1;
    destruct (g !! i) as [[c|]|] eqn:E2;
    destruct (g !! (i + 1)%nat) as [[b|]|] eqn:E3;
    try (left; split; [reflexivity|];
         intros (a' & b' & H1 & H2 & H3); congruence).
  right. exists a, b. repeat split.
  destruct (a =? b); reflexivity.
Qed.

Lemma gapFillAt_length i (g : grid) : length (gapFillAt i g) = length g.
Proof.
  destruct (gapFillAt_cases i g) as [[-> _]|(a & b & _ & _ & _ & ->)];
    [reflexivity|apply length_insert].
Qed.

Lemma gapFillAt_other i k (g : grid) : k <> i -> gapFillAt i g !! k = g !! k.
Proof.
  intros Hk.
  destruct (gapFillAt_cases i g) as [[-> _]|(a & b & _ & _ & _ & ->)];
    [reflexivity|]. apply list_lookup_insert_ne. congruence.
Qed.

Lemma gapFillAt_keeps i k (g : grid) p :
  g !! k = Some (Some p) -> gapFillAt i g !! k = Some (Some p).
Proof.
  intros Hk. destruct (Nat.eq_dec k i) as [->|Hne].
  - destruct (gapFillAt_cases i g) as [[-> _]|(a & b & _ & Hi & _ & _)];
      [assumption|congruence].
  - rewrite gapFillAt_other; assumption.
Qed.

Lemma gapFillLoop_length n : forall i (g : grid),
  length (gapFillLoop n i g) = length g.
Proof.
  induction n as [|n IH]; intros i g; simpl; [reflexivity|].
  rewrite IH. apply gapFillAt_length.
Qed.

Lemma gapFillLoop_before n : forall i k (g : grid),
  (k < i)%nat -> gapFillLoop n i g !! k = g !! k.
Proof.
  induction n as [|n IH]; intros i k g Hk; simpl; [reflexivity|].
  rewrite IH by lia. apply gapFillAt_other. lia.
Qed.

Lemma gapFillLoop_after n : forall i k (g : grid),
  (i + n <= k)%nat -> gapFillLoop n i g !! k = g !! k.
Proof.
  induction n as [|n IH]; intros i k g Hk; simpl; [reflexivity|].
  rewrite IH by lia. apply gapFillAt_other. lia.
Qed.

Lemma gapFillLoop_keeps n : forall i k (g : grid) p,
  g !! k = Some (Some p) -> gapFillLoop n i g !! k = Some (Some p).
Proof.
  induction n as [|n IH]; intros i k g p Hk; simpl; [assumption|].
  apply IH. apply gapFillAt_keeps. assumption.
Qed.

(** A cell that the loop fills had a non-silent cell on its left when it
    was visited. *)
Lemma gapFillLoop_first n i (g : grid) b :
  gapFillLoop n (S i) g !! (S i) = Some (Some b) ->
  g !! (S i) = Some (Some b) \/ exists p, g !! i = Some (Some p).
Proof.
  destruct n as [|n]; simpl; [auto|].
  rewrite gapFillLoop_before by lia.
  destruct (gapFillAt_cases (S i) g) as [[-> _]|(a & c & Ha & _ & _ & ->)];
    [auto|].
  intros _. right. exists a. rewrite <- Ha. f_equal. lia.
Qed.

Lemma gapFillLoop_no_gap n : forall i k (g : grid) a b,
  (1 <= i)%nat -> (i <= k < i + n)%nat ->
  gapFillLoop n i g !! (k - 1)%nat = Some (Some a) ->
  gapFillLoop n i g !! k = Some None ->
  gapFillLoop n i g !! (k + 1)%nat = Some (Some b) ->
  False.
Proof.
  induction n as [|n IH]; intros i k g a b Hi Hk Hl Hc Hr; [lia|].
  simpl in Hl, Hc, Hr.
  destruct (Nat.eq_dec k i) as [->|Hne].
  - rewrite gapFillLoop_before in Hl by lia.
    rewrite gapFillLoop_before in Hc by lia.
    rewrite gapFillAt_other in Hl by lia.
    replace (i + 1)%nat with (S i) in Hr by lia.
    apply gapFillLoop_first in Hr as [Hr|[p Hp]]; [|congruence].
    rewrite gapFillAt_other in Hr by lia.
    destruct (gapFillAt_cases i g) as [[E Hno]|(a' & b' & _ & Hi' & _ & E)];
      rewrite E in Hc.
    + apply Hno. exists a, b. replace (i + 1)%nat with (S i) by lia. auto.
    + rewrite list_lookup_insert_eq in Hc; [congruence|].
      eapply lookup_lt_Some; eassumption.
  - apply (IH (S i) k (gapFillAt i g) a b); try assumption; lia.
Qed.

Lemma gapFillLoop_fills n : forall i k (g : grid) a b,
  (1 <= i)%nat -> (i <= k < i + n)%nat ->
  g !! (k - 1)%nat = Some (Some a) -> g !! k = Some None ->
  g !! (k + 1)%nat = Some (Some b) ->
  gapFillLoop n i g !! k = Some (Some a).
Proof.
  induction n as [|n IH]; intros i k g a b Hi Hk Hl Hc Hr; [lia|].
  simpl. destruct (Nat.eq_dec k i) as [->|Hne].
  - rewrite gapFillLoop_before by lia.
    destruct (gapFillAt_cases i g) as [[_ Hno]|(a' & b' & Ha' & _ & _ & ->)].
    + exfalso. apply Hno. exists a, b. auto.
    + rewrite list_lookup_insert_eq by (eapply lookup_lt_Some; eassumption).
      congruence.
  - apply (IH (S i) k (gapFillAt i g) a b); try lia.
    + apply gapFillAt_keeps. assumption.
    + rewrite gapFillAt_other; assumption.
    + apply gapFillAt_keeps. assumption.
Qed.

End GapFill.

(** After gap filling no silent cell stands between two non-silent
    cells. *)
Lemma gapFill_no_gap (g : grid) k a b :
  Quantizer.gapFill g !! k = Some (Some a) ->
  Quantizer.gapFill g !! (k + 1)%nat = Some None ->
  Quantizer.gapFill g !! (k + 2)%nat = Some (Some b) -> False.
Proof.
  unfold Quantizer.gapFill. intros Hl Hc Hr.
  assert (Hlen : (k + 2 < length g)%nat).
  { rewrite <- (gapFillLoop_length (length g - 2) 1 g).
    eapply lookup_lt_Some; eassumption. }
  apply (gapFillLoop_no_gap (length g - 2) 1 (k + 1) g a b);
    try assumption; try lia.
  - replace (k + 1 - 1)%nat with k by lia. assumption.
  - replace (k + 1 + 1)%nat with (k + 2)%nat by lia. assumption.
Qed.

(** C6. After gap filling no silent cell stands between two non-silent
    cells; a silent cell that stood between two non-silent cells holds the
    pitch of its left neighbour, whether or not the two neighbours agree;
    the grid keeps its length and every non-silent cell its pitch. *)
Theorem gap_fill_complete (g : grid) :
  length (Quantizer.gapFill g) = length g
  /\ (forall k p, g !! k = Some (Some p) ->
                  Quantizer.gapFill g !! k = Some (Some p))
  /\ (forall k a b,
        Quantizer.gapFill g !! k = Some (Some a) ->
        Quantizer.gapFill g !! (k + 2)%nat = Some (Some b) ->
        Quantizer.gapFill g !! (k + 1)%nat <> Some None)
  /\ (forall k a b,
        g !! k = Some (Some a) -> g !! (k + 1)%nat = Some None ->
        g !! (k + 2)%nat = Some (Some b) ->
        Quantizer.gapFill g !! (k + 1)%nat = Some (Some a)).
Proof.
  unfold Quantizer.gapFill.
  split; [apply gapFillLoop_length|].
  split; [intros k p; apply gapFillLoop_keeps|].
  split.
  - intros k a b Hl Hr Hc.
    assert (Hlen : (k + 2 < length g)%nat).
    { rewrite <- (gapFillLoop_length (length g - 2) 1 g).
      eapply lookup_lt_Some; eassumption. }
    apply (gapFillLoop_no_gap (length g - 2) 1 (k + 1) g a b);
      try assumption; try lia.
    + replace (k + 1 - 1)%nat with k by lia. assumption.
    + replace (k + 1 + 1)%nat with (k + 2)%nat by lia. assumption.
  - intros k a b Hl Hc Hr.
    assert (Hlen : (k + 2 < length g)%nat)
      by (eapply lookup_lt_Some; eassumption).
    apply (gapFillLoop_fills (length g - 2) 1 (k + 1) g a b);
      try assumption; try lia.
    + replace (k + 1 - 1)%nat with k by lia. assumption.
    + replace (k + 1 + 1)%nat with (k + 2)%nat by lia. assumption.
Qed.

Lemma gap_fill_complete_witness :
  Quantizer.gapFill [Some 60; None; Some 64] !! 1%nat = Some (Some 60)
  /\ Quantizer.gapFill [Some 60; None; Some 64] !! 1%nat <> Some None.
Proof.
  pose proof (gap_fill_complete [Some 60; None; Some 64]) as (_ & _ & H3 & H4).
  split.
  - apply (H4 0%nat 60 64); reflexivity.
  - apply (H3 0%nat 60 64); reflexivity.
Defined.

(** ** Tail extension *)

Lemma cell_eqb_eq (a b : cell) : cell_eqb a b = true <-> a = b.
Proof.
  destruct a as [x|], b as [y|]; simpl; split; intros H;
    try discriminate; try reflexivity.
  - apply Z.eqb_eq in H. congruence.
  - inversion H. apply Z.eqb_refl.
Qed.

Section TailExtension.
Import Quantizer.

Lemma scanRun_spec fuel : forall (g : grid) pitch run j,
  exists n, scanRun fuel g pitch run j = ((run + n)%nat, (j + n)%nat)
    /\ (n <= fuel)%nat
    /\ (forall m, (j <= m < j + n)%nat -> g !! m = Some pitch)
    /\ ((n < fuel)%nat -> g !! (j + n)%nat <> Some pitch).
Proof.
  induction fuel as [|f IH]; intros g pitch run j; simpl.
  - exists 0%nat. rewrite !Nat.add_0_r.
    split; [reflexivity|]. split; [lia|]. split; intros; lia.
  - destruct (g !! j) as [c|] eqn:Ej.
    + destruct (cell_eqb c pitch) eqn:Ec.
      * apply cell_eqb_eq in Ec. subst c.
        destruct (IH g pitch (S run) (S j)) as (n & E & Hn & Hrun & Hstop).
        exists (S n). rewrite E. split; [f_equal; lia|].
        split; [lia|]. split.
        -- intros m Hm. destruct (Nat.eq_dec m j) as [->|Hne];
             [assumption|apply Hrun; lia].
        -- intros Hlt. replace (j + S n)%nat with (S j + n)%nat by lia.
           apply Hstop. lia.
      * exists 0%nat. rewrite !Nat.add_0_r.
        split; [reflexivity|]. split; [lia|]. split; [intros; lia|].
        intros _ H. rewrite Ej in H. inversion H; subst.
        rewrite (proj2 (cell_eqb_eq pitch pitch) eq_refl) in Ec.
        discriminate.
    + exists 0%nat. rewrite !Nat.add_0_r.
      split; [reflexivity|]. split; [lia|]. split; [intros; lia|].
      intros _ H. congruence.
Qed.

(** The bound [length g] on the scan is never the reason why it stops. *)
Lemma scanRun_run (g : grid) i p :
  g !! i = Some (Some p) ->
  exists run, scanRun (length g) g (Some p) 0 i = (run, (i + run)%nat)
    /\ (1 <= run)%nat /\ pitchRun g i run p.
Proof.
  intros Hi.
  destruct (scanRun_spec (length g) g (Some p) 0 i)
    as (n & E & Hn & Hrun & Hstop).
  exists n. simpl in E. split; [assumption|].
  assert (Hend : g !! (i + n)%nat <> Some (Some p)).
  { destruct (Nat.eq_dec n (length g)) as [->|Hne].
    - rewrite (proj2 (lookup_ge_None g (i + length g)%nat)) by lia.
      discriminate.
    - apply Hstop. lia. }
  split.
  - destruct n as [|n]; [|lia]. rewrite Nat.add_0_r in Hend. contradiction.
  - split; assumption.
Qed.

Lemma pitchRun_unique (g : grid) i p r1 r2 :
  pitchRun g i r1 p -> pitchRun g i r2 p -> r1 = r2.
Proof.
  intros [H1 E1] [H2 E2].
  destruct (Nat.lt_trichotomy r1 r2) as [Hlt|[->|Hgt]]; [|reflexivity|].
  - exfalso. apply E1. apply H2. lia.
  - exfalso. apply E2. apply H1. lia.
Qed.

(** One pass of the outer loop on a run of [p] that starts at [i]. *)
Lemma tailStep_run (g : grid) i run p :
  pitchRun g i run p -> (1 <= run)%nat ->
  tailStep g i
  = (if niceRun run && silentAt g (i + run)
     then <[(i + run)%nat := Some p]> g else g,
     (i + run)%nat).
Proof.
  intros Hrun Hpos.
  assert (Hi : g !! i = Some (Some p)) by (apply Hrun; lia).
  destruct (scanRun_run g i p Hi) as (n & E & _ & Hn).
  assert (n = run) by (eapply pitchRun_unique; eassumption). subst n.
  unfold tailStep, silentAt. rewrite Hi, E.
  destruct (g !! (i + run)%nat) as [[c|]|]; destruct (niceRun run);
    reflexivity.
Qed.

Lemma niceRun_cases run :
  niceRun run = true <-> run = 3%nat \/ run = 7%nat \/ run = 15%nat.
Proof.
  unfold niceRun. rewrite !orb_true_iff, !Nat.eqb_eq. tauto.
Qed.

(** What one pass can do to any grid. *)
Lemma tailStep_cases (g : grid) i :
  (i < snd (tailStep g i))%nat
  /\ (fst (tailStep g i) = g
      \/ exists p run,
           niceRun run = true
           /\ snd (tailStep g i) = (i + run)%nat
           /\ (forall m, (i <= m < i + run)%nat -> g !! m = Some (Some p))
           /\ g !! (i + run)%nat = Some None
           /\ fst (tailStep g i) = <[(i + run)%nat := Some p]> g).
Proof.
  destruct (g !! i) as [[p|]|] eqn:Hi.
  - destruct (scanRun_run g i p Hi) as (run & _ & Hpos & Hrun).
    rewrite (tailStep_run g i run p Hrun Hpos). simpl. split; [lia|].
    destruct (niceRun run) eqn:Hn; [|left; reflexivity].
    unfold silentAt.
    destruct (g !! (i + run)%nat) as [[c|]|] eqn:Hj;
      try (left; reflexivity).
    right. exists p, run. destruct Hrun as [Hrun _]. auto.
  - unfold tailStep. rewrite Hi. simpl. split; [lia|left; reflexivity].
  - unfold tailStep. rewrite Hi. simpl. split; [lia|left; reflexivity].
Qed.

Lemma tailStep_length (g : grid) i : length (fst (tailStep g i)) = length g.
Proof.
  destruct (tailStep_cases g i) as [_ [->|(p & run & _ & _ & _ & _ & ->)]];
    [reflexivity|apply length_insert].
Qed.

Lemma tailStep_keeps (g : grid) i k p :
  g !! k = Some (Some p) -> fst (tailStep g i) !! k = Some (Some p).
Proof.
  intros Hk.
  destruct (tailStep_cases g i) as [_ [->|(q & run & _ & _ & _ & Hj & ->)]];
    [assumption|].
  rewrite list_lookup_insert_ne; [assumption|]. congruence.
Qed.

(** More fuel than [length g - i] does not change the result: the outer
    loop has stopped by itself. *)
Lemma tailLoop_fuel fuel : forall (g : grid) i extra,
  (length g <= i + fuel)%nat ->
  tailLoop (fuel + extra) g i = tailLoop fuel g i.
Proof.
  induction fuel as [|f IH]; intros g i extra Hlen; simpl.
  - destruct extra as [|e]; simpl; [reflexivity|].
    destruct (Nat.ltb_spec i (length g)); [lia|reflexivity].
  - destruct (Nat.ltb_spec i (length g)) as [Hi|_]; [|reflexivity].
    pose proof (tailStep_cases g i) as [Hlt _].
    pose proof (tailStep_length g i) as Hl.
    destruct (tailStep g i) as [g' i']. simpl in *.
    apply IH. lia.
Qed.

Lemma tailLoop_length fuel : forall (g : grid) i,
  length (tailLoop fuel g i) = length g.
Proof.
  induction fuel as [|f IH]; intros g i; simpl; [reflexivity|].
  destruct (i <? length g)%nat; [|reflexivity].
  pose proof (tailStep_length g i) as Hl.
  destruct (tailStep g i) as [g' i']. simpl in Hl. rewrite IH. assumption.
Qed.

Lemma tailLoop_keeps fuel : forall (g : grid) i k p,
  g !! k = Some (Some p) -> tailLoop fuel g i !! k = Some (Some p).
Proof.
  induction fuel as [|f IH]; intros g i k p Hk; simpl; [assumption|].
  destruct (i <? length g)%nat; [|assumption].
  pose proof (tailStep_keeps g i k p Hk) as Hs.
  destruct (tailStep g i) as [g' i']. simpl in Hs. apply IH. assumption.
Qed.

(** Every cell changed by the loop was silent, lies at least three cells
    after the index the loop started from, and follows three, seven or
    fifteen cells of the pitch it receives. *)
Lemma tailLoop_changed fuel : forall (g : grid) i k,
  tailLoop fuel g i !! k <> g !! k ->
  g !! k = Some None
  /\ exists p run,
       niceRun run = true /\ (i + run <= k)%nat
       /\ tailLoop fuel g i !! k = Some (Some p)
       /\ forall m, (k - run <= m < k)%nat ->
                    tailLoop fuel g i !! m = Some (Some p).
Proof.
  induction fuel as [|f IH]; intros g i k Hk; simpl in *; [congruence|].
  destruct (i <? length g)%nat; [|congruence].
  pose proof (tailStep_cases g i) as [Hlt Hcases].
  destruct (tailStep g i) as [g' i'] eqn:Est. simpl in Hlt, Hcases.
  destruct (option_eq_dec (tailLoop f g' i' !! k) (g' !! k)) as [Esame|Hdiff].
  - (* changed by this pass *)
    destruct Hcases as [->|(p & run & Hn & -> & Hrun & Hj & ->)];
      [congruence|].
    rewrite Esame in Hk.
    destruct (Nat.eq_dec k (i + run)%nat) as [->|Hne];
      [|rewrite list_lookup_insert_ne in Hk by congruence; congruence].
    split; [assumption|]. exists p, run.
    assert (Hin : (i + run < length g)%nat)
      by (eapply lookup_lt_Some; eassumption).
    split; [assumption|]. split; [lia|]. split.
    + apply tailLoop_keeps. apply list_lookup_insert_eq. assumption.
    + intros m Hm. apply tailLoop_keeps.
      rewrite list_lookup_insert_ne by lia. apply Hrun. lia.
  - (* changed by a later pass *)
    destruct (IH g' i' k Hdiff) as (Hnull & p & run & Hn & Hle & Hres & Hrun).
    split.
    + destruct Hcases as [->|(q & r & _ & -> & _ & Hj & ->)]; [assumption|].
      destruct (Nat.eq_dec k (i + r)%nat) as [->|Hne]; [assumption|].
      rewrite list_lookup_insert_ne in Hnull by congruence. assumption.
    + exists p, run. repeat split; try assumption. lia.
Qed.

(** Two cells changed by the loop are at least three cells apart. *)
Lemma tailLoop_apart fuel : forall (g : grid) i k1 k2,
  (k1 < k2)%nat ->
  tailLoop fuel g i !! k1 <> g !! k1 ->
  tailLoop fuel g i !! k2 <> g !! k2 ->
  (k1 + 3 <= k2)%nat.
Proof.
  induction fuel as [|f IH]; intros g i k1 k2 Hlt H1 H2; simpl in *;
    [congruence|].
  destruct (i <? length g)%nat; [|congruence].
  pose proof (tailStep_cases g i) as [Hi Hcases].
  destruct (tailStep g i) as [g' i'] eqn:Est. simpl in Hi, Hcases.
  assert (Hlater : forall k, tailLoop f g' i' !! k <> g' !! k ->
                             (i' + 3 <= k)%nat).
  { intros k Hk.
    destruct (tailLoop_changed f g' i' k Hk) as (_ & p & run & Hn & Hle & _).
    apply niceRun_cases in Hn. lia. }
  destruct Hcases as [->|(p & run & Hn & -> & Hrun & Hj & ->)];
    [eapply IH; eassumption|].
  assert (Hin : (i + run < length g)%nat)
    by (eapply lookup_lt_Some; eassumption).
  assert (Hsplit : forall k,
            tailLoop f (<[(i + run)%nat := Some p]> g) (i + run)%nat !! k
            <> g !! k ->
            k = (i + run)%nat
            \/ tailLoop f (<[(i + run)%nat := Some p]> g) (i + run)%nat !! k
               <> <[(i + run)%nat := Some p]> g !! k).
  { intros k Hk. destruct (Nat.eq_dec k (i + run)%nat) as [->|Hne]; [auto|].
    right. rewrite list_lookup_insert_ne by congruence. assumption. }
  destruct (Hsplit k1 H1) as [->|H1']; destruct (Hsplit k2 H2) as [->|H2'].
  - lia.
  - apply Hlater in H2'. lia.
  - apply Hlater in H1'. lia.
  - eapply IH; eassumption.
Qed.

End TailExtension.

Section TailPass.
Import Quantizer.

Lemma holdsPitch_true (g : grid) k p :
  holdsPitch g k p = true <-> g !! k = Some (Some p).
Proof.
  unfold holdsPitch. destruct (g !! k) as [[v|]|]; split; intros H;
    try discriminate.
  - apply Z.eqb_eq in H. subst. reflexivity.
  - injection H as ->. apply Z.eqb_refl.
Qed.

(** The loop started at [i] changes no cell before [i + 3]. *)
Lemma tailLoop_before fuel (g : grid) i k :
  (k < i + 3)%nat -> tailLoop fuel g i !! k = g !! k.
Proof.
  intros Hk.
  destruct (option_eq_dec (tailLoop fuel g i !! k) (g !! k)) as [E|Hd];
    [exact E|].
  destruct (tailLoop_changed fuel g i k Hd) as (_ & p & run & Hn & Hle & _).
  apply niceRun_cases in Hn. lia.
Qed.

(** A converted cell follows a cell that held its pitch from the start. *)
Lemma tailLoop_changed_prev fuel : forall (g : grid) i k,
  tailLoop fuel g i !! k <> g !! k ->
  exists p, (1 <= k)%nat /\ g !! (k - 1)%nat = Some (Some p)
            /\ tailLoop fuel g i !! k = Some (Some p).
Proof.
  induction fuel as [|f IH]; intros g i k Hk; simpl in *; [congruence|].
  destruct (i <? length g)%nat; [|congruence].
  pose proof (tailStep_cases g i) as [Hlt Hcases].
  destruct (tailStep g i) as [g' i'] eqn:Est. simpl in Hlt, Hcases.
  destruct (option_eq_dec (tailLoop f g' i' !! k) (g' !! k)) as [Esame|Hdiff].
  - destruct Hcases as [->|(p & run & Hn & -> & Hrun & Hj & ->)];
      [congruence|].
    rewrite Esame in Hk.
    destruct (Nat.eq_dec k (i + run)%nat) as [->|Hne];
      [|rewrite list_lookup_insert_ne in Hk by congruence; congruence].
    apply niceRun_cases in Hn.
    assert (Hin : (i + run < length g)%nat)
      by (eapply lookup_lt_Some; eassumption).
    exists p. split; [lia|]. split.
    + apply Hrun. lia.
    + rewrite Esame. apply list_lookup_insert_eq. exact Hin.
  - destruct (IH g' i' k Hdiff) as (p & Hk1 & Hprev & Hres).
    destruct (tailLoop_changed f g' i' k Hdiff)
      as (_ & p' & run' & Hn' & Hle' & _).
    apply niceRun_cases in Hn'.
    exists p. split; [exact Hk1|]. split; [|exact Hres].
    destruct Hcases as [->|(q & r & _ & -> & _ & Hj & ->)]; [exact Hprev|].
    rewrite list_lookup_insert_ne in Hprev by lia. exact Hprev.
Qed.

(** The cells of pitch [p] that end right before [k] form a maximal
    run. *)
Lemma maximalRun_ending (g : grid) p k :
  (1 <= k)%nat -> g !! (k - 1)%nat = Some (Some p) ->
  g !! k <> Some (Some p) ->
  exists i run, maximalRun g i run p /\ (i + run)%nat = k.
Proof.
  intros Hk Hprev Hend.
  assert (H : forall m d, (k - d)%nat = m -> (1 <= d <= k)%nat ->
              (forall c, (k - d <= c < k)%nat -> g !! c = Some (Some p)) ->
              exists i run, maximalRun g i run p /\ (i + run)%nat = k).
  { induction m as [|m IH]; intros d Hm Hd Hcells.
    - exists 0%nat, d. split; [|lia].
      split; [lia|]. split; [|left; reflexivity].
      split.
      + intros c Hc. apply Hcells. lia.
      + replace (0 + d)%nat with k by lia. exact Hend.
    - destruct (decide (g !! (k - d - 1)%nat = Some (Some p))) as [E|N].
      + apply (IH (S d)); [lia|lia|].
        intros c Hc. destruct (Nat.eq_dec c (k - d - 1)%nat) as [->|Hne];
          [exact E|apply Hcells; lia].
      + exists (k - d)%nat, d. split; [|lia].
        split; [lia|]. split; [|right; exact N].
        split.
        * intros c Hc. apply Hcells. lia.
        * replace (k - d + d)%nat with k by lia. exact Hend. }
  apply (H (k - 1)%nat 1%nat); [reflexivity|lia|].
  intros c Hc. replace c with (k - 1)%nat by lia. exact Hprev.
Qed.

(** The rule of the pass, for the loop started at any index [i] of any
    grid: what happens to the cell after a run that starts at or after
    [i]. *)
Lemma tailLoop_rule fuel : forall (g : grid) i a run p,
  (length g <= i + fuel)%nat ->
  (i <= a)%nat -> (1 <= run)%nat -> pitchRun g a run p ->
  a = i \/ g !! (a - 1)%nat <> Some (Some p) ->
  (tailLoop fuel g i !! (a + run)%nat = Some (Some p)
   <-> g !! (a + run)%nat = Some None
       /\ niceRun (if (i <? a)%nat && holdsPitch (tailLoop fuel g i) (a - 1) p
                   then S run else run) = true).
Proof.
  induction fuel as [|f IH]; intros g i a run p Hfuel Hia Hrun Hpr Hstart.
  { exfalso. destruct Hpr as [Hcells _].
    pose proof (lookup_lt_Some _ _ _ (Hcells a ltac:(lia))). lia. }
  assert (Ha : g !! a = Some (Some p)) by (apply Hpr; lia).
  assert (Hend : g !! (a + run)%nat <> Some (Some p)) by apply Hpr.
  pose proof (lookup_lt_Some _ _ _ Ha) as Hlen.
  cbn [tailLoop].
  destruct (Nat.ltb_spec i (length g)) as [_|Hge]; [|lia].
  destruct (g !! i) as [[p0|]|] eqn:Hi.
  - (* a run starts at the scan position *)
    destruct (scanRun_run g i p0 Hi) as (r0 & _ & Hr0 & Hpr0).
    rewrite (tailStep_run g i r0 p0 Hpr0 Hr0).
    assert (Hsil : silentAt g (i + r0) = true
                   <-> g !! (i + r0)%nat = Some None).
    { unfold silentAt. destruct (g !! (i + r0)%nat) as [[c|]|];
        split; congruence. }
    destruct (Nat.eq_dec a i) as [->|Hne].
    + (* the run itself *)
      rewrite Hi in Ha. injection Ha as ->.
      assert (r0 = run) by (eapply pitchRun_unique; eassumption). subst r0.
      rewrite Nat.ltb_irrefl. cbn [andb].
      destruct (niceRun run && silentAt g (i + run)) eqn:Ec.
      * apply andb_true_iff in Ec as [Hn Hs]. apply Hsil in Hs.
        split; [intros _; split; assumption|intros _].
        apply tailLoop_keeps. apply list_lookup_insert_eq.
        eapply lookup_lt_Some; eassumption.
      * rewrite tailLoop_before by lia. split; [intros H; contradiction|].
        intros [Hs Hn]. apply Hsil in Hs. rewrite Hn, Hs in Ec.
        discriminate.
    + (* a later run *)
      assert (Hprev : g !! (a - 1)%nat <> Some (Some p))
        by (destruct Hstart; [contradiction|assumption]).
      assert (Hja : (i + r0 <= a)%nat).
      { destruct (Nat.le_gt_cases (i + r0) a) as [H|H]; [exact H|].
        exfalso. destruct Hpr0 as [Hc0 _].
        pose proof (Hc0 a ltac:(lia)) as E1.
        pose proof (Hc0 (a - 1)%nat ltac:(lia)) as E2.
        rewrite Ha in E1. injection E1 as ->. contradiction. }
      replace (i <? a)%nat with true by (symmetry; apply Nat.ltb_lt; lia).
      cbn [andb].
      destruct (niceRun r0 && silentAt g (i + r0)) eqn:Ec.
      * apply andb_true_iff in Ec as [Hn Hs]. apply Hsil in Hs.
        set (j := (i + r0)%nat) in *.
        set (g1 := <[j := Some p0]> g).
        assert (Haj : a <> j) by (intros ->; congruence).
        assert (Hl1 : length g1 = length g) by apply length_insert.
        assert (Hjl : (j < length g)%nat)
          by (eapply lookup_lt_Some; eassumption).
        destruct (decide (a = S j /\ p = p0)) as [[Eaj ->]|Hother].
        -- (* the run joins the converted cell *)
           assert (Hpr1 : pitchRun g1 j (S run) p0).
           { split.
             - intros m Hm. destruct (Nat.eq_dec m j) as [->|Hmj].
               + apply list_lookup_insert_eq. exact Hjl.
               + unfold g1. rewrite list_lookup_insert_ne by lia.
                 apply Hpr. lia.
             - unfold g1. rewrite list_lookup_insert_ne by lia.
               replace (j + S run)%nat with (a + run)%nat by lia.
               exact Hend. }
           pose proof (IH g1 j j (S run) p0 ltac:(lia) ltac:(lia) ltac:(lia)
                         Hpr1 (or_introl eq_refl)) as R.
           rewrite Nat.ltb_irrefl in R. cbn [andb] in R.
           replace (j + S run)%nat with (a + run)%nat in R by lia.
           unfold g1 in R at 2.
           rewrite list_lookup_insert_ne in R by lia.
           assert (Hh : holdsPitch (tailLoop f g1 j) (a - 1) p0 = true).
           { apply holdsPitch_true. replace (a - 1)%nat with j by lia.
             apply tailLoop_keeps. apply list_lookup_insert_eq. exact Hjl. }
           rewrite Hh. exact R.
        -- assert (Hpr1 : pitchRun g1 a run p).
           { split.
             - intros m Hm. unfold g1.
               rewrite list_lookup_insert_ne by lia. apply Hpr. lia.
             - unfold g1. rewrite list_lookup_insert_ne by lia. exact Hend. }
           assert (Hprev1 : g1 !! (a - 1)%nat <> Some (Some p)).
           { destruct (Nat.eq_dec (a - 1)%nat j) as [E|Hn1].
             - rewrite E. unfold g1.
               rewrite list_lookup_insert_eq by exact Hjl.
               intros H. injection H as <-. apply Hother. split; [lia|auto].
             - unfold g1. rewrite list_lookup_insert_ne by lia. exact Hprev. }
           pose proof (IH g1 j a run p ltac:(lia) ltac:(lia) Hrun Hpr1
                         (or_intror Hprev1)) as R.
           replace (j <? a)%nat with true in R
             by (symmetry; apply Nat.ltb_lt; lia).
           cbn [andb] in R. unfold g1 in R at 2.
           rewrite list_lookup_insert_ne in R by lia. exact R.
      * pose proof (IH g (i + r0)%nat a run p ltac:(lia) Hja Hrun Hpr
                      (or_intror Hprev)) as R.
        destruct (Nat.eq_dec a (i + r0)%nat) as [Eaj|Naj].
        -- subst a. rewrite Nat.ltb_irrefl in R. cbn [andb] in R.
           assert (Hh : holdsPitch (tailLoop f g (i + r0)) (i + r0 - 1) p
                        = false).
           { destruct (holdsPitch _ _ _) eqn:E; [|reflexivity].
             apply holdsPitch_true in E.
             rewrite tailLoop_before in E by lia. contradiction. }
           rewrite Hh. exact R.
        -- replace (i + r0 <? a)%nat with true in R
             by (symmetry; apply Nat.ltb_lt; lia).
           exact R.
  - (* a silent cell is skipped *)
    assert (Hst : tailStep g i = (g, S i))
      by (unfold tailStep; rewrite Hi; reflexivity).
    rewrite Hst.
    assert (Hne : a <> i) by (intros ->; congruence).
    assert (Hprev : g !! (a - 1)%nat <> Some (Some p))
      by (destruct Hstart; [contradiction|assumption]).
    pose proof (IH g (S i) a run p ltac:(lia) ltac:(lia) Hrun Hpr
                  (or_intror Hprev)) as R.
    replace (i <? a)%nat with true by (symmetry; apply Nat.ltb_lt; lia).
    cbn [andb].
    destruct (Nat.eq_dec a (S i)) as [Eai|Nai].
    + subst a. rewrite Nat.ltb_irrefl in R. cbn [andb] in R.
      assert (Hh : holdsPitch (tailLoop f g (S i)) (S i - 1) p = false).
      { destruct (holdsPitch _ _ _) eqn:E; [|reflexivity].
        apply holdsPitch_true in E.
        rewrite tailLoop_before in E by lia. contradiction. }
      rewrite Hh. exact R.
    + replace (S i <? a)%nat with true in R
        by (symmetry; apply Nat.ltb_lt; lia).
      exact R.
  - exfalso. apply lookup_ge_None in Hi. lia.
Qed.

End TailPass.


(** C2 as stated fails: a run of three followed by two consecutive silent
    cells is extended, in the smoother alone and in the whole quantizer. *)
Lemma tail_extension_two_rests_counterexample :
  pitchRun [Some 60; Some 60; Some 60; None; None] 0 3 60
  /\ [Some 60; Some 60; Some 60; None; None] !! 3%nat = Some (@None Z)
  /\ [Some 60; Some 60; Some 60; None; None] !! 4%nat = Some (@None Z)
  /\ Quantizer.tailExtend [Some 60; Some 60; Some 60; None; None]
     = [Some 60; Some 60; Some 60; Some 60; None]
  /\ Quantizer.quantizeGrid (Quantizer.silentQ (1 # 2)) 1
       [Some 60; Some 60; Some 60; None; None] "C"
     = [Some 60; Some 60; Some 60; Some 60; None].
Proof.
  split.
  - split.
    + intros m Hm. do 3 (destruct m as [|m]; [reflexivity|]). lia.
    + discriminate.
  - repeat split; reflexivity.
Qed.

(** Why the scan can count one cell more than the maximal run: after a
    conversion the loop goes on from the converted cell.  A run of two
    behind a converted cell is counted as three and extended; a run of
    three behind a converted cell is counted as four and left alone.
    Neither grid can come out of gap filling. *)
Lemma tail_extension_resumes_at_converted_cell :
  Quantizer.tailExtend
    [Some 60; Some 60; Some 60; None; Some 60; Some 60; None]
  = [Some 60; Some 60; Some 60; Some 60; Some 60; Some 60; Some 60]
  /\ Quantizer.tailExtend
       [Some 60; Some 60; Some 60; None; Some 60; Some 60; Some 60; None]
     = [Some 60; Some 60; Some 60; Some 60; Some 60; Some 60; Some 60; None].
Proof. split; reflexivity. Qed.

(** C2, amended. Tail extension, over the whole pass.  The grid keeps
    its length and its non-silent cells.  For every maximal run of one
    pitch in the input, the cell after the run is converted to the pitch
    exactly when it is silent and the run, as the scan counts it, has
    length 3, 7 or 15, whatever comes after that cell (also a second
    silent cell).  The scan counts the maximal run itself when the run
    starts the grid or follows a non-silent cell, and on every grid that
    comes out of gap filling, which is what the smoother passes; only a
    run that directly follows a cell the pass has just converted to the
    same pitch is counted with that cell.  The cell after a maximal run of
    4 is never converted.  No other cell changes: every converted cell was
    silent and directly follows a maximal run of the pitch it receives,
    and two converted cells are at least three cells apart, so a run
    receives at most one cell.  One step of the loop, on the run that
    starts where it stands, does the same, and the bound on the loop is
    never reached. *)
Theorem tail_extension_rule (g : grid) :
  let g' := Quantizer.tailExtend g in
  length g' = length g
  /\ (forall k p, g !! k = Some (Some p) -> g' !! k = Some (Some p))
  /\ (forall i run p,
        maximalRun g i run p ->
        (g' !! (i + run)%nat = Some (Some p)
         <-> g !! (i + run)%nat = Some None
             /\ (countedRun g' i run p = 3 \/ countedRun g' i run p = 7
                 \/ countedRun g' i run p = 15)%nat)
        /\ (i = 0%nat \/ g !! (i - 1)%nat <> Some None ->
            countedRun g' i run p = run)
        /\ (run = 4%nat -> g' !! (i + run)%nat = g !! (i + run)%nat))
  /\ (forall i run p,
        maximalRun (Quantizer.gapFill g) i run p ->
        (Quantizer.tailExtend (Quantizer.gapFill g) !! (i + run)%nat
         = Some (Some p)
         <-> Quantizer.gapFill g !! (i + run)%nat = Some None
             /\ (run = 3 \/ run = 7 \/ run = 15)%nat))
  /\ (forall k,
        g' !! k <> g !! k ->
        g !! k = Some None
        /\ exists i run p,
             maximalRun g i run p /\ (i + run)%nat = k
             /\ g' !! k = Some (Some p))
  /\ (forall k1 k2,
        (k1 < k2)%nat -> g' !! k1 <> g !! k1 -> g' !! k2 <> g !! k2 ->
        (k1 + 3 <= k2)%nat)
  /\ (forall i p run,
        pitchRun g i run p -> (1 <= run)%nat ->
        snd (Quantizer.tailStep g i) = (i + run)%nat
        /\ ((run = 3 \/ run = 7 \/ run = 15)%nat ->
            g !! (i + run)%nat = Some None ->
            fst (Quantizer.tailStep g i) = <[(i + run)%nat := Some p]> g)
        /\ (~ ((run = 3 \/ run = 7 \/ run = 15)%nat
               /\ g !! (i + run)%nat = Some None) ->
            fst (Quantizer.tailStep g i) = g)
        /\ (run = 4%nat -> fst (Quantizer.tailStep g i) = g))
  /\ (forall i, g !! i = Some None -> Quantizer.tailStep g i = (g, S i))
  /\ (forall extra,
        Quantizer.tailLoop (length g + extra) g 0 = Quantizer.tailExtend g).
Proof.
  cbv zeta.
  assert (Hrule : forall (h : grid) i run p,
            maximalRun h i run p ->
            (Quantizer.tailExtend h !! (i + run)%nat = Some (Some p)
             <-> h !! (i + run)%nat = Some None
                 /\ Quantizer.niceRun
                      (countedRun (Quantizer.tailExtend h) i run p) = true)).
  { intros h i run p (Hrun & Hpr & Hstart).
    unfold countedRun, Quantizer.tailExtend.
    apply tailLoop_rule; try assumption; lia. }
  assert (Hconv : forall (h : grid) i run p,
            maximalRun h i run p ->
            countedRun (Quantizer.tailExtend h) i run p <> run ->
            (2 <= i)%nat /\ h !! (i - 1)%nat = Some None
            /\ exists p', h !! (i - 2)%nat = Some (Some p')).
  { intros h i run p (Hrun & Hpr & Hstart) Hc. unfold countedRun in Hc.
    destruct (Nat.ltb_spec 0 i) as [Hi|Hi]; [|contradiction].
    cbn [andb] in Hc.
    destruct (holdsPitch _ _ _) eqn:Eh; [|contradiction].
    apply holdsPitch_true in Eh.
    destruct Hstart as [->|Hs]; [lia|].
    assert (Hd : Quantizer.tailExtend h !! (i - 1)%nat <> h !! (i - 1)%nat)
      by congruence.
    unfold Quantizer.tailExtend in Hd.
    destruct (tailLoop_changed (length h) h 0 _ Hd) as (Hnull & _).
    destruct (tailLoop_changed_prev (length h) h 0 _ Hd)
      as (p' & Hk & Hprev & _).
    split; [lia|]. split; [exact Hnull|]. exists p'.
    replace (i - 2)%nat with (i - 1 - 1)%nat by lia. exact Hprev. }
  split; [apply tailLoop_length|].
  split; [intros k p; apply tailLoop_keeps|].
  split.
  { intros i run p Hmax. split; [|split].
    - rewrite (Hrule g i run p Hmax), niceRun_cases. reflexivity.
    - intros Hbefore.
      destruct (Nat.eq_dec (countedRun (Quantizer.tailExtend g) i run p) run)
        as [E|N]; [exact E|].
      destruct (Hconv g i run p Hmax N) as (Hi & Hnull & _).
      destruct Hbefore as [->|Hb]; [lia|contradiction].
    - intros ->.
      destruct (option_eq_dec (Quantizer.tailExtend g !! (i + 4)%nat)
                              (g !! (i + 4)%nat)) as [E|Hd]; [exact E|].
      exfalso. pose proof Hd as Hd'. unfold Quantizer.tailExtend in Hd'.
      destruct (tailLoop_changed_prev (length g) g 0 (i + 4) Hd')
        as (p' & _ & Hprev & Hres).
      fold (Quantizer.tailExtend g) in Hres.
      pose proof Hmax as (_ & [Hcells _] & _).
      rewrite (Hcells (i + 4 - 1)%nat ltac:(lia)) in Hprev.
      injection Hprev as <-.
      apply (Hrule g i 4%nat p Hmax) in Hres.
      destruct Hres as [_ Hn]. apply niceRun_cases in Hn.
      unfold countedRun in Hn.
      destruct ((0 <? i)%nat && holdsPitch _ _ _); lia. }
  split.
  { intros i run p Hmax.
    rewrite (Hrule _ i run p Hmax), niceRun_cases.
    destruct (Nat.eq_dec
                (countedRun (Quantizer.tailExtend (Quantizer.gapFill g))
                            i run p) run) as [E|N];
      [rewrite E; reflexivity|].
    exfalso.
    destruct (Hconv _ i run p Hmax N) as (Hi & Hnull & p' & Hprev).
    destruct Hmax as (Hrun & [Hcells _] & _).
    apply (gapFill_no_gap g (i - 2) p' p).
    - exact Hprev.
    - replace (i - 2 + 1)%nat with (i - 1)%nat by lia. exact Hnull.
    - replace (i - 2 + 2)%nat with i by lia. apply Hcells. lia. }
  split.
  { intros k Hk. pose proof Hk as Hk'. unfold Quantizer.tailExtend in Hk'.
    destruct (tailLoop_changed (length g) g 0 k Hk') as (Hnull & _).
    destruct (tailLoop_changed_prev (length g) g 0 k Hk')
      as (p & Hk1 & Hprev & Hres).
    split; [exact Hnull|].
    destruct (maximalRun_ending g p k Hk1 Hprev) as (i & run & Hmax & E).
    { rewrite Hnull. discriminate. }
    exists i, run, p. split; [exact Hmax|]. split; [exact E|exact Hres]. }
  split; [apply tailLoop_apart|].
  split.
  { intros i p run Hrun Hpos.
    rewrite (tailStep_run g i run p Hrun Hpos). simpl.
    split; [reflexivity|].
    assert (Hs : silentAt g (i + run) = true
                 <-> g !! (i + run)%nat = Some None).
    { unfold silentAt. destruct (g !! (i + run)%nat) as [[c|]|];
        split; congruence. }
    split; [|split].
    - intros Hn Hj. apply niceRun_cases in Hn. apply Hs in Hj.
      rewrite Hn, Hj. reflexivity.
    - intros Hno.
      destruct (Quantizer.niceRun run) eqn:Hn; [|reflexivity].
      destruct (silentAt g (i + run)) eqn:Hj; [|reflexivity].
      exfalso. apply Hno.
      split; [apply (proj1 (niceRun_cases run) Hn)|apply (proj1 Hs eq_refl)].
    - intros ->. reflexivity. }
  split.
  { intros i Hi. unfold Quantizer.tailStep. rewrite Hi. reflexivity. }
  intros extra. apply tailLoop_fuel. lia.
Qed.

Lemma tail_extension_rule_witness :
  Quantizer.tailExtend [Some 60; Some 60; Some 60; None; None] !! 3%nat
  = Some (Some 60)
  /\ Quantizer.tailExtend [Some 60; Some 60; Some 60; Some 60; None] !! 4%nat
     = Some None.
Proof.
  split.
  - destruct (tail_extension_rule [Some 60; Some 60; Some 60; None; None])
      as (_ & _ & Hrule & _).
    destruct (Hrule 0%nat 3%nat 60) as ([_ Hfire] & _).
    + split; [lia|]. split; [|left; reflexivity]. split.
      * intros m Hm. do 3 (destruct m as [|m]; [reflexivity|]). lia.
      * discriminate.
    + apply Hfire. split; [reflexivity|left; reflexivity].
  - destruct (tail_extension_rule [Some 60; Some 60; Some 60; Some 60; None])
      as (_ & _ & Hrule & _).
    destruct (Hrule 0%nat 4%nat 60) as (_ & _ & Hfour).
    + split; [lia|]. split; [|left; reflexivity]. split.
      * intros m Hm. do 4 (destruct m as [|m]; [reflexivity|]). lia.
      * discriminate.
    + exact (Hfour eq_refl).
Defined.

(** ** Encoder *)

Lemma repeat_shift {A} (x : A) d (c : list A) :
  repeat x (S d) ++ c = repeat x d ++ x :: c.
Proof.
  induction d as [|d IH]; [reflexivity|].
  change (repeat x (S (S d)) ++ c) with (x :: (repeat x (S d) ++ c)).
  rewrite IH. reflexivity.
Qed.

Lemma runs_head y (c : grid) : exists n r, runs (y :: c) = (y, S n) :: r.
Proof.
  simpl. destruct (runs c) as [|[z n] r]; [exists 0%nat, []; reflexivity|].
  destruct (cell_eqb y z); eauto.
Qed.

Lemma cell_eqb_refl (x : cell) : cell_eqb x x = true.
Proof. apply cell_eqb_eq. reflexivity. Qed.

Lemma runs_repeat (x : cell) d : runs (repeat x (S d)) = [(x, S d)].
Proof.
  induction d as [|d IH]; [reflexivity|].
  change (repeat x (S (S d))) with (x :: repeat x (S d)).
  cbn [runs]. rewrite IH, cell_eqb_refl. reflexivity.
Qed.

Lemma runs_repeat_app (x y : cell) d (c : grid) :
  cell_eqb y x = false ->
  runs (repeat x (S d) ++ y :: c) = (x, S d) :: runs (y :: c).
Proof.
  intros Hne.
  assert (Hxy : cell_eqb x y = false).
  { destruct (cell_eqb x y) eqn:E; [|reflexivity].
    apply cell_eqb_eq in E. subst. rewrite cell_eqb_refl in Hne.
    discriminate. }
  induction d as [|d IH].
  - destruct (runs_head y c) as (n & r & E).
    change (repeat x 1 ++ y :: c) with (x :: y :: c).
    cbn [runs] in *. rewrite E, Hxy. reflexivity.
  - change (repeat x (S (S d)) ++ y :: c)
      with (x :: (repeat x (S d) ++ y :: c)).
    cbn [runs]. cbn [runs] in IH. rewrite IH, cell_eqb_refl. reflexivity.
Qed.

Lemma runs_expand (l : grid) : expand (runs l) = l.
Proof.
  induction l as [|x tl IH]; [reflexivity|].
  cbn [runs]. destruct (runs tl) as [|[y n] r] eqn:E.
  - simpl in IH. subst tl. reflexivity.
  - destruct (cell_eqb x y) eqn:Exy.
    + apply cell_eqb_eq in Exy. subst y. rewrite <- IH. reflexivity.
    + rewrite <- IH. reflexivity.
Qed.

Lemma runs_positive (l : grid) : Forall (fun r => (1 <= snd r)%nat) (runs l).
Proof.
  induction l as [|x tl IH]; [apply Forall_nil; trivial|].
  cbn [runs]. destruct (runs tl) as [|[y n] r] eqn:E.
  - apply Forall_cons. split; [simpl; lia|apply Forall_nil; trivial].
  - apply Forall_cons in IH as [Hn Hr].
    destruct (cell_eqb x y).
    + apply Forall_cons. split; [simpl; lia|assumption].
    + apply Forall_cons. split; [simpl; lia|].
      apply Forall_cons. split; assumption.
Qed.

Section EncoderProofs.
Import Quantizer.
Variable q : nat.

Lemma pushNote_emitted st es x d :
  emitted q st es ->
  emitted q (pushNote q x (S d) st) (es ++ [Some (x, S d)])
  /\ lastNote (pushNote q x (S d) st) = lastNote st
  /\ duration (pushNote q x (S d) st) = duration st.
Proof.
  intros [Hm Hh]. unfold emitted.
  destruct x as [n|].
  - rewrite pushNote_note. cbn [melRes harRes lastNote duration].
    rewrite !map_app, Hm, Hh. repeat split; reflexivity.
  - unfold pushNote. cbn [Nat.eqb melRes harRes lastNote duration].
    rewrite !map_app, Hm, Hh. repeat split; reflexivity.
Qed.

Lemma encodeFinish_emitted st es :
  emitted q st es ->
  emitted q (encodeFinish q st) (es ++ map Some (runs (pendingCells st))).
Proof.
  intros H. unfold encodeFinish, pendingCells.
  destruct (duration st) as [|d].
  - simpl. rewrite app_nil_r. assumption.
  - cbn [Nat.ltb Nat.leb]. rewrite runs_repeat. simpl map.
    apply pushNote_emitted. assumption.
Qed.

Lemma runLoop_emitted (c : grid) : forall st es,
  emitted q st es ->
  emitted q (encodeFinish q (runLoop q c st))
            (es ++ map Some (runs (pendingCells st ++ c))).
Proof.
  induction c as [|y c IH]; intros st es H.
  - simpl. rewrite app_nil_r. apply encodeFinish_emitted. assumption.
  - cbn [runLoop fold_left]. fold (runLoop q c (runUpdate q y st)).
    unfold runUpdate, pendingCells.
    destruct (duration st) as [|d] eqn:Ed.
    + cbn [Nat.eqb repeat app].
      specialize (IH (mkEnc (melRes st) (harRes st) y 1) es H).
      exact IH.
    + cbn [Nat.eqb].
      destruct (cell_eqb y (lastNote st)) eqn:Ey.
      * apply cell_eqb_eq in Ey. subst y.
        specialize (IH (mkEnc (melRes st) (harRes st) (lastNote st) (S (S d)))
                       es H).
        unfold pendingCells in IH. cbn [lastNote duration] in IH.
        replace (repeat (lastNote st) (S d) ++ lastNote st :: c)
          with (repeat (lastNote st) (S (S d)) ++ c); [exact IH|].
        apply repeat_shift.
      * destruct (pushNote_emitted st es (lastNote st) d H) as (Hp & _ & _).
        specialize (IH (mkEnc (melRes (pushNote q (lastNote st) (S d) st))
                              (harRes (pushNote q (lastNote st) (S d) st))
                              y 1)
                       (es ++ [Some (lastNote st, S d)]) Hp).
        unfold pendingCells in IH. cbn [lastNote duration repeat app] in IH.
        rewrite runs_repeat_app by assumption.
        rewrite <- app_assoc in IH. exact IH.
Qed.

(** Cells whose index is not a bar boundary only update the pending run. *)
Lemma encodeLoop_within (c : grid) : forall j st rest,
  (forall k, (k < length c)%nat ->
             ((0 <? j + k)%nat && ((j + k) mod q =? 0)%nat) = false) ->
  encodeLoop q j (c ++ rest) st
  = encodeLoop q (j + length c) rest (runLoop q c st).
Proof.
  induction c as [|y c IH]; intros j st rest Hin.
  - simpl. rewrite Nat.add_0_r. reflexivity.
  - cbn [app encodeLoop length runLoop fold_left].
    fold (runLoop q c (runUpdate q y st)).
    assert (Hb : barCheck q j st = st).
    { unfold barCheck. specialize (Hin 0%nat ltac:(simpl; lia)).
      rewrite Nat.add_0_r in Hin. rewrite Hin. reflexivity. }
    rewrite Hb, IH.
    + f_equal. lia.
    + intros k Hk. specialize (Hin (S k) ltac:(simpl; lia)).
      replace (S j + k)%nat with (j + S k)%nat by lia. assumption.
Qed.

Lemma barCheck_boundary st es i :
  (0 < i)%nat -> (i mod q = 0)%nat ->
  emitted q (encodeFinish q st) es ->
  emitted q (barCheck q i st) (es ++ [None])
  /\ duration (barCheck q i st) = 0%nat.
Proof.
  intros Hi Hmod [Hm Hh]. unfold barCheck, encodeFinish, emitted in *.
  rewrite (proj2 (Nat.ltb_lt 0 i) Hi), Hmod. cbn [Nat.eqb andb].
  destruct (0 <? duration st)%nat eqn:Ed;
    cbn [melRes harRes duration]; rewrite !map_app, Hm, Hh.
  - repeat split; reflexivity.
  - apply Nat.ltb_ge in Ed. repeat split; try reflexivity. lia.
Qed.

End EncoderProofs.

Lemma barsOf_nil fuel q : barsOf fuel q [] = [].
Proof. destruct fuel; reflexivity. Qed.

Lemma barsOf_cons fuel q x (g : grid) :
  barsOf (S fuel) q (x :: g) = take q (x :: g) :: barsOf fuel q (drop q (x :: g)).
Proof. reflexivity. Qed.

Lemma joinWith_cons {A} (sep : A) l l' ls :
  joinWith sep (l :: l' :: ls) = l ++ sep :: joinWith sep (l' :: ls).
Proof. reflexivity. Qed.

(** The whole loop, started at the first cell of a bar. *)
Lemma encodeLoop_bars q fuel : forall (g : grid) m st es,
  (1 <= q)%nat -> (length g <= fuel)%nat -> g <> [] ->
  (m = 0%nat -> Quantizer.duration st = 0%nat) ->
  emitted q (Quantizer.encodeFinish q st) es ->
  emitted q (Quantizer.encodeFinish q (Quantizer.encodeLoop q (m * q) g st))
    (es ++ (if (0 <? m)%nat then [None] else [])
        ++ joinWith None (map (fun b => map Some (runs b)) (barsOf fuel q g))).
Proof.
  induction fuel as [|fuel IH]; intros g m st es Hq Hlen Hne H0 Hem.
  { destruct g; [contradiction|simpl in Hlen; lia]. }
  destruct g as [|x g']; [contradiction|]. clear Hne.
  destruct q as [|q']; [lia|].
  set (sep := if (0 <? m)%nat then [@None (cell * nat)] else []).
  (* the bar test at the first cell of the bar *)
  assert (Hbar : emitted (S q') (Quantizer.barCheck (S q') (m * S q') st)
                         (es ++ sep)
                 /\ Quantizer.duration
                      (Quantizer.barCheck (S q') (m * S q') st) = 0%nat).
  { destruct m as [|m'].
    - specialize (H0 eq_refl). unfold sep. simpl. rewrite app_nil_r.
      unfold Quantizer.barCheck. simpl.
      unfold Quantizer.encodeFinish in Hem. rewrite H0 in Hem. simpl in Hem.
      split; assumption.
    - unfold sep. cbn [Nat.ltb Nat.leb].
      apply barCheck_boundary; [lia| |assumption].
      apply Nat.Div0.mod_mul. }
  destruct Hbar as [Hem1 Hd1].
  set (st1 := Quantizer.barCheck (S q') (m * S q') st) in *.
  (* the other cells of the bar *)
  cbn [Quantizer.encodeLoop]. fold st1.
  rewrite <- (take_drop q' g') at 1.
  rewrite encodeLoop_within.
  2:{ intros k Hk. rewrite length_take in Hk.
      replace (S (m * S q') + k)%nat with (S k + m * S q')%nat by lia.
      rewrite Nat.Div0.mod_add, Nat.mod_small by lia.
      apply andb_false_r. }
  change (runLoop (S q') (take q' g') (Quantizer.runUpdate (S q') x st1))
    with (runLoop (S q') (x :: take q' g') st1).
  pose proof (runLoop_emitted (S q') (x :: take q' g') st1 (es ++ sep) Hem1)
    as Hem2.
  unfold pendingCells in Hem2. rewrite Hd1 in Hem2.
  cbn [repeat app] in Hem2.
  rewrite barsOf_cons. cbn [take drop].
  destruct (drop q' g') as [|y rest'] eqn:Erest.
  - cbn [Quantizer.encodeLoop]. rewrite barsOf_nil. cbn [map joinWith].
    rewrite app_assoc. exact Hem2.
  - assert (Hlong : (q' < length g')%nat).
    { destruct (Nat.lt_ge_cases q' (length g')) as [?|Hge]; [assumption|].
      rewrite drop_ge in Erest by assumption. discriminate. }
    assert (Hrest : (length (y :: rest') <= fuel)%nat).
    { rewrite <- Erest, length_drop. simpl in Hlen. lia. }
    rewrite length_take, Nat.min_l by lia.
    replace (S (m * S q') + q')%nat with (S m * S q')%nat by lia.
    specialize (IH (y :: rest') (S m)
                   (runLoop (S q') (x :: take q' g') st1)
                   ((es ++ sep) ++ map Some (runs (x :: take q' g')))
                   ltac:(lia) Hrest ltac:(discriminate)
                   ltac:(discriminate) Hem2).
    cbn [Nat.ltb Nat.leb] in IH.
    destruct fuel as [|fuel']; [simpl in Hrest; lia|].
    rewrite barsOf_cons in *. cbn [map].
    rewrite joinWith_cons.
    rewrite <- !app_assoc in IH. exact IH.
Qed.

Lemma encode_emitted q (g : grid) :
  (1 <= q)%nat -> emitted q (Quantizer.encode q g) (barEvents q g).
Proof.
  intros Hq. unfold Quantizer.encode, barEvents, bars.
  destruct g as [|x g'].
  - simpl. split; reflexivity.
  - pose proof (encodeLoop_bars q (length (x :: g')) (x :: g') 0
                  (Quantizer.mkEnc [] [] None 0) []
                  Hq ltac:(lia) ltac:(discriminate)
                  ltac:(reflexivity)) as H.
    simpl Nat.mul in H. apply H. split; reflexivity.
Qed.

(** Bars: they cover the grid, none is empty or longer than [q], and all
    but the last hold exactly [q] cells. *)
Lemma barsOf_cover q fuel : forall (g : grid),
  (1 <= q)%nat -> (length g <= fuel)%nat ->
  concat (barsOf fuel q g) = g
  /\ (forall k b, barsOf fuel q g !! k = Some b ->
        (1 <= length b <= q)%nat
        /\ ((S k < length (barsOf fuel q g))%nat -> length b = q))
  /\ (length g <= length (barsOf fuel q g) * q)%nat
  /\ (length (barsOf fuel q g) * q < length g + q)%nat.
Proof.
  induction fuel as [|fuel IH]; intros g Hq Hlen.
  { destruct g; [|simpl in Hlen; lia]. simpl.
    split; [reflexivity|]. split; [intros k b H; discriminate|]. lia. }
  destruct g as [|x g'].
  { simpl. split; [reflexivity|]. split; [intros k b H; discriminate|]. lia. }
  rewrite barsOf_cons.
  assert (Hd : (length (drop q (x :: g')) <= fuel)%nat).
  { rewrite length_drop. simpl in *. lia. }
  destruct (IH (drop q (x :: g')) Hq Hd) as (Hc & Hb & Hlo & Hhi).
  assert (Ht : length (take q (x :: g')) = Nat.min q (length (x :: g')))
    by apply length_take.
  rewrite length_drop in Hlo, Hhi.
  split; [cbn [concat]; rewrite Hc; apply take_drop|].
  split.
  - intros [|k] b Hk; cbn [lookup list_lookup] in Hk.
    + inversion Hk; subst b. rewrite Ht.
      pose proof (Nat.min_spec q (length (x :: g'))) as Hmin.
      cbn [length] in *. split; [clear -Hmin Hq; lia|].
      intros Hmore.
      destruct (drop q (x :: g')) as [|y r] eqn:Ed.
      * rewrite barsOf_nil in Hmore. simpl in Hmore. lia.
      * assert (Hlong : (q < length (x :: g'))%nat).
        { destruct (Nat.lt_ge_cases q (length (x :: g'))); [assumption|].
          rewrite drop_ge in Ed by assumption. discriminate. }
        cbn [length] in Hlong. clear -Hmin Hlong. lia.
    + destruct (Hb k b Hk) as [H1 H2]. split; [assumption|].
      intros Hmore. apply H2. cbn [length] in Hmore. lia.
  - cbn [length] in *.
    set (n := length (barsOf fuel q (drop q (x :: g')))) in *.
    clearbody n. clear -Hlo Hhi Hq.
    destruct (Nat.le_gt_cases (S (length g')) q) as [Hle|Hgt].
    + replace (S (length g') - q + q)%nat with q in Hhi by lia.
      assert (n = 0%nat) by nia. subst n. lia.
    + replace (S (length g') - q + q)%nat with (S (length g')) in Hhi by lia.
      split; nia.
Qed.

Lemma joinWith_map {A B} (f : A -> B) sep (ls : list (list A)) :
  map f (joinWith sep ls) = joinWith (f sep) (map (map f) ls).
Proof.
  induction ls as [|l ls IH]; [reflexivity|].
  destruct ls as [|l' ls]; [reflexivity|].
  rewrite joinWith_cons. cbn [map]. rewrite joinWith_cons.
  rewrite map_app. cbn [map]. rewrite IH. reflexivity.
Qed.

Lemma joinWith_count {A} (P : A -> bool) sep (ls : list (list A)) :
  P sep = true ->
  Forall (fun l => Forall (fun x => P x = false) l) ls ->
  length (List.filter P (joinWith sep ls)) = (length ls - 1)%nat.
Proof.
  intros Hsep Hall.
  assert (Hnone : forall l, Forall (fun x => P x = false) l ->
                            List.filter P l = []).
  { intros l Hl. induction Hl as [|x l Hx _ IHl]; [reflexivity|].
    simpl. rewrite Hx. assumption. }
  induction ls as [|l ls IH]; [reflexivity|].
  apply Forall_cons in Hall as [Hl Hls].
  destruct ls as [|l' ls].
  - simpl. rewrite (Hnone l Hl). reflexivity.
  - rewrite joinWith_cons, List.filter_app, (Hnone l Hl).
    cbn [app List.filter]. rewrite Hsep. cbn [length].
    rewrite (IH Hls). cbn [length]. lia.
Qed.

Lemma token_not_bar q r :
  isBar (melToken q r) = false /\ isBar (harToken q r) = false.
Proof.
  unfold melToken, harToken. destruct r as [[n|] d]; cbn [fst snd].
  - split; apply noteHead_not_bar, noteHead_append, midiToAbc_head.
  - split; reflexivity.
Qed.

(** C3 as stated fails when the grid length is an exact multiple of
    qValue: eight cells are consumed with qValue 8 and no marker is
    written on either line. *)
Lemma bar_marker_exact_multiple_counterexample :
  length (repeat (Some 60) 8) = (1 * 8)%nat
  /\ Quantizer.melRes (Quantizer.encode 8 (repeat (Some 60) 8))
     = ["C8"%string]
  /\ Quantizer.harRes (Quantizer.encode 8 (repeat (Some 60) 8))
     = ["C,8"%string]
  /\ List.filter isBar
       (Quantizer.melRes (Quantizer.encode 8 (repeat (Some 60) 8))) = [].
Proof. repeat split; reflexivity. Qed.

(** C3, amended. Both lines are the run-length encodings of the
    consecutive bars of qValue cells (the last bar may be shorter), with
    exactly one marker between two neighbouring bars: a marker follows
    every qValue consumed cells that are themselves followed by a further
    cell, and stands nowhere else.  A grid of [n] cells therefore has
    [(n - 1) / qValue] markers; when [n] is an exact multiple of qValue no
    marker follows the last bar, and the last bar, full or partial, is
    flushed without a marker. *)
Theorem bar_markers_between_bars (q : nat) (g : grid) (Hq : (1 <= q)%nat) :
  Quantizer.melRes (Quantizer.encode q g)
  = joinWith "|"%string (map (fun b => map (melToken q) (runs b)) (bars q g))
  /\ Quantizer.harRes (Quantizer.encode q g)
     = joinWith "|"%string
         (map (fun b => map (harToken q) (runs b)) (bars q g))
  /\ concat (bars q g) = g
  /\ (forall k b, bars q g !! k = Some b ->
        (1 <= length b <= q)%nat
        /\ ((S k < length (bars q g))%nat -> length b = q)
        /\ expand (runs b) = b
        /\ Forall (fun r => (1 <= snd r)%nat
                            /\ isBar (melToken q r) = false
                            /\ isBar (harToken q r) = false) (runs b))
  /\ length (List.filter isBar (Quantizer.melRes (Quantizer.encode q g)))
     = ((length g - 1) / q)%nat
  /\ length (List.filter isBar (Quantizer.harRes (Quantizer.encode q g)))
     = ((length g - 1) / q)%nat.
Proof.
  destruct (encode_emitted q g Hq) as [Hm Hh].
  unfold barEvents in Hm, Hh.
  rewrite joinWith_map, map_map in Hm, Hh.
  assert (Em : Quantizer.melRes (Quantizer.encode q g)
               = joinWith "|"%string
                   (map (fun b => map (melToken q) (runs b)) (bars q g))).
  { rewrite Hm. f_equal. apply map_ext. intros b. apply map_map. }
  assert (Eh : Quantizer.harRes (Quantizer.encode q g)
               = joinWith "|"%string
                   (map (fun b => map (harToken q) (runs b)) (bars q g))).
  { rewrite Hh. f_equal. apply map_ext. intros b. apply map_map. }
  destruct (barsOf_cover q (length g) g Hq ltac:(lia))
    as (Hc & Hb & Hlo & Hhi).
  fold (bars q g) in Hc, Hb, Hlo, Hhi.
  assert (Hcount : (length (bars q g) - 1 = (length g - 1) / q)%nat).
  { destruct (length (bars q g)) as [|n] eqn:En.
    - assert (length g = 0%nat) by lia.
      replace (length g - 1)%nat with 0%nat by lia.
      rewrite Nat.Div0.div_0_l. reflexivity.
    - replace (S n - 1)%nat with n by lia.
      apply (Nat.div_unique _ _ _ (length g - 1 - q * n)); nia. }
  split; [exact Em|]. split; [exact Eh|]. split; [exact Hc|].
  split.
  { intros k b Hk. destruct (Hb k b Hk) as [H1 H2].
    split; [assumption|]. split; [assumption|].
    split; [apply runs_expand|].
    pose proof (runs_positive b) as Hp.
    eapply Forall_impl; [exact Hp|]. intros r Hr.
    split; [assumption|apply token_not_bar]. }
  split.
  - rewrite Em, joinWith_count, length_map; [exact Hcount|reflexivity|].
    apply Forall_map. apply Forall_forall. intros b _.
    apply Forall_map. apply Forall_forall. intros r _.
    apply token_not_bar.
  - rewrite Eh, joinWith_count, length_map; [exact Hcount|reflexivity|].
    apply Forall_map. apply Forall_forall. intros b _.
    apply Forall_map. apply Forall_forall. intros r _.
    apply token_not_bar.
Qed.

Lemma bar_markers_between_bars_witness :
  (1 <= 8)%nat
  /\ length (List.filter isBar
       (Quantizer.melRes (Quantizer.encode 8 (repeat (Some 60) 19))))
     = ((length (repeat (Some 60) 19) - 1) / 8)%nat.
Proof.
  split; [lia|].
  apply (bar_markers_between_bars 8 (repeat (Some 60) 19) ltac:(lia)).
Defined.

(** ** Alignment of the two lines *)

Lemma aligned_refl t : aligned t t.
Proof. split; reflexivity. Qed.

Lemma aligned_heads m h :
  noteHead m = true -> noteHead h = true -> aligned m h.
Proof.
  intros Hm Hh. split.
  - rewrite !noteHead_not_bar by assumption. reflexivity.
  - rewrite !noteHead_not_rest by assumption. reflexivity.
Qed.

Lemma aligned_notes a b da db :
  noteHead a = true -> noteHead b = true ->
  aligned (String.append a da) (String.append b db).
Proof.
  intros Ha Hb. apply aligned_heads; apply noteHead_append; assumption.
Qed.

Lemma linesAligned_snoc mel har m h :
  linesAligned mel har -> aligned m h ->
  linesAligned (mel ++ [m]) (har ++ [h]).
Proof.
  intros H Hmh. apply Forall2_app; [assumption|].
  apply Forall2_cons. split; [assumption|]. apply Forall2_nil. trivial.
Qed.

Section OfflineAlignment.
Import Quantizer.
Variable q : nat.

Lemma pushNote_aligned x d st :
  linesAligned (melRes st) (harRes st) ->
  linesAligned (melRes (pushNote q x d st)) (harRes (pushNote q x d st)).
Proof.
  intros H. destruct d as [|d]; [exact H|].
  destruct x as [n|].
  - rewrite pushNote_note. cbn [melRes harRes].
    apply linesAligned_snoc; [assumption|].
    apply aligned_notes; apply midiToAbc_head.
  - unfold pushNote. cbn [Nat.eqb melRes harRes].
    apply linesAligned_snoc; [assumption|apply aligned_refl].
Qed.

Lemma barCheck_aligned i st :
  linesAligned (melRes st) (harRes st) ->
  linesAligned (melRes (barCheck q i st)) (harRes (barCheck q i st)).
Proof.
  intros H. unfold barCheck.
  destruct ((0 <? i)%nat && (i mod q =? 0)%nat); [|exact H].
  destruct (0 <? duration st)%nat; cbn [melRes harRes];
    apply linesAligned_snoc; try apply aligned_refl; try assumption.
  apply pushNote_aligned. assumption.
Qed.

Lemma runUpdate_aligned x st :
  linesAligned (melRes st) (harRes st) ->
  linesAligned (melRes (runUpdate q x st)) (harRes (runUpdate q x st)).
Proof.
  intros H. unfold runUpdate.
  destruct (duration st =? 0)%nat; [exact H|].
  destruct (cell_eqb x (lastNote st)); [exact H|].
  cbn [melRes harRes]. apply pushNote_aligned. assumption.
Qed.

Lemma encodeLoop_aligned (g : grid) : forall i st,
  linesAligned (melRes st) (harRes st) ->
  linesAligned (melRes (encodeLoop q i g st)) (harRes (encodeLoop q i g st)).
Proof.
  induction g as [|x g IH]; intros i st H; [exact H|].
  cbn [encodeLoop]. apply IH, runUpdate_aligned, barCheck_aligned, H.
Qed.

Lemma encode_aligned (g : grid) :
  linesAligned (melRes (encode q g)) (harRes (encode q g)).
Proof.
  unfold encode, encodeFinish.
  set (st := encodeLoop q 0 g (mkEnc [] [] None 0)).
  assert (H : linesAligned (melRes st) (harRes st)).
  { apply encodeLoop_aligned. apply Forall2_nil. trivial. }
  destruct (0 <? duration st)%nat; [apply pushNote_aligned|]; assumption.
Qed.

End OfflineAlignment.

Section LiveAlignment.
Import Realtime.
Variable freqToMidi : Q -> Z.
Variable baseClarity : Q.
Variable q : nat.

Lemma confirm_aligned midi s :
  linesAligned (melodyBuffer s) (harmonyBuffer s) ->
  linesAligned (melodyBuffer (confirm q midi s))
               (harmonyBuffer (confirm q midi s)).
Proof.
  intros H. unfold confirm.
  assert (Hbar : forall mel har, linesAligned mel har ->
            linesAligned
              (mel ++ (if (q <=? S (gridUnitsFilled s))%nat
                       then ["|"%string] else []))
              (har ++ (if (q <=? S (gridUnitsFilled s))%nat
                       then ["|"%string] else []))).
  { intros mel har Hmh. destruct (q <=? S (gridUnitsFilled s))%nat.
    - apply linesAligned_snoc; [assumption|apply aligned_refl].
    - rewrite !app_nil_r. assumption. }
  destruct (isContinuous s && mergeable (last (melodyBuffer s))
                                        (AudioUtils.midiToAbc midi)) eqn:Em.
  - destruct (harmonyBuffer s !! (length (melodyBuffer s) - 1)%nat)
      as [hLast|] eqn:Eh.
    + cbn [melodyBuffer harmonyBuffer]. apply Hbar.
      apply Forall2_insert; [assumption|].
      apply aligned_notes; apply midiToAbc_head.
    + exfalso. apply andb_true_iff in Em as [_ Em].
      destruct (last (melodyBuffer s)) as [item|] eqn:El;
        [|discriminate].
      pose proof (Forall2_length _ _ _ H) as Hlen.
      apply lookup_ge_None in Eh.
      assert (melodyBuffer s <> []).
      { intros E. rewrite E in El. discriminate. }
      destruct (melodyBuffer s); [congruence|]. simpl in *. lia.
  - cbn [melodyBuffer harmonyBuffer]. rewrite !app_assoc. apply Hbar.
    apply linesAligned_snoc; [assumption|].
    apply aligned_heads; apply midiToAbc_head.
Qed.

Lemma updatePitch_aligned s f :
  linesAligned (melodyBuffer s) (harmonyBuffer s) ->
  linesAligned (melodyBuffer (updatePitch freqToMidi baseClarity q s f))
               (harmonyBuffer (updatePitch freqToMidi baseClarity q s f)).
Proof.
  intros H. unfold updatePitch.
  destruct (isSilence baseClarity f); [exact H|].
  destruct (cell_eqb _ _); [|exact H].
  destruct (S (stableFrames s) =? 6)%nat; [|exact H].
  apply confirm_aligned. exact H.
Qed.

Lemma runFrames_aligned (fs : list frame) : forall s,
  linesAligned (melodyBuffer s) (harmonyBuffer s) ->
  linesAligned
    (melodyBuffer (fold_left (updatePitch freqToMidi baseClarity q) fs s))
    (harmonyBuffer (fold_left (updatePitch freqToMidi baseClarity q) fs s)).
Proof.
  induction fs as [|f fs IH]; intros s H; [exact H|].
  cbn [fold_left]. apply IH, updatePitch_aligned, H.
Qed.

End LiveAlignment.

(** C10. For every input of the offline quantizer, for every grid given to
    the encoder, and after every sequence of frames of the live
    stabilizer, the melody and harmony lines have the same length and, at
    every index, the melody token is a bar marker exactly when the harmony
    token is, and a rest exactly when the harmony token is. *)
Theorem lines_stay_aligned :
  (forall silent slices raw key q,
     let r := Quantizer.quantizeMelody silent slices raw key q in
     length (Quantizer.melody r) = length (Quantizer.harmony r)
     /\ forall i m h,
          Quantizer.melody r !! i = Some m ->
          Quantizer.harmony r !! i = Some h ->
          isBar m = isBar h /\ isRest m = isRest h)
  /\ (forall q (g : grid),
        let st := Quantizer.encode q g in
        length (Quantizer.melRes st) = length (Quantizer.harRes st)
        /\ forall i m h,
             Quantizer.melRes st !! i = Some m ->
             Quantizer.harRes st !! i = Some h ->
             isBar m = isBar h /\ isRest m = isRest h)
  /\ (forall freqToMidi baseClarity q frames,
        let s := Realtime.runFrames freqToMidi baseClarity q frames in
        length (Realtime.melodyBuffer s) = length (Realtime.harmonyBuffer s)
        /\ forall i m h,
             Realtime.melodyBuffer s !! i = Some m ->
             Realtime.harmonyBuffer s !! i = Some h ->
             isBar m = isBar h /\ isRest m = isRest h).
Proof.
  assert (Hall : forall mel har, linesAligned mel har ->
            length mel = length har
            /\ forall i m h, mel !! i = Some m -> har !! i = Some h ->
                             isBar m = isBar h /\ isRest m = isRest h).
  { intros mel har H. split; [eapply Forall2_length; exact H|].
    intros i m h Hm Hh. exact (Forall2_lookup_lr _ _ _ _ _ _ H Hm Hh). }
  split; [|split].
  - intros silent slices raw key q. cbv zeta.
    unfold Quantizer.quantizeMelody. cbn [Quantizer.melody Quantizer.harmony].
    apply Hall, encode_aligned.
  - intros q g. cbv zeta. apply Hall, encode_aligned.
  - intros freqToMidi baseClarity q frames. cbv zeta.
    apply Hall. unfold Realtime.runFrames. apply runFrames_aligned.
    apply Forall2_nil. trivial.
Qed.

Lemma lines_stay_aligned_witness :
  let st := Quantizer.encode 4 [Some 60; Some 60; Some 60; Some 60; None] in
  Quantizer.melRes st = ["C8"; "|"; "z2"]%string
  /\ Quantizer.harRes st = ["C,8"; "|"; "z2"]%string
  /\ length (Quantizer.melRes st) = length (Quantizer.harRes st)
  /\ isBar "|" = isBar "|" /\ isRest "|" = isRest "|".
Proof.
  cbv zeta. split; [reflexivity|]. split; [reflexivity|].
  destruct lines_stay_aligned as (_ & Henc & _).
  destruct (Henc 4%nat [Some 60; Some 60; Some 60; Some 60; None])
    as [Hlen Hidx].
  split; [exact Hlen|].
  apply (Hidx 1%nat "|"%string "|"%string); reflexivity.
Defined.

(** ** Silence in the live stabilizer *)

Lemma Qltb_lt x y : Realtime.Qltb x y = true <-> (x < y)%Q.
Proof.
  unfold Realtime.Qltb. rewrite negb_true_iff. split.
  - intros H. apply Qnot_le_lt. intros Hle.
    apply Qle_bool_iff in Hle. congruence.
  - intros H. destruct (Qle_bool y x) eqn:E; [|reflexivity].
    apply Qle_bool_iff in E. exfalso. exact (Qlt_not_le _ _ H E).
Qed.

(** C9 as stated fails at the threshold: a frame in band whose clarity
    equals the threshold is not above it, yet it is taken as a pitched
    frame and, being the sixth stable one, writes a token on both lines. *)
Lemma silence_at_threshold_counterexample :
  let f := Realtime.mkFrame (440 # 1) (31 # 40) in
  let s := Realtime.runFrames freqToMidiSample (31 # 40) 8
             (repeat (Realtime.mkFrame (440 # 1) (9 # 10)) 6) in
  ~ (31 # 40 < Realtime.clarity f)%Q
  /\ Realtime.melodyBuffer s = []
  /\ Realtime.melodyBuffer (Realtime.updatePitch freqToMidiSample (31 # 40) 8 s f)
     = ["A"%string]
  /\ Realtime.harmonyBuffer (Realtime.updatePitch freqToMidiSample (31 # 40) 8 s f)
     = ["A,,"%string]
  /\ Realtime.lastMidi (Realtime.updatePitch freqToMidiSample (31 # 40) 8 s f)
     = Some 69.
Proof.
  cbv zeta. split.
  - cbn [Realtime.clarity]. apply Qle_not_lt. apply Qle_refl.
  - repeat split; vm_compute; reflexivity.
Qed.

(** C9, amended. A frame whose frequency lies outside [85,1200] Hz or
    whose clarity is below the threshold clears the last pitch, the
    stable-frame counter and the continuity flag and leaves both token
    buffers, the grid-unit counter and the recorded pitches unchanged.  A
    frame in band whose clarity equals or exceeds the threshold is a
    pitched frame: the last pitch becomes its range-locked pitch; when
    that differs from the last pitch the count restarts at 0 and the
    continuity flag is cleared; when it repeats the last pitch the frame
    is counted, and as the sixth stable frame of a pitch that is not
    being continued it writes the tokens of the pitch (and the bar marker
    when the bar is full) on both lines. *)
Theorem silence_resets_detection (freqToMidi : Q -> Z) (baseClarity : Q)
    (q : nat) (s : Realtime.session) (f : Realtime.frame) :
  ((Realtime.pitch f < 85 # 1)%Q \/ (1200 # 1 < Realtime.pitch f)%Q
   \/ (Realtime.clarity f < baseClarity)%Q ->
   let s' := Realtime.updatePitch freqToMidi baseClarity q s f in
   Realtime.lastMidi s' = None
   /\ Realtime.stableFrames s' = 0%nat
   /\ Realtime.isContinuous s' = false
   /\ Realtime.melodyBuffer s' = Realtime.melodyBuffer s
   /\ Realtime.harmonyBuffer s' = Realtime.harmonyBuffer s
   /\ Realtime.gridUnitsFilled s' = Realtime.gridUnitsFilled s
   /\ Realtime.liveMidi s' = Realtime.liveMidi s)
  /\ ((85 # 1 <= Realtime.pitch f)%Q -> (Realtime.pitch f <= 1200 # 1)%Q ->
      (baseClarity <= Realtime.clarity f)%Q ->
      let midi := rangeLock (freqToMidi (Realtime.pitch f)) in
      let s' := Realtime.updatePitch freqToMidi baseClarity q s f in
      let bar := if (q <=? S (Realtime.gridUnitsFilled s))%nat
                 then ["|"%string] else [] in
      Realtime.isSilence baseClarity f = false
      /\ Realtime.lastMidi s' = Some midi
      /\ (Realtime.lastMidi s <> Some midi ->
          s' = Realtime.mkSession (Some midi) 0 false
                 (Realtime.gridUnitsFilled s) (Realtime.melodyBuffer s)
                 (Realtime.harmonyBuffer s) (Realtime.liveMidi s)
                 (Some (Realtime.pitch f)))
      /\ (Realtime.lastMidi s = Some midi ->
          Realtime.stableFrames s <> 5%nat ->
          s' = Realtime.mkSession (Some midi) (S (Realtime.stableFrames s))
                 (Realtime.isContinuous s)
                 (Realtime.gridUnitsFilled s) (Realtime.melodyBuffer s)
                 (Realtime.harmonyBuffer s) (Realtime.liveMidi s)
                 (Some (Realtime.pitch f)))
      /\ (Realtime.lastMidi s = Some midi ->
          Realtime.stableFrames s = 5%nat ->
          Realtime.isContinuous s = false ->
          s' = Realtime.mkSession (Some midi) 0 true
                 (if (q <=? S (Realtime.gridUnitsFilled s))%nat
                  then 0%nat else S (Realtime.gridUnitsFilled s))
                 (Realtime.melodyBuffer s
                    ++ [AudioUtils.midiToAbc midi] ++ bar)
                 (Realtime.harmonyBuffer s
                    ++ [AudioUtils.midiToAbc (harmonyOf midi)] ++ bar)
                 (Realtime.liveMidi s ++ [midi])
                 (Some (Realtime.pitch f)))).
Proof.
  split.
  - intros Hsil. cbv zeta. unfold Realtime.updatePitch.
    assert (E : Realtime.isSilence baseClarity f = true).
    { unfold Realtime.isSilence. rewrite !orb_true_iff, !Qltb_lt. tauto. }
    rewrite E. repeat split; reflexivity.
  - intros H1 H2 H3. cbv zeta.
    assert (E : Realtime.isSilence baseClarity f = false).
    { unfold Realtime.isSilence.
      rewrite !orb_false_iff. repeat split.
      + destruct (Realtime.Qltb _ _) eqn:E; [|reflexivity].
        apply Qltb_lt in E. exfalso. exact (Qle_not_lt _ _ H1 E).
      + destruct (Realtime.Qltb _ _) eqn:E; [|reflexivity].
        apply Qltb_lt in E. exfalso. exact (Qle_not_lt _ _ H2 E).
      + destruct (Realtime.Qltb _ _) eqn:E; [|reflexivity].
        apply Qltb_lt in E. exfalso. exact (Qle_not_lt _ _ H3 E). }
    split; [exact E|].
    unfold Realtime.updatePitch. rewrite E.
    set (midi := rangeLock (freqToMidi (Realtime.pitch f))).
    destruct (cell_eqb (Some midi) (Realtime.lastMidi s)) eqn:Ee.
    + apply cell_eqb_eq in Ee. symmetry in Ee.
      split.
      { destruct (S (Realtime.stableFrames s) =? 6)%nat; [|exact Ee].
        unfold Realtime.confirm.
        cbn [Realtime.lastMidi Realtime.melodyBuffer Realtime.harmonyBuffer
             Realtime.isContinuous].
        destruct (Realtime.isContinuous s && _); [|exact Ee].
        destruct (Realtime.harmonyBuffer s !! _); exact Ee. }
      split; [intros Hne; contradiction|].
      split.
      * intros _ H5.
        destruct (Nat.eqb_spec (S (Realtime.stableFrames s)) 6) as [E6|_];
          [lia|]. rewrite Ee. reflexivity.
      * intros _ H5 Hc. rewrite H5. cbn [Nat.eqb].
        unfold Realtime.confirm.
        cbn [Realtime.lastMidi Realtime.melodyBuffer Realtime.harmonyBuffer
             Realtime.isContinuous Realtime.gridUnitsFilled
             Realtime.liveMidi Realtime.currentPitch Realtime.stableFrames].
        rewrite Hc, Ee. reflexivity.
    + assert (Hne : Realtime.lastMidi s <> Some midi).
      { intros Heq. rewrite Heq, cell_eqb_refl in Ee. discriminate. }
      split; [reflexivity|]. split; [reflexivity|].
      split; intros Heq; contradiction.
Qed.

Lemma silence_resets_detection_witness :
  let s := Realtime.runFrames freqToMidiSample (31 # 40) 8
             (repeat (Realtime.mkFrame (440 # 1) (9 # 10)) 7) in
  let s' := Realtime.updatePitch freqToMidiSample (31 # 40) 8 s
              (Realtime.mkFrame (440 # 1) (3 # 4)) in
  let t := Realtime.runFrames freqToMidiSample (31 # 40) 8
             (repeat (Realtime.mkFrame (440 # 1) (9 # 10)) 6) in
  let t' := Realtime.updatePitch freqToMidiSample (31 # 40) 8 t
              (Realtime.mkFrame (440 # 1) (31 # 40)) in
  (Realtime.lastMidi s' = None
   /\ Realtime.melodyBuffer s' = Realtime.melodyBuffer s)
  /\ Realtime.lastMidi t' = Some 69
  /\ Realtime.melodyBuffer t' = ["A"%string]
  /\ Realtime.harmonyBuffer t' = ["A,,"%string].
Proof.
  cbv zeta. split.
  - destruct (silence_resets_detection freqToMidiSample (31 # 40) 8
                (Realtime.runFrames freqToMidiSample (31 # 40) 8
                   (repeat (Realtime.mkFrame (440 # 1) (9 # 10)) 7))
                (Realtime.mkFrame (440 # 1) (3 # 4))) as [H _].
    destruct H as (H1 & _ & _ & H4 & _).
    + right; right. reflexivity.
    + split; assumption.
  - destruct (silence_resets_detection freqToMidiSample (31 # 40) 8
                (Realtime.runFrames freqToMidiSample (31 # 40) 8
                   (repeat (Realtime.mkFrame (440 # 1) (9 # 10)) 6))
                (Realtime.mkFrame (440 # 1) (31 # 40))) as [_ H].
    destruct H as (_ & Hl & _ & _ & Hw).
    + cbn [Realtime.pitch]. discriminate.
    + cbn [Realtime.pitch]. discriminate.
    + cbn [Realtime.clarity]. apply Qle_refl.
    + split; [rewrite Hl; reflexivity|].
      rewrite Hw by reflexivity. split; reflexivity.
Defined.

(** ** Bucketing *)

(** The bound [length rawNotes] on the bucketing loop is never the reason
    why it stops: more fuel gives the same grid, which has one cell per
    started chunk. *)
Lemma bucketLoop_fuel silent slices key fuel : forall i raw (g : grid) extra,
  (length raw <= i + fuel)%nat ->
  Quantizer.bucketLoop silent slices key (fuel + extra) i raw g
  = Quantizer.bucketLoop silent slices key fuel i raw g.
Proof.
  induction fuel as [|f IH]; intros i raw g extra Hlen; simpl.
  - destruct extra as [|e]; simpl; [reflexivity|].
    destruct (Nat.ltb_spec i (length raw)); [lia|reflexivity].
  - destruct (Nat.ltb_spec i (length raw)) as [Hi|_]; [|reflexivity].
    apply IH. unfold Quantizer.slicesPerGrid. lia.
Qed.

(** ** The vocal band and the scale snap *)

(** The snapped pitch stays in the octave of the input. *)
Lemma snapToScale_octave midi key :
  0 <= midi -> AudioUtils.snapToScale midi key / 12 = midi / 12.
Proof.
  intros Hmidi. unfold AudioUtils.snapToScale.
  destruct (AudioUtils.includes _ _); [reflexivity|].
  destruct (snap_fold midi (Z.rem midi 12) (AudioUtils.keyScale key) midi 13)
    as [[E _]|(i & s & Hi & E & _)]; rewrite E; [reflexivity|].
  pose proof (keyScale_bounds key) as Bs. rewrite Forall_lookup in Bs.
  specialize (Bs i s Hi). cbn [fst].
  replace (midi / 12 * 12 + s) with (s + (midi / 12) * 12) by lia.
  rewrite Z.div_add by lia. rewrite Z.div_small by lia. lia.
Qed.

(** Below the top note of the band the snap stays inside the band; the
    top note itself can only move up. *)
Lemma snapToScale_band midi key :
  48 <= midi <= 84 ->
  48 <= AudioUtils.snapToScale midi key <= 95
  /\ (midi <= 83 -> AudioUtils.snapToScale midi key <= 83).
Proof.
  intros Hm.
  pose proof (snapToScale_octave midi key ltac:(lia)) as Ho.
  set (r := AudioUtils.snapToScale midi key) in *.
  pose proof (Z.div_mod r 12 ltac:(lia)) as Dr.
  pose proof (Z.mod_pos_bound r 12 ltac:(lia)) as Br.
  pose proof (Z.div_mod midi 12 ltac:(lia)) as Dm.
  pose proof (Z.mod_pos_bound midi 12 ltac:(lia)) as Bm.
  assert (4 <= midi / 12 <= 7) by lia.
  split; [lia|]. intros Hle. assert (midi / 12 <= 6) by lia. lia.
Qed.

(** Every key of the tally is a pitch of the chunk. *)
Lemma countsAdd_keys n counts k c :
  In (k, c) (Quantizer.countsAdd n counts) ->
  k = n \/ exists c', In (k, c') counts.
Proof.
  induction counts as [|[k0 c0] rest IH]; simpl.
  - intros [E|[]]. inversion E. auto.
  - destruct (Z.eqb_spec k0 n) as [->|Hne].
    + intros [E|Hin].
      * inversion E; subst. auto.
      * right. exists c. auto.
    + destruct (Quantizer.isIndexKey n
                && (negb (Quantizer.isIndexKey k0) || (n <? k0))).
      * intros [E|[E|Hin]].
        -- inversion E. auto.
        -- inversion E; subst. right. exists c. auto.
        -- right. exists c. auto.
      * intros [E|Hin].
        -- inversion E; subst. right. exists c. auto.
        -- destruct (IH Hin) as [->|[c' Hc']]; [auto|].
           right. exists c'. auto.
Qed.

Lemma tally_keys (chunk : list cell) : forall counts nulls k c,
  In (k, c) (fst (fold_left Quantizer.tally chunk (counts, nulls))) ->
  (exists c', In (k, c') counts) \/ In (Some k) chunk.
Proof.
  induction chunk as [|x chunk IH]; intros counts nulls k c Hin.
  - left. exists c. exact Hin.
  - cbn [fold_left Quantizer.tally] in Hin. destruct x as [v|].
    + destruct (IH _ _ _ _ Hin) as [[c' Hc']|Hc]; [|right; right; exact Hc].
      destruct (countsAdd_keys _ _ _ _ Hc') as [->|Hold];
        [right; left; reflexivity|left; exact Hold].
    + destruct (IH _ _ _ _ Hin) as [Hold|Hc];
        [left; exact Hold|right; right; exact Hc].
Qed.

Lemma vote_keys (counts : list (Z * nat)) : forall b m,
  fst (fold_left Quantizer.voteStep counts (b, m)) = b
  \/ exists c, In (fst (fold_left Quantizer.voteStep counts (b, m)), c) counts.
Proof.
  induction counts as [|[k c] rest IH]; intros b m; [left; reflexivity|].
  cbn [fold_left Quantizer.voteStep].
  destruct (Z.of_nat c >? m).
  - destruct (IH k (Z.of_nat c)) as [->|[c' Hc']].
    + right. exists c. left. reflexivity.
    + right. exists c'. right. exact Hc'.
  - destruct (IH b m) as [->|[c' Hc']]; [left; reflexivity|].
    right. exists c'. right. exact Hc'.
Qed.

(** A grid cell is silent or the snap of a pitch of its chunk. *)
Lemma bucketCell_source silent key (chunk : list cell) :
  Quantizer.bucketCell silent key chunk = None
  \/ exists n, In (Some n) chunk
       /\ Quantizer.bucketCell silent key chunk
          = Some (AudioUtils.snapToScale n key).
Proof.
  unfold Quantizer.bucketCell.
  pose proof (tally_keys chunk [] 0%nat) as Hk.
  destruct (fold_left Quantizer.tally chunk ([], 0%nat)) as [counts nulls].
  cbn [fst] in Hk.
  destruct (silent nulls (length chunk)); [left; reflexivity|].
  pose proof (vote_keys counts (-1) (-1)) as Hv.
  destruct (fold_left Quantizer.voteStep counts (-1, -1)) as [best mx].
  cbn [fst] in Hv.
  destruct (Z.eqb_spec best (-1)) as [E|Hne]; [left; reflexivity|].
  right. exists best. split; [|reflexivity].
  destruct Hv as [E|[c Hc]]; [congruence|].
  destruct (Hk best c Hc) as [[c' []]|Hin]. exact Hin.
Qed.

Lemma bucketLoop_within silent slices key lo hi fuel :
  forall i raw (g : grid),
  (forall c, In c raw ->
             cellWithin lo hi
               (match c with
                | Some n => Some (AudioUtils.snapToScale n key)
                | None => None
                end)) ->
  Forall (cellWithin lo hi) g ->
  Forall (cellWithin lo hi)
         (Quantizer.bucketLoop silent slices key fuel i raw g).
Proof.
  induction fuel as [|f IH]; intros i raw g Hraw Hg; simpl; [exact Hg|].
  destruct (i <? length raw)%nat; [|exact Hg].
  apply IH; [exact Hraw|].
  apply Forall_app. split; [exact Hg|].
  apply Forall_cons. split; [|apply Forall_nil; trivial].
  destruct (bucketCell_source silent key
              (take (Quantizer.slicesPerGrid slices) (drop i raw)))
    as [->|(n & Hin & ->)]; [exact I|].
  apply (Hraw (Some n)).
  apply list_elem_of_In. apply list_elem_of_In in Hin.
  eapply subseteq_drop, subseteq_take. exact Hin.
Qed.

Lemma gapFillLoop_within (P : cell -> Prop) n : forall i (g : grid),
  Forall P g -> Forall P (Quantizer.gapFillLoop n i g).
Proof.
  induction n as [|n IH]; intros i g Hg; simpl; [exact Hg|].
  apply IH.
  destruct (gapFillAt_cases i g) as [[-> _]|(a & b & Ha & _ & _ & ->)];
    [exact Hg|].
  apply Forall_insert; [exact Hg|].
  rewrite Forall_lookup in Hg. exact (Hg _ _ Ha).
Qed.

Lemma tailLoop_within (P : cell -> Prop) fuel : forall (g : grid) i,
  Forall P g -> Forall P (Quantizer.tailLoop fuel g i).
Proof.
  induction fuel as [|f IH]; intros g i Hg; simpl; [exact Hg|].
  destruct (i <? length g)%nat; [|exact Hg].
  pose proof (tailStep_cases g i) as [_ Hc].
  destruct (Quantizer.tailStep g i) as [g' i']. cbn [fst snd] in Hc.
  apply IH.
  destruct Hc as [->|(p & run & Hn & _ & Hrun & _ & ->)]; [exact Hg|].
  apply Forall_insert; [exact Hg|].
  rewrite Forall_lookup in Hg. apply (Hg i). apply Hrun.
  apply niceRun_cases in Hn. lia.
Qed.

(** What does hold of the grid: raw pitches of the vocal band give cells in
    [48,95], and in [48,83] when the top note 84 does not occur. *)
Lemma quantizeGrid_band silent slices raw key :
  Forall (cellWithin 48 84) raw ->
  Forall (cellWithin 48 95) (Quantizer.quantizeGrid silent slices raw key)
  /\ (Forall (cellWithin 48 83) raw ->
      Forall (cellWithin 48 83)
             (Quantizer.quantizeGrid silent slices raw key)).
Proof.
  intros Hraw. rewrite Forall_forall in Hraw.
  unfold Quantizer.quantizeGrid, Quantizer.tailExtend, Quantizer.gapFill,
    Quantizer.bucket.
  split.
  - apply tailLoop_within, gapFillLoop_within, bucketLoop_within;
      [|apply Forall_nil; trivial].
    intros [n|] Hin; [|exact I].
    apply list_elem_of_In in Hin. specialize (Hraw _ Hin).
    apply snapToScale_band. exact Hraw.
  - intros Hlow. rewrite Forall_forall in Hlow.
    apply tailLoop_within, gapFillLoop_within, bucketLoop_within;
      [|apply Forall_nil; trivial].
    intros [n|] Hin; [|exact I].
    apply list_elem_of_In in Hin. specialize (Hlow _ Hin).
    cbn [cellWithin] in *.
    destruct (snapToScale_band n key ltac:(lia)) as [B1 B2].
    specialize (B2 ltac:(lia)). lia.
Qed.

(** C1 fails on the code.  Every pitch of [topNoteInput] is inside the
    vocal band and is kept by the range lock; [detectKey] finds the key of
    D for it; the pitch class of the top note 84 is not in that scale, and
    the snap moves it to 95, so the grid holds a pitch outside [48,84] and
    the melody starts with the token of 95. *)
Theorem snap_leaves_vocal_band :
  forallb (fun n => (48 <=? n) && (n <=? 84) && (rangeLock n =? n))
          topNoteInput = true
  /\ AudioUtils.detectKey topNoteInput = "D"%string
  /\ AudioUtils.snapToScale 84 "D" = 95
  /\ Quantizer.quantizeGrid (Quantizer.silentQ (1 # 2)) 4
       (map Some topNoteInput) (AudioUtils.detectKey topNoteInput)
     = [Some 95; Some 62; Some 64; Some 66; Some 67; Some 69; Some 73]
  /\ Quantizer.melody
       (Quantizer.quantizeMelody (Quantizer.silentQ (1 # 2)) 4
          (map Some topNoteInput) (AudioUtils.detectKey topNoteInput) 16)
     = ["b'/2"; "D/2"; "E/2"; "^F/2"; "G/2"; "A/2"; "^c/2"]%string.
Proof. repeat split; vm_compute; reflexivity. Qed.

(** * Further properties of the code *)

(** ** Key names and the scale snap *)


Lemma snapStep_shift midi c (l : list Z) : forall b m,
  fold_left (AudioUtils.snapStep midi c) l (midi / 12 * 12 + b, m)
  = (midi / 12 * 12
     + fst (fold_left (AudioUtils.snapStep 0 c) l (b, m)),
     snd (fold_left (AudioUtils.snapStep 0 c) l (b, m))).
Proof.
  induction l as [|s l IH]; intros b m; [reflexivity|].
  cbn [fold_left AudioUtils.snapStep].
  destruct (AudioUtils.wrapDiff c s <? m).
  - change (0 / 12 * 12 + s) with s.
    replace (midi / 12 * 12 + s) with (midi / 12 * 12 + s) by reflexivity.
    apply IH.
  - apply IH.
Qed.

(** The snap of a pitch is the snap of its class, moved back to the octave
    of the pitch. *)
Lemma snapToScale_class midi key :
  0 <= midi ->
  AudioUtils.snapToScale midi key
  = midi / 12 * 12 + AudioUtils.snapToScale (midi mod 12) key.
Proof.
  intros Hm.
  pose proof (Z.mod_pos_bound midi 12 ltac:(lia)) as Bc.
  pose proof (Z.div_mod midi 12 ltac:(lia)) as Dm.
  unfold AudioUtils.snapToScale.
  rewrite (Z.rem_mod_nonneg midi 12) by lia.
  rewrite (Z.rem_mod_nonneg (midi mod 12) 12) by lia.
  rewrite Z.mod_mod by lia.
  destruct (AudioUtils.includes _ _); [lia|].
  replace (midi, 13) with (midi / 12 * 12 + midi mod 12, 13)
    by (f_equal; lia).
  rewrite snapStep_shift. cbn [fst]. f_equal.
  assert (E : forall (l : list Z) st,
            fold_left (AudioUtils.snapStep (midi mod 12) (midi mod 12)) l st
            = fold_left (AudioUtils.snapStep 0 (midi mod 12)) l st).
  { induction l as [|s l IH]; intros st; [reflexivity|].
    cbn [fold_left]. rewrite IH. f_equal.
    unfold AudioUtils.snapStep. destruct st as [b m].
    rewrite (Z.div_small (midi mod 12) 12) by lia. reflexivity. }
  rewrite E. reflexivity.
Qed.

Lemma keyRoot_of_name r :
  0 <= r <= 11 ->
  AudioUtils.keyRoot (nth (Z.to_nat r) AudioUtils.nameMap "C"%string) = r.
Proof.
  intros Hr.
  assert (H : r = 0 \/ r = 1 \/ r = 2 \/ r = 3 \/ r = 4 \/ r = 5 \/ r = 6
              \/ r = 7 \/ r = 8 \/ r = 9 \/ r = 10 \/ r = 11) by lia.
  repeat (destruct H as [->|H]; [reflexivity|]). subst. reflexivity.
Qed.

Lemma snapToScale_of_root midi key :
  AudioUtils.snapToScale midi key
  = AudioUtils.snapToScale midi
      (nth (Z.to_nat (AudioUtils.keyRoot key)) AudioUtils.nameMap "C"%string).
Proof.
  unfold AudioUtils.snapToScale.
  rewrite (keyScale_mod key), (keyScale_mod (nth _ _ _)).
  rewrite (keyRoot_of_name _ (keyRoot_range key)). reflexivity.
Qed.

Lemma snapTable :
  forallb (fun r => forallb (fun c =>
             snapTableOk (nth r AudioUtils.nameMap "C"%string) (Z.of_nat c))
                            (seq 0 12))
          (seq 0 12) = true.
Proof. vm_compute. reflexivity. Qed.

(** Where the snap of a pitch number lands. *)
Lemma snapToScale_lands (midi : Z) (key : string) :
  0 <= midi ->
  In (AudioUtils.snapToScale midi key mod 12) (AudioUtils.keyScale key)
  /\ AudioUtils.snapToScale (AudioUtils.snapToScale midi key) key
     = AudioUtils.snapToScale midi key
  /\ (AudioUtils.snapToScale midi key = midi
      \/ AudioUtils.snapToScale midi key = midi - 1
      \/ (midi mod 12 = 0 /\ AudioUtils.snapToScale midi key = midi + 11)).
Proof.
  intros Hmidi.
  pose proof (Z.mod_pos_bound midi 12 ltac:(lia)) as Bc.
  pose proof (Z.div_mod midi 12 ltac:(lia)) as Dm.
  pose proof (keyRoot_range key) as Br.
  rewrite (snapToScale_class midi key Hmidi).
  set (c := midi mod 12) in *.
  set (name := nth (Z.to_nat (AudioUtils.keyRoot key)) AudioUtils.nameMap
                   "C"%string).
  assert (T : snapTableOk name c = true).
  { pose proof snapTable as T. rewrite forallb_forall in T.
    specialize (T (Z.to_nat (AudioUtils.keyRoot key))
                  ltac:(apply in_seq; lia)).
    rewrite forallb_forall in T.
    specialize (T (Z.to_nat c) ltac:(apply in_seq; lia)).
    rewrite Z2Nat.id in T by lia. exact T. }
  assert (Ks : AudioUtils.keyScale name = AudioUtils.keyScale key).
  { unfold name. rewrite !keyScale_mod, keyRoot_of_name by lia. reflexivity. }
  unfold snapTableOk in T. rewrite Ks in T. unfold name in T.
  rewrite <- (snapToScale_of_root c key) in T.
  set (t := AudioUtils.snapToScale c key) in *.
  rewrite !andb_true_iff in T. destruct T as ((((Tin & Tid) & Tmove) & T0) & T11).
  apply Z.leb_le in T0, T11. apply Z.eqb_eq in Tid.
  assert (Tid' : AudioUtils.snapToScale t key = t).
  { rewrite (snapToScale_of_root t key). exact Tid. }
  assert (Hdiv : (midi / 12 * 12 + t) / 12 = midi / 12).
  { replace (midi / 12 * 12 + t) with (t + midi / 12 * 12) by lia.
    rewrite Z.div_add, Z.div_small by lia. lia. }
  assert (Hmod : (midi / 12 * 12 + t) mod 12 = t).
  { replace (midi / 12 * 12 + t) with (t + midi / 12 * 12) by lia.
    rewrite Z.mod_add, Z.mod_small by lia. reflexivity. }
  split; [rewrite Hmod; apply includes_In; exact Tin|].
  split.
  - rewrite (snapToScale_class (midi / 12 * 12 + t) key) by lia.
    rewrite Hdiv, Hmod, Tid'. reflexivity.
  - rewrite !orb_true_iff, andb_true_iff, !Z.eqb_eq in Tmove.
    destruct Tmove as [[E|E]|[E1 E2]]; [left|right; left|right; right]; lia.
Qed.

(** X2. For a pitch number (a non-negative integer) and each of the twelve
    keys, the snapped pitch has its class in the major scale of the key,
    snapping it again changes nothing, and it is the pitch itself, the
    pitch one semitone below, or, for a pitch of class 0 only, the pitch
    eleven semitones above: the snap never moves a pitch up by a single
    semitone. *)
Theorem snap_lands_in_scale (midi : Z) (key : string) (root : Z)
    (Hmidi : 0 <= midi) (Hkey : In (key, root) keyTable) :
  let r := AudioUtils.snapToScale midi key in
  In (r mod 12) (majorScale root)
  /\ AudioUtils.snapToScale r key = r
  /\ (r = midi \/ r = midi - 1 \/ (midi mod 12 = 0 /\ r = midi + 11)).
Proof.
  cbv zeta. pose proof (snapToScale_lands midi key Hmidi) as H.
  rewrite keyScale_mod, (keyTable_root key root Hkey) in H. exact H.
Qed.

Lemma snap_lands_in_scale_witness :
  (0 <= 84 /\ In ("D"%string, 2) keyTable)
  /\ In (AudioUtils.snapToScale 84 "D" mod 12) (majorScale 2)
  /\ (AudioUtils.snapToScale 84 "D" = 84
      \/ AudioUtils.snapToScale 84 "D" = 84 - 1
      \/ (84 mod 12 = 0 /\ AudioUtils.snapToScale 84 "D" = 84 + 11)).
Proof.
  assert (Hk : In ("D"%string, 2) keyTable)
    by (right; right; left; reflexivity).
  split; [split; [lia|exact Hk]|].
  destruct (snap_lands_in_scale 84 "D" 2 ltac:(lia) Hk) as (H1 & _ & H3).
  split; assumption.
Defined.

(** ** The grid of the offline quantizer *)

Lemma ceil_step s d :
  (1 <= s)%nat -> (1 <= d)%nat ->
  ((d + s - 1) / s = 1 + (d - s + s - 1) / s)%nat.
Proof.
  intros Hs Hd. destruct (Nat.le_gt_cases d s) as [Hle|Hgt].
  - replace (d - s + s - 1)%nat with (s - 1)%nat by lia.
    rewrite (Nat.div_small (s - 1) s) by lia.
    symmetry. apply (Nat.div_unique _ _ _ (d - 1)); lia.
  - replace (d - s + s - 1)%nat with (d - 1)%nat by lia.
    replace (d + s - 1)%nat with (d - 1 + 1 * s)%nat by lia.
    rewrite Nat.div_add by lia. lia.
Qed.

Lemma bucketLoop_length silent slices key fuel : forall i raw (g : grid),
  (length raw <= i + fuel)%nat ->
  length (Quantizer.bucketLoop silent slices key fuel i raw g)
  = (length g
     + (length raw - i + Quantizer.slicesPerGrid slices - 1)
       / Quantizer.slicesPerGrid slices)%nat.
Proof.
  assert (Hs : (1 <= Quantizer.slicesPerGrid slices)%nat)
    by (unfold Quantizer.slicesPerGrid; lia).
  induction fuel as [|f IH]; intros i raw g Hlen; simpl.
  - replace (length raw - i)%nat with 0%nat by lia.
    rewrite Nat.add_0_l, Nat.div_small by lia. lia.
  - destruct (Nat.ltb_spec i (length raw)) as [Hi|Hi].
    + rewrite IH by lia. rewrite length_app. cbn [length].
      rewrite (ceil_step _ (length raw - i)) by lia.
      replace (length raw - (i + Quantizer.slicesPerGrid slices))%nat
        with (length raw - i - Quantizer.slicesPerGrid slices)%nat by lia.
      lia.
    + replace (length raw - i)%nat with 0%nat by lia.
      rewrite Nat.add_0_l, Nat.div_small by lia. lia.
Qed.

(** X3. The grid has one cell per started chunk of [slicesPerGrid]
    slices, the last chunk possibly shorter: its length is the number of
    raw slices divided by [slicesPerGrid] and rounded up, and neither gap
    filling nor tail extension changes it.  An empty recording gives an
    empty grid. *)
Theorem grid_cell_count silent slices (raw : list cell) key :
  length (Quantizer.bucket silent slices key raw)
  = ((length raw + Quantizer.slicesPerGrid slices - 1)
     / Quantizer.slicesPerGrid slices)%nat
  /\ length (Quantizer.quantizeGrid silent slices raw key)
     = length (Quantizer.bucket silent slices key raw)
  /\ (1 <= Quantizer.slicesPerGrid slices)%nat.
Proof.
  split; [|split].
  - unfold Quantizer.bucket. rewrite bucketLoop_length by lia.
    cbn [length]. rewrite Nat.sub_0_r. reflexivity.
  - unfold Quantizer.quantizeGrid, Quantizer.tailExtend, Quantizer.gapFill.
    rewrite tailLoop_length, gapFillLoop_length. reflexivity.
  - unfold Quantizer.slicesPerGrid. lia.
Qed.

(** A grid without a silent cell between two non-silent cells is left as
    it is by the gap-filling loop. *)
Lemma gapFillLoop_nothing n : forall i (g : grid),
  (forall k a b, g !! k = Some (Some a) -> g !! (k + 1)%nat = Some None ->
                 g !! (k + 2)%nat = Some (Some b) -> False) ->
  (1 <= i)%nat -> Quantizer.gapFillLoop n i g = g.
Proof.
  induction n as [|n IH]; intros i g Hno Hi; [reflexivity|].
  cbn [Quantizer.gapFillLoop].
  destruct (gapFillAt_cases i g) as [[-> _]|(a & b & Ha & Hc & Hb & _)].
  - apply IH; [assumption|lia].
  - exfalso. apply (Hno (i - 1)%nat a b); [assumption| |].
    + replace (i - 1 + 1)%nat with i by lia. assumption.
    + replace (i - 1 + 2)%nat with (i + 1)%nat by lia. assumption.
Qed.

(** X4. Gap filling is idempotent: a second pass over a gap-filled grid
    changes nothing. *)
Theorem gap_fill_idempotent (g : grid) :
  Quantizer.gapFill (Quantizer.gapFill g) = Quantizer.gapFill g.
Proof.
  unfold Quantizer.gapFill at 1.
  apply gapFillLoop_nothing; [|lia].
  intros k a b. apply gapFill_no_gap.
Qed.

(** X5. In the pipeline the smoother runs tail extension on a gap-filled
    grid.  There a cell converted by tail extension is never followed by a
    non-silent cell: the extension only eats the first cell of a rest of
    two cells or more, or the last cell of the grid; and the cell before
    the converted one already held the pitch. *)
Theorem tail_extension_after_gap_fill (g : grid) (k : nat) :
  Quantizer.tailExtend (Quantizer.gapFill g) !! k
  <> Quantizer.gapFill g !! k ->
  Quantizer.gapFill g !! k = Some None
  /\ (Quantizer.gapFill g !! (k + 1)%nat = None
      \/ Quantizer.gapFill g !! (k + 1)%nat = Some None)
  /\ exists p, (1 <= k)%nat
       /\ Quantizer.gapFill g !! (k - 1)%nat = Some (Some p)
       /\ Quantizer.tailExtend (Quantizer.gapFill g) !! k = Some (Some p).
Proof.
  set (g' := Quantizer.gapFill g). intros Hk.
  unfold Quantizer.tailExtend in *.
  destruct (tailLoop_changed (length g') g' 0 k Hk)
    as (Hnull & p & run & Hn & Hle & Hres & Hrun).
  apply niceRun_cases in Hn.
  assert (Hprev : g' !! (k - 1)%nat = Some (Some p)).
  { destruct (option_eq_dec
                (Quantizer.tailLoop (length g') g' 0 !! (k - 1)%nat)
                (g' !! (k - 1)%nat)) as [E|Hd].
    - rewrite <- E. apply Hrun. lia.
    - pose proof (tailLoop_apart (length g') g' 0 (k - 1) k
                    ltac:(lia) Hd Hk). lia. }
  split; [assumption|]. split.
  - destruct (g' !! (k + 1)%nat) as [[b|]|] eqn:Enext; [|auto|auto].
    exfalso. apply (gapFill_no_gap g (k - 1) p b); fold g'.
    + assumption.
    + replace (k - 1 + 1)%nat with k by lia. assumption.
    + replace (k - 1 + 2)%nat with (k + 1)%nat by lia. assumption.
  - exists p. split; [lia|]. split; assumption.
Qed.

Lemma tail_extension_after_gap_fill_witness :
  Quantizer.gapFill [Some 60; Some 60; Some 60; None; None] !! 3%nat
  = Some (@None Z)
  /\ (Quantizer.gapFill [Some 60; Some 60; Some 60; None; None] !! 4%nat = None
      \/ Quantizer.gapFill [Some 60; Some 60; Some 60; None; None] !! 4%nat
         = Some None).
Proof.
  destruct (tail_extension_after_gap_fill
              [Some 60; Some 60; Some 60; None; None] 3) as (H1 & H2 & _).
  - vm_compute. discriminate.
  - split; assumption.
Defined.

(** ** The majority vote of a chunk *)

Lemma getCount_above k counts :
  Forall (fun e => k < fst e) counts -> getCount k counts = 0%nat.
Proof.
  induction counts as [|[k0 c0] rest IH]; intros H; [reflexivity|].
  apply Forall_cons in H as [H0 H]. cbn [fst] in H0. cbn [getCount].
  destruct (Z.eqb_spec k0 k); [lia|auto].
Qed.

Lemma countsAdd_sorted n counts :
  Quantizer.isIndexKey n = true ->
  Forall (fun e => Quantizer.isIndexKey (fst e) = true) counts ->
  sortedKeys counts ->
  sortedKeys (Quantizer.countsAdd n counts)
  /\ Forall (fun e => Quantizer.isIndexKey (fst e) = true)
            (Quantizer.countsAdd n counts)
  /\ (forall lo, lo < n -> Forall (fun e => lo < fst e) counts ->
                 Forall (fun e => lo < fst e) (Quantizer.countsAdd n counts))
  /\ (forall k, getCount k (Quantizer.countsAdd n counts)
                = (getCount k counts + (if (k =? n)%Z then 1 else 0))%nat).
Proof.
  intros Hn. induction counts as [|[k0 c0] rest IH]; intros Hidx Hs.
  - cbn [Quantizer.countsAdd]. split; [split; [apply Forall_nil|]; trivial|].
    split; [apply Forall_cons; split; [exact Hn|apply Forall_nil; trivial]|].
    split.
    + intros lo Hlo _. apply Forall_cons. split; [exact Hlo|].
      apply Forall_nil. trivial.
    + intros k. cbn [getCount]. rewrite (Z.eqb_sym n k).
      destruct (k =? n); reflexivity.
  - apply Forall_cons in Hidx as [Hk0 Hidx]. cbn [fst] in Hk0.
    destruct Hs as [Hlow Hs]. cbn [fst] in Hlow.
    destruct (IH Hidx Hs) as (IHs & IHi & IHl & IHc).
    cbn [Quantizer.countsAdd].
    destruct (Z.eqb_spec k0 n) as [->|Hne].
    + split; [split; assumption|].
      split; [apply Forall_cons; split; assumption|].
      split.
      * intros lo Hlo Hall. apply Forall_cons in Hall as [_ Hall].
        apply Forall_cons. split; [exact Hlo|exact Hall].
      * intros k. cbn [getCount].
        destruct (Z.eqb_spec n k) as [->|Hnk].
        -- rewrite Z.eqb_refl. lia.
        -- destruct (Z.eqb_spec k n); [congruence|lia].
    + rewrite Hn, Hk0. cbn [negb orb andb].
      destruct (Z.ltb_spec n k0) as [Hlt|Hge].
      * split.
        { split; [|split; assumption].
          apply Forall_cons. split; [exact Hlt|].
          eapply Forall_impl; [exact Hlow|]. intros e He. simpl in *. lia. }
        split.
        { apply Forall_cons. split; [exact Hn|].
          apply Forall_cons. split; assumption. }
        split.
        { intros lo Hlo Hall. apply Forall_cons. split; [exact Hlo|exact Hall]. }
        intros k. cbn [getCount].
        destruct (Z.eqb_spec n k) as [->|Hnk].
        -- rewrite Z.eqb_refl.
           destruct (Z.eqb_spec k0 k) as [?|_]; [lia|].
           rewrite (getCount_above k rest); [lia|].
           eapply Forall_impl; [exact Hlow|]. intros e He. simpl in *. lia.
        -- destruct (Z.eqb_spec k n); [congruence|]. lia.
      * split.
        { split; [|exact IHs]. apply IHl; [simpl; lia|exact Hlow]. }
        split; [apply Forall_cons; split; assumption|].
        split.
        { intros lo Hlo Hall. apply Forall_cons in Hall as [H0 Hall].
          apply Forall_cons. split; [exact H0|]. apply IHl; assumption. }
        intros k. cbn [getCount].
        destruct (Z.eqb_spec k0 k) as [<-|_]; [|apply IHc].
        destruct (Z.eqb_spec k0 n); [congruence|lia].
Qed.

Lemma countsAdd_positive n counts :
  Forall (fun e => (1 <= snd e)%nat) counts ->
  Forall (fun e => (1 <= snd e)%nat) (Quantizer.countsAdd n counts).
Proof.
  induction counts as [|[k0 c0] rest IH]; intros H; cbn [Quantizer.countsAdd].
  - apply Forall_cons. split; [simpl; lia|exact H].
  - pose proof H as H'. apply Forall_cons in H' as [H0 Hr].
    destruct (k0 =? n).
    + apply Forall_cons. split; [simpl; lia|exact Hr].
    + destruct (_ && _).
      * apply Forall_cons. split; [simpl; lia|exact H].
      * apply Forall_cons. split; [exact H0|apply IH; exact Hr].
Qed.

(** The tally of a chunk: ascending keys, and for every pitch the number
    of slices voting for it. *)
Lemma tally_counts (chunk : list cell) : forall counts nulls,
  Forall (cellWithin 0 4294967294) chunk ->
  Forall (fun e => Quantizer.isIndexKey (fst e) = true) counts ->
  Forall (fun e => (1 <= snd e)%nat) counts ->
  sortedKeys counts ->
  let st := fold_left Quantizer.tally chunk (counts, nulls) in
  sortedKeys (fst st)
  /\ Forall (fun e => (1 <= snd e)%nat) (fst st)
  /\ (forall k, getCount k (fst st)
                = (getCount k counts
                   + count_occ Z.eq_dec (Analyze.validNotes chunk) k)%nat)
  /\ snd st = (nulls + (length chunk
                        - length (Analyze.validNotes chunk)))%nat.
Proof.
  induction chunk as [|x chunk IH]; intros counts nulls Hin Hidx Hpos Hs.
  - cbn. split; [assumption|]. split; [assumption|].
    split; [intros k; lia|lia].
  - apply Forall_cons in Hin as [Hx Hin].
    cbn [fold_left Quantizer.tally]. destruct x as [v|].
    + assert (Hv : Quantizer.isIndexKey v = true).
      { unfold Quantizer.isIndexKey. cbn [cellWithin] in Hx.
        apply andb_true_iff. split; [apply Z.leb_le|apply Z.ltb_lt]; lia. }
      destruct (countsAdd_sorted v counts Hv Hidx Hs) as (Hs' & Hi' & _ & Hc').
      destruct (IH (Quantizer.countsAdd v counts) nulls Hin Hi'
                   (countsAdd_positive v counts Hpos) Hs')
        as (H1 & H2 & H3 & H4).
      split; [exact H1|]. split; [exact H2|]. split.
      * intros k. rewrite H3, Hc'.
        change (Analyze.validNotes (Some v :: chunk))
          with (v :: Analyze.validNotes chunk).
        cbn [count_occ].
        destruct (Z.eq_dec v k) as [->|Hne].
        -- rewrite Z.eqb_refl. lia.
        -- destruct (Z.eqb_spec k v); [congruence|lia].
      * rewrite H4.
        change (Analyze.validNotes (Some v :: chunk))
          with (v :: Analyze.validNotes chunk).
        assert (length (Analyze.validNotes chunk) <= length chunk)%nat.
        { clear. induction chunk as [|[y|] c IHc]; simpl in *; lia. }
        cbn [length]. lia.
    + destruct (IH counts (S nulls) Hin Hidx Hpos Hs) as (H1 & H2 & H3 & H4).
      split; [exact H1|]. split; [exact H2|]. split; [exact H3|].
      rewrite H4.
      change (Analyze.validNotes (None :: chunk))
        with (Analyze.validNotes chunk).
      assert (length (Analyze.validNotes chunk) <= length chunk)%nat.
      { clear. induction chunk as [|[y|] c IHc]; simpl in *; lia. }
      cbn [length]. lia.
Qed.

(** The loop over the entries keeps the first entry of greatest count. *)
Lemma vote_fold (l : list (Z * nat)) : forall b m,
  let r := fold_left Quantizer.voteStep l (b, m) in
  (r = (b, m) /\ Forall (fun e => Z.of_nat (snd e) <= m) l)
  \/ (exists i k c,
        l !! i = Some (k, c) /\ r = (k, Z.of_nat c) /\ m < Z.of_nat c
        /\ (forall j e, l !! j = Some e -> (snd e <= c)%nat)
        /\ (forall j e, (j < i)%nat -> l !! j = Some e -> (snd e < c)%nat)).
Proof.
  induction l as [|[k0 c0] l IH]; intros b m; cbn [fold_left Quantizer.voteStep].
  - left. split; [reflexivity|apply Forall_nil; trivial].
  - destruct (Z.gtb_spec (Z.of_nat c0) m) as [Hgt|Hle].
    + destruct (IH k0 (Z.of_nat c0))
        as [[E F]|(i & k & c & Hi & E & Hc & Hmax & Hfirst)].
      * right. exists 0%nat, k0, c0. rewrite Forall_lookup in F.
        split; [reflexivity|]. split; [assumption|]. split; [lia|]. split.
        -- intros [|j] e He; simpl in He.
           ++ inversion He; subst; simpl; lia.
           ++ specialize (F j e He). simpl in F. lia.
        -- intros j e Hj. lia.
      * right. exists (S i), k, c.
        split; [assumption|]. split; [assumption|]. split; [lia|]. split.
        -- intros [|j] e He; simpl in He.
           ++ inversion He; subst; simpl; lia.
           ++ eapply Hmax; eassumption.
        -- intros [|j] e Hj He; simpl in He.
           ++ inversion He; subst; simpl; lia.
           ++ eapply Hfirst; [|eassumption]. lia.
    + destruct (IH b m) as [[E F]|(i & k & c & Hi & E & Hc & Hmax & Hfirst)].
      * left. split; [assumption|]. apply Forall_cons. split; assumption.
      * right. exists (S i), k, c.
        split; [assumption|]. split; [assumption|]. split; [lia|]. split.
        -- intros [|j] e He; simpl in He.
           ++ inversion He; subst; simpl; lia.
           ++ eapply Hmax; eassumption.
        -- intros [|j] e Hj He; simpl in He.
           ++ inversion He; subst; simpl; lia.
           ++ eapply Hfirst; [|eassumption]. lia.
Qed.

Lemma sortedKeys_lookup (l : list (Z * nat)) : forall i j e1 e2,
  sortedKeys l -> (i < j)%nat -> l !! i = Some e1 -> l !! j = Some e2 ->
  fst e1 < fst e2.
Proof.
  induction l as [|e l IH]; intros i j e1 e2 Hs Hij H1 H2; [discriminate|].
  destruct Hs as [Hlow Hs]. destruct j as [|j]; [lia|].
  simpl in H2. destruct i as [|i].
  - simpl in H1. inversion H1; subst e1.
    rewrite Forall_lookup in Hlow. exact (Hlow j e2 H2).
  - simpl in H1. apply (IH i j); try assumption. lia.
Qed.

Lemma getCount_lookup (l : list (Z * nat)) : forall i k c,
  sortedKeys l -> l !! i = Some (k, c) -> getCount k l = c.
Proof.
  induction l as [|[k0 c0] l IH]; intros i k c Hs Hi; [discriminate|].
  destruct Hs as [Hlow Hs]. cbn [getCount]. destruct i as [|i].
  - simpl in Hi. inversion Hi; subst. rewrite Z.eqb_refl. reflexivity.
  - simpl in Hi. rewrite Forall_lookup in Hlow.
    specialize (Hlow i _ Hi). cbn [fst] in Hlow.
    destruct (Z.eqb_spec k0 k); [lia|]. apply (IH i); assumption.
Qed.

Lemma getCount_found (l : list (Z * nat)) k :
  getCount k l <> 0%nat -> exists i, l !! i = Some (k, getCount k l).
Proof.
  induction l as [|[k0 c0] l IH]; intros H; [contradiction|].
  cbn [getCount] in *. destruct (Z.eqb_spec k0 k) as [->|Hne].
  - exists 0%nat. reflexivity.
  - destruct (IH H) as [i Hi]. exists (S i). exact Hi.
Qed.

(** X6. The pitch of a grid cell, for a chunk of pitch numbers (integers
    from 0 up, listed by [Object.entries] in ascending order).  The cell is
    silent when the silence test fires or when no slice of the chunk has a
    pitch, whatever the sensitivity; otherwise it is the snap of the pitch
    with the most votes, and among pitches with equally many votes the
    lowest one wins. *)
Theorem majority_vote_lowest_wins silent key (chunk : list cell) :
  Forall (cellWithin 0 4294967294) chunk ->
  let pitches := Analyze.validNotes chunk in
  let votes := count_occ Z.eq_dec pitches in
  let nullCount := (length chunk - length pitches)%nat in
  (silent nullCount (length chunk) = true ->
   Quantizer.bucketCell silent key chunk = None)
  /\ (pitches = [] -> Quantizer.bucketCell silent key chunk = None)
  /\ (silent nullCount (length chunk) = false -> pitches <> [] ->
      exists best,
        In best pitches
        /\ (forall v, (votes v <= votes best)%nat)
        /\ (forall v, votes v = votes best -> best <= v)
        /\ Quantizer.bucketCell silent key chunk
           = Some (AudioUtils.snapToScale best key)).
Proof.
  intros Hin. cbv zeta.
  destruct (tally_counts chunk [] 0%nat Hin
              ltac:(apply Forall_nil; trivial)
              ltac:(apply Forall_nil; trivial) I)
    as (Hs & Hpos & Hcount & Hnull).
  unfold Quantizer.bucketCell.
  destruct (fold_left Quantizer.tally chunk ([], 0%nat)) as [counts nulls].
  cbn [fst snd getCount] in *. rewrite Nat.add_0_l in Hnull. subst nulls.
  assert (Hc : forall k, getCount k counts
                 = count_occ Z.eq_dec (Analyze.validNotes chunk) k)
    by (intros k; rewrite Hcount; lia).
  clear Hcount.
  split; [intros ->; reflexivity|].
  destruct (vote_fold counts (-1) (-1))
    as [[E F]|(i & b & c & Hi & E & _ & Hmax & Hfirst)].
  - (* no entry at all: no pitch in the chunk *)
    assert (Hempty : Analyze.validNotes chunk = []).
    { destruct (Analyze.validNotes chunk) as [|v vs] eqn:Ev; [reflexivity|].
      exfalso.
      assert (Hv : getCount v counts <> 0%nat).
      { rewrite Hc. cbn [count_occ]. destruct (Z.eq_dec v v); [lia|congruence]. }
      destruct (getCount_found counts v Hv) as [j Hj].
      rewrite Forall_lookup in F. specialize (F j _ Hj). cbn [snd] in F. lia. }
    split.
    + intros _. rewrite E. destruct (silent _ _); reflexivity.
    + intros _ Hne. contradiction.
  - assert (Hcb : getCount b counts = c) by (eapply getCount_lookup; eassumption).
    assert (Hc1 : (1 <= c)%nat).
    { rewrite Forall_lookup in Hpos. exact (Hpos i _ Hi). }
    assert (Hb0 : 0 <= b).
    { rewrite Forall_forall in Hin.
      assert (Hinb : In b (Analyze.validNotes chunk)).
      { apply (count_occ_In Z.eq_dec). rewrite <- Hc, Hcb. lia. }
      unfold Analyze.validNotes in Hinb. apply in_flat_map in Hinb.
      destruct Hinb as ([v|] & Hv & Hvb); [|contradiction].
      destruct Hvb as [->|[]].
      apply list_elem_of_In in Hv. specialize (Hin _ Hv).
      cbn [cellWithin] in Hin. lia. }
    split.
    + intros Hnil. exfalso.
      assert (count_occ Z.eq_dec (Analyze.validNotes chunk) b = c)
        by (rewrite <- Hc; exact Hcb).
      rewrite Hnil in H. simpl in H. lia.
    + intros Hsil _. rewrite Hsil, E.
      destruct (Z.eqb_spec b (-1)) as [?|_]; [lia|].
      exists b. split.
      { apply (count_occ_In Z.eq_dec). rewrite <- Hc, Hcb. lia. }
      split.
      { intros v. rewrite <- !Hc, Hcb.
        destruct (Nat.eq_dec (getCount v counts) 0%nat) as [->|Hv]; [lia|].
        destruct (getCount_found counts v Hv) as [j Hj].
        exact (Hmax j _ Hj). }
      split; [|reflexivity].
      intros v Hv. rewrite <- !Hc, Hcb in Hv.
      assert (Hv0 : getCount v counts <> 0%nat) by lia.
      destruct (getCount_found counts v Hv0) as [j Hj]. rewrite Hv in Hj.
      destruct (Nat.lt_trichotomy j i) as [Hlt|[->|Hgt]].
      * pose proof (Hfirst j _ Hlt Hj) as Hlt'. cbn [snd] in Hlt'. lia.
      * rewrite Hi in Hj. inversion Hj. lia.
      * pose proof (sortedKeys_lookup counts i j _ _ Hs Hgt Hi Hj) as Ho.
        cbn [fst] in Ho. lia.
Qed.

Lemma majority_vote_lowest_wins_witness :
  Quantizer.bucketCell (Quantizer.silentQ (1 # 2)) "C"
    [Some 70; Some 50; None; Some 70; Some 50]
  = Some (AudioUtils.snapToScale 50 "C").
Proof.
  destruct (majority_vote_lowest_wins (Quantizer.silentQ (1 # 2)) "C"
              [Some 70; Some 50; None; Some 70; Some 50])
    as (_ & _ & H).
  - repeat (apply Forall_cons; split; [simpl; try lia; exact I|]).
    apply Forall_nil. trivial.
  - destruct H as (best & Hin & Hmax & Hlow & E).
    + reflexivity.
    + discriminate.
    + rewrite E. f_equal. f_equal.
      pose proof (Hmax 50) as M50. pose proof (Hmax 70) as M70.
      simpl in Hin. destruct Hin as [<-|[<-|[<-|[<-|[]]]]].
      * pose proof (Hlow 50 eq_refl). lia.
      * reflexivity.
      * pose proof (Hlow 50 eq_refl). lia.
      * reflexivity.
Defined.

(** ** The shape of the encoded lines *)

Lemma joinWith_nonempty {A} (sep : A) l ls :
  l <> [] -> joinWith sep (l :: ls) <> [].
Proof.
  intros Hl. destruct ls as [|l' ls]; [exact Hl|].
  rewrite joinWith_cons. destruct l; [contradiction|discriminate].
Qed.

Lemma joinWith_shape {A} (P : A -> bool) sep (ls : list (list A)) :
  P sep = true ->
  Forall (fun l => l <> [] /\ Forall (fun x => P x = false) l) ls ->
  (forall x, joinWith sep ls !! 0%nat = Some x -> P x = false)
  /\ (forall x, last (joinWith sep ls) = Some x -> P x = false)
  /\ (forall i x y, joinWith sep ls !! i = Some x ->
                    joinWith sep ls !! S i = Some y ->
                    P x = true -> P y = false).
Proof.
  intros Hsep Hall. induction ls as [|l ls IH].
  - simpl. repeat split; intros; discriminate.
  - apply Forall_cons in Hall as [[Hne Hl] Hls]. specialize (IH Hls).
    rewrite Forall_lookup in Hl.
    destruct ls as [|l' ls].
    + cbn [joinWith]. split; [intros x Hx; exact (Hl _ _ Hx)|]. split.
      * intros x Hx. rewrite last_lookup in Hx. exact (Hl _ _ Hx).
      * intros i x y Hx _ Hp. rewrite (Hl _ _ Hx) in Hp. discriminate.
    + rewrite joinWith_cons.
      set (rest := joinWith sep (l' :: ls)) in *.
      destruct IH as (IH1 & IH2 & IH3).
      assert (Hrest : rest <> []).
      { apply joinWith_nonempty. apply Forall_cons in Hls as [[H _] _].
        exact H. }
      split; [|split].
      * intros x Hx. destruct l as [|a l]; [contradiction|].
        simpl in Hx. inversion Hx; subst. exact (Hl 0%nat x eq_refl).
      * intros x Hx. rewrite last_app, last_cons in Hx.
        destruct (last rest) as [z|] eqn:Ez.
        -- inversion Hx; subst. apply IH2. reflexivity.
        -- apply last_None in Ez. contradiction.
      * intros i x y Hx Hy Hp.
        destruct (Nat.lt_ge_cases i (length l)) as [Hlt|Hge].
        -- rewrite lookup_app_l in Hx by assumption.
           rewrite (Hl _ _ Hx) in Hp. discriminate.
        -- rewrite lookup_app_r in Hx, Hy by lia.
           replace (S i - length l)%nat with (S (i - length l)) in Hy by lia.
           destruct (i - length l)%nat as [|j]; cbn [lookup list_lookup] in Hx, Hy.
           ++ apply IH1. exact Hy.
           ++ exact (IH3 j x y Hx Hy Hp).
Qed.

Lemma bars_tokens_shape q (g : grid) (tok : cell * nat -> string) :
  (1 <= q)%nat ->
  (forall r, isBar (tok r) = false) ->
  Forall (fun l => l <> [] /\ Forall (fun x => isBar x = false) l)
         (map (fun b => map tok (runs b)) (bars q g)).
Proof.
  intros Hq Htok.
  destruct (barsOf_cover q (length g) g Hq ltac:(lia)) as (_ & Hb & _).
  fold (bars q g) in Hb.
  apply Forall_map. apply Forall_lookup. intros k b Hk.
  destruct (Hb k b Hk) as [[H1 _] _]. split.
  - destruct b as [|x b]; [simpl in H1; lia|].
    destruct (runs_head x b) as (n & r & ->). discriminate.
  - apply Forall_map. apply Forall_forall. intros r _. apply Htok.
Qed.

(** X7. With a positive qValue, neither line of the offline encoder
    starts with a bar marker, ends with one, or holds two markers in a
    row; an empty grid gives two empty lines. *)
Theorem encoded_lines_well_barred (q : nat) (g : grid) (Hq : (1 <= q)%nat) :
  let st := Quantizer.encode q g in
  (g = [] -> Quantizer.melRes st = [] /\ Quantizer.harRes st = [])
  /\ (forall line, line = Quantizer.melRes st \/ line = Quantizer.harRes st ->
        (forall t, line !! 0%nat = Some t -> isBar t = false)
        /\ (forall t, last line = Some t -> isBar t = false)
        /\ (forall i x y, line !! i = Some x -> line !! S i = Some y ->
                          isBar x = true -> isBar y = false)).
Proof.
  cbv zeta. split; [intros ->; split; reflexivity|].
  destruct (encode_emitted q g Hq) as [Hm Hh].
  unfold barEvents in Hm, Hh. rewrite joinWith_map, map_map in Hm, Hh.
  intros line [->| ->].
  - rewrite Hm.
    rewrite (map_ext _ (fun b => map (melToken q) (runs b)))
      by (intros b; apply map_map).
    apply (joinWith_shape isBar); [reflexivity|].
    apply bars_tokens_shape; [exact Hq|]. intros r. apply token_not_bar.
  - rewrite Hh.
    rewrite (map_ext _ (fun b => map (harToken q) (runs b)))
      by (intros b; apply map_map).
    apply (joinWith_shape isBar); [reflexivity|].
    apply bars_tokens_shape; [exact Hq|]. intros r. apply token_not_bar.
Qed.

Lemma encoded_lines_well_barred_witness :
  (1 <= 4)%nat
  /\ forall t,
       last (Quantizer.melRes
               (Quantizer.encode 4 (repeat (Some 60) 8))) = Some t ->
       isBar t = false.
Proof.
  split; [lia|].
  destruct (encoded_lines_well_barred 4 (repeat (Some 60) 8) ltac:(lia))
    as [_ H].
  destruct (H (Quantizer.melRes (Quantizer.encode 4 (repeat (Some 60) 8)))
              ltac:(left; reflexivity)) as (_ & Hlast & _).
  exact Hlast.
Defined.

Lemma runs_adjacent (l : grid) : forall i r1 r2,
  runs l !! i = Some r1 -> runs l !! S i = Some r2 -> fst r1 <> fst r2.
Proof.
  induction l as [|x tl IH]; intros i r1 r2 H1 H2; [discriminate|].
  cbn [runs] in H1, H2. destruct (runs tl) as [|[y n] r] eqn:E.
  - destruct i; discriminate.
  - destruct (cell_eqb x y) eqn:Exy.
    + apply cell_eqb_eq in Exy. subst y. destruct i as [|i].
      * simpl in H1, H2. inversion H1; subst r1.
        apply (IH 0%nat (x, n) r2); [reflexivity|exact H2].
      * apply (IH (S i) r1 r2); assumption.
    + destruct i as [|i].
      * simpl in H1, H2. inversion H1; inversion H2; subst. cbn [fst].
        intros ->. rewrite cell_eqb_refl in Exy. discriminate.
      * apply (IH i r1 r2); assumption.
Qed.

Lemma joinWith_neighbours {A} (P : A -> bool) sep (ls : list (list A)) :
  P sep = true ->
  forall i x y,
    joinWith sep ls !! i = Some x -> joinWith sep ls !! S i = Some y ->
    P x = false -> P y = false ->
    exists k l j, ls !! k = Some l /\ l !! j = Some x /\ l !! S j = Some y.
Proof.
  intros Hsep. induction ls as [|l ls IH]; intros i x y Hx Hy Px Py.
  - discriminate.
  - destruct ls as [|l' ls].
    + cbn [joinWith] in Hx, Hy. exists 0%nat, l, i. auto.
    + rewrite joinWith_cons in Hx, Hy.
      destruct (Nat.lt_ge_cases (S i) (length l)) as [Hlt|Hge].
      * rewrite lookup_app_l in Hx, Hy by lia. exists 0%nat, l, i. auto.
      * destruct (Nat.eq_dec (S i) (length l)) as [E|Hne].
        -- rewrite lookup_app_r in Hy by lia.
           replace (S i - length l)%nat with 0%nat in Hy by lia.
           simpl in Hy. inversion Hy; subst. congruence.
        -- rewrite lookup_app_r in Hx, Hy by lia.
           replace (S i - length l)%nat with (S (i - length l)) in Hy by lia.
           destruct (i - length l)%nat as [|j] eqn:Ej;
             cbn [lookup list_lookup] in Hx, Hy.
           ++ inversion Hx; subst. congruence.
           ++ destruct (IH j x y Hx Hy Px Py) as (k & l0 & j0 & Hk & H1 & H2).
              exists (S k), l0, j0. auto.
Qed.

(** X8. With a positive qValue the two lines render one list of events,
    and two neighbouring events that are not separated by a bar marker
    never hold the same cell: inside a bar a held pitch, or a rest, is
    always written as a single token, never split in two. *)
Theorem encoder_never_splits_a_run (q : nat) (g : grid) (Hq : (1 <= q)%nat) :
  Quantizer.melRes (Quantizer.encode q g) = map (renderMel q) (barEvents q g)
  /\ Quantizer.harRes (Quantizer.encode q g)
     = map (renderHar q) (barEvents q g)
  /\ forall i r1 r2,
       barEvents q g !! i = Some (Some r1) ->
       barEvents q g !! S i = Some (Some r2) ->
       fst r1 <> fst r2.
Proof.
  destruct (encode_emitted q g Hq) as [Hm Hh].
  split; [exact Hm|]. split; [exact Hh|].
  intros i r1 r2 H1 H2. unfold barEvents in H1, H2.
  destruct (joinWith_neighbours
              (fun e : event => match e with None => true | Some _ => false end)
              None _ eq_refl i _ _ H1 H2 eq_refl eq_refl)
    as (k & l & j & Hk & Hj1 & Hj2).
  rewrite list_lookup_fmap in Hk.
  destruct (bars q g !! k) as [b|]; [|discriminate].
  cbn in Hk. inversion Hk; subst l.
  rewrite list_lookup_fmap in Hj1, Hj2.
  destruct (runs b !! j) as [e1|] eqn:E1; [|discriminate].
  destruct (runs b !! S j) as [e2|] eqn:E2; [|discriminate].
  cbn in Hj1, Hj2. inversion Hj1; inversion Hj2; subst.
  exact (runs_adjacent b j _ _ E1 E2).
Qed.

Lemma encoder_never_splits_a_run_witness :
  (1 <= 8)%nat
  /\ Quantizer.melRes (Quantizer.encode 8 [Some 60; Some 60; None; Some 62])
     = map (renderMel 8) (barEvents 8 [Some 60; Some 60; None; Some 62]).
Proof.
  split; [lia|].
  apply (encoder_never_splits_a_run 8 [Some 60; Some 60; None; Some 62]
           ltac:(lia)).
Defined.

(** ** The file analysis *)

Lemma Qltb_total x y :
  Realtime.Qltb x y = negb (Realtime.Qltb y x || Qeq_bool y x).
Proof.
  destruct (Realtime.Qltb x y) eqn:E1.
  - apply Qltb_lt in E1. symmetry. apply negb_true_iff, orb_false_iff. split.
    + destruct (Realtime.Qltb y x) eqn:E2; [|reflexivity].
      apply Qltb_lt in E2. exfalso.
      exact (Qlt_irrefl _ (Qlt_trans _ _ _ E1 E2)).
    + destruct (Qeq_bool y x) eqn:E2; [|reflexivity].
      apply Qeq_bool_iff in E2. rewrite E2 in E1.
      exfalso. exact (Qlt_irrefl _ E1).
  - symmetry. apply negb_false_iff, orb_true_iff.
    destruct (Q_dec x y) as [[H|H]|H].
    + apply Qltb_lt in H. congruence.
    + left. apply Qltb_lt. exact H.
    + right. apply Qeq_bool_iff. symmetry. exact H.
Qed.

Lemma rangeLock_fold m :
  48 <= rangeLock m <= 84
  /\ (rangeLock m - m) mod 12 = 0
  /\ (m < 48 -> rangeLock m <= 59)
  /\ (84 < m -> 73 <= rangeLock m)
  /\ (48 <= m <= 84 -> rangeLock m = m).
Proof.
  split; [apply rangeLock_range|].
  unfold rangeLock.
  set (a := raiseTo 48 (Z.to_nat (48 - m)) m).
  destruct (raiseTo_exit 48 (Z.to_nat (48 - m)) m)
    as (R1 & R2 & R3 & k1 & _ & E1); [lia|].
  fold a in R1, R2, R3, E1.
  destruct (lowerTo_exit 84 (Z.to_nat a) a)
    as (L1 & L2 & L3 & k2 & _ & E2); [lia|].
  split; [|split; [|split]].
  - rewrite E2, E1. replace (m + 12 * k1 - 12 * k2 - m) with ((k1 - k2) * 12) by lia.
    apply Z.mod_mul. lia.
  - intros Hm. specialize (R2 Hm). rewrite L3 by lia. lia.
  - intros Hm. rewrite R3 in * by lia. specialize (L2 Hm). lia.
  - intros Hm. rewrite R3 in * by lia. apply L3. lia.
Qed.

(** X9. The range lock, run on every detected pitch by the file analysis
    and by the live loop, answers a pitch of [48,84] in the pitch class of
    its input; a pitch below the band lands in its lowest octave [48,59],
    a pitch above it in its highest octave [73,84], a pitch of the band is
    kept, and locking twice changes nothing. *)
Theorem range_lock_folds_octaves (m : Z) :
  48 <= rangeLock m <= 84
  /\ (rangeLock m - m) mod 12 = 0
  /\ (m < 48 -> rangeLock m <= 59)
  /\ (84 < m -> 73 <= rangeLock m)
  /\ (48 <= m <= 84 -> rangeLock m = m)
  /\ rangeLock (rangeLock m) = rangeLock m.
Proof.
  destruct (rangeLock_fold m) as (H1 & H2 & H3 & H4 & H5).
  repeat (split; [assumption|]).
  apply rangeLock_fold. exact H1.
Qed.

Lemma bucketLoop_forall (P : cell -> Prop) silent slices key fuel :
  forall i raw (g : grid),
  P None ->
  (forall n, In (Some n) raw -> P (Some (AudioUtils.snapToScale n key))) ->
  Forall P g ->
  Forall P (Quantizer.bucketLoop silent slices key fuel i raw g).
Proof.
  induction fuel as [|f IH]; intros i raw g Hnone Hraw Hg; simpl; [exact Hg|].
  destruct (i <? length raw)%nat; [|exact Hg].
  apply IH; [exact Hnone|exact Hraw|].
  apply Forall_app. split; [exact Hg|].
  apply Forall_cons. split; [|apply Forall_nil; trivial].
  destruct (bucketCell_source silent key
              (take (Quantizer.slicesPerGrid slices) (drop i raw)))
    as [->|(n & Hin & ->)]; [exact Hnone|].
  apply Hraw.
  apply list_elem_of_In. apply list_elem_of_In in Hin.
  eapply subseteq_drop, subseteq_take. exact Hin.
Qed.

Lemma quantizeGrid_forall (P : cell -> Prop) silent slices raw key :
  P None ->
  (forall n, In (Some n) raw -> P (Some (AudioUtils.snapToScale n key))) ->
  Forall P (Quantizer.quantizeGrid silent slices raw key).
Proof.
  intros Hnone Hraw.
  unfold Quantizer.quantizeGrid, Quantizer.tailExtend, Quantizer.gapFill,
    Quantizer.bucket.
  apply tailLoop_within, gapFillLoop_within, bucketLoop_forall;
    [exact Hnone|exact Hraw|apply Forall_nil; trivial].
Qed.

Lemma rawSlice_cases freqToMidi baseClarity (f : Realtime.frame) :
  Analyze.rawSlice freqToMidi baseClarity f
  = if Realtime.isSilence baseClarity f
       || Qeq_bool (Realtime.clarity f) baseClarity
    then None
    else Some (rangeLock (freqToMidi (Realtime.pitch f))).
Proof.
  unfold Analyze.rawSlice, Realtime.isSilence.
  destruct (Realtime.Qltb (Realtime.pitch f) (85 # 1)
            || Realtime.Qltb (1200 # 1) (Realtime.pitch f)); [reflexivity|].
  rewrite (Qltb_total baseClarity (Realtime.clarity f)).
  cbn [orb].
  destruct (Realtime.Qltb (Realtime.clarity f) baseClarity
            || Qeq_bool (Realtime.clarity f) baseClarity); reflexivity.
Qed.

Lemma validNotes_In (raw : list cell) n :
  In n (Analyze.validNotes raw) <-> In (Some n) raw.
Proof.
  unfold Analyze.validNotes. rewrite in_flat_map. split.
  - intros ([m|] & Hin & Hm); simpl in Hm; [|contradiction].
    destruct Hm as [->|[]]. exact Hin.
  - intros Hin. exists (Some n). split; [exact Hin|left; reflexivity].
Qed.

(** X10. The raw pitch of a slice of a file: it is silent exactly when the
    live loop would call the same detector result silence or when the
    clarity equals the threshold (the file analysis asks for a clarity
    above the threshold, the live loop for one not below it); otherwise it
    is the range-locked pitch the live loop would use, so it lies in
    [48,84]. *)
Theorem raw_slice_gate freqToMidi baseClarity (f : Realtime.frame) :
  Analyze.rawSlice freqToMidi baseClarity f
  = (if Realtime.isSilence baseClarity f
        || Qeq_bool (Realtime.clarity f) baseClarity
     then None
     else Some (rangeLock (freqToMidi (Realtime.pitch f))))
  /\ cellWithin 48 84 (Analyze.rawSlice freqToMidi baseClarity f).
Proof.
  split; [apply rawSlice_cases|].
  rewrite rawSlice_cases.
  destruct (_ || _); [exact I|]. apply rangeLock_range.
Qed.

Lemma detectKey_name (notes : list Z) :
  exists r, (r < 12)%nat
    /\ AudioUtils.nameMap !! r = Some (AudioUtils.detectKey notes).
Proof.
  destruct (Nat.lt_ge_cases (length notes) 5) as [Hlt|Hge].
  - exists 0%nat. split; [lia|]. unfold AudioUtils.detectKey.
    destruct (Nat.ltb_spec (length notes) 5); [reflexivity|lia].
  - destruct (detectKey_first_max notes Hge) as (r & Hr & Hname & _).
    exists r. split; assumption.
Qed.

Lemma nameMap_keyTable r key :
  AudioUtils.nameMap !! r = Some key -> In (key, Z.of_nat r) keyTable.
Proof.
  intros H.
  do 12 (destruct r as [|r];
         [injection H as <-; unfold keyTable;
          repeat (first [left; reflexivity|right])|]).
  discriminate H.
Qed.

(** X11. Whatever the detector finds in a file, the key chosen by
    [analyzeFile] is one of the twelve key names, and every cell of the
    grid it encodes is silent or holds a pitch of [48,95] whose pitch
    class is in the major scale built on the root of that key. *)
Theorem analyzed_grid_in_key freqToMidi baseClarity silent slices
    (fs : list Realtime.frame) :
  let key := Analyze.autoKey (map (Analyze.rawSlice freqToMidi baseClarity) fs) in
  exists root,
    In (key, root) keyTable
    /\ Forall (fun c => cellWithin 48 95 c /\ cellInScale (majorScale root) c)
              (Analyze.analyzeGrid freqToMidi baseClarity silent slices fs).
Proof.
  cbv zeta.
  set (key := Analyze.autoKey _).
  assert (Hk : exists r, (r < 12)%nat /\ AudioUtils.nameMap !! r = Some key).
  { unfold key, Analyze.autoKey. destruct (5 <? _)%nat.
    - apply detectKey_name.
    - exists 0%nat. split; [lia|reflexivity]. }
  destruct Hk as (r & _ & Hr). apply nameMap_keyTable in Hr.
  exists (Z.of_nat r). split; [exact Hr|].
  unfold Analyze.analyzeGrid. fold key. apply quantizeGrid_forall.
  - split; exact I.
  - intros n Hin. apply in_map_iff in Hin. destruct Hin as (f & Hf & _).
    assert (Hb : 48 <= n <= 84).
    { pose proof (rawSlice_cases freqToMidi baseClarity f) as Hc.
      rewrite Hf in Hc. destruct (_ || _); [discriminate|].
      injection Hc as ->. apply rangeLock_range. }
    split.
    + cbn [cellWithin]. apply snapToScale_band. exact Hb.
    + cbn [cellInScale].
      pose proof (snapToScale_lands n key ltac:(lia)) as (H & _).
      rewrite keyScale_mod, (keyTable_root key _ Hr) in H. exact H.
Qed.

(** ** The live loop *)

Lemma parse_uint (d : Decimal.uint) : forall acc,
  fold_left (fun acc c => (10 * acc + (nat_of_ascii c - 48))%nat)
            (list_ascii_of_string (NilEmpty.string_of_uint d)) acc
  = Nat.of_uint_acc d acc.
Proof.
  induction d; intros acc;
    cbn [NilEmpty.string_of_uint list_ascii_of_string fold_left Nat.of_uint_acc];
    [reflexivity|..];
    rewrite IHd; f_equal; rewrite Nat.tail_mul_spec;
    vm_compute (nat_of_ascii _); lia.
Qed.

Lemma digits_uint (d : Decimal.uint) :
  forallb isDigit (list_ascii_of_string (NilEmpty.string_of_uint d)) = true.
Proof.
  induction d;
    cbn [NilEmpty.string_of_uint list_ascii_of_string forallb];
    [reflexivity|..]; rewrite IHd; reflexivity.
Qed.

Lemma natToString_digits n :
  forallb isDigit (list_ascii_of_string (natToString n)) = true
  /\ parseDigits (list_ascii_of_string (natToString n)) = n.
Proof.
  unfold natToString, parseDigits.
  pose proof (Unsigned.of_to n) as E. unfold Nat.of_uint in E.
  destruct (Nat.to_uint n) as [|d|d|d|d|d|d|d|d|d|d] eqn:Ed;
    [split; [reflexivity|exact E]|..];
    (split; [apply (digits_uint (_ d))|rewrite <- E; apply (parse_uint (_ d))]).
Qed.

Lemma length_list_ascii s :
  length (list_ascii_of_string s) = String.length s.
Proof. induction s as [|c s IH]; simpl; [reflexivity|]. rewrite IH. reflexivity. Qed.

Lemma length_string_append s d :
  String.length (String.append s d) = (String.length s + String.length d)%nat.
Proof. induction s as [|c s IH]; simpl; [reflexivity|]. rewrite IH. reflexivity. Qed.

Lemma trailingDigits_digits s :
  forallb isDigit (list_ascii_of_string s) = true ->
  trailingDigits s = list_ascii_of_string s.
Proof.
  induction s as [|c s IH]; [reflexivity|].
  cbn [list_ascii_of_string forallb trailingDigits].
  intros H. apply andb_true_iff in H as [Hc Hs].
  rewrite (IH Hs), length_list_ascii, Nat.eqb_refl, Hc. reflexivity.
Qed.

Lemma trailingDigits_app s d :
  trailingDigits s = [] ->
  forallb isDigit (list_ascii_of_string d) = true ->
  trailingDigits (String.append s d) = list_ascii_of_string d.
Proof.
  induction s as [|c s IH]; intros Hs Hd.
  - apply trailingDigits_digits. exact Hd.
  - cbn [String.append trailingDigits]. cbn [trailingDigits] in Hs.
    destruct ((length (trailingDigits s) =? String.length s)%nat && isDigit c)
      eqn:Ec; [discriminate|].
    rewrite Hs in Ec. rewrite (IH Hs Hd).
    rewrite length_list_ascii, length_string_append.
    destruct (Nat.eqb_spec (String.length d)
                (String.length s + String.length d)) as [E|_];
      [|reflexivity].
    assert (E0 : String.length s = 0%nat) by lia.
    rewrite E0 in Ec. cbn in Ec. rewrite Ec. reflexivity.
Qed.

Lemma midiToAbc_no_digits_table :
  forallb (fun n => match trailingDigits (AudioUtils.midiToAbc (Z.of_nat n)) with
                    | [] => true
                    | _ :: _ => false
                    end) (seq 0 128) = true.
Proof. vm_compute. reflexivity. Qed.

Lemma midiToAbc_no_digits m : trailingDigits (AudioUtils.midiToAbc m) = [].
Proof.
  rewrite midiToAbc_clamp.
  set (k := Z.max 0 (Z.min 127 m)).
  assert (Hk : 0 <= k <= 127) by (unfold k; lia).
  replace k with (Z.of_nat (Z.to_nat k)) by lia.
  pose proof midiToAbc_no_digits_table as T.
  rewrite forallb_forall in T.
  specialize (T (Z.to_nat k) ltac:(apply in_seq; lia)).
  destruct (trailingDigits _); [reflexivity|discriminate].
Qed.

Lemma parsedDuration_note m : parsedDuration (AudioUtils.midiToAbc m) = 1%nat.
Proof. unfold parsedDuration. rewrite midiToAbc_no_digits. reflexivity. Qed.

Lemma parsedDuration_counted m n :
  parsedDuration (String.append (AudioUtils.midiToAbc m) (natToString (S n)))
  = S n.
Proof.
  unfold parsedDuration.
  rewrite trailingDigits_app;
    [|apply midiToAbc_no_digits|apply natToString_digits].
  pose proof (proj2 (natToString_digits (S n))) as E.
  destruct (list_ascii_of_string (natToString (S n))) eqn:El;
    [discriminate E|exact E].
Qed.

Lemma barCount_app l l' :
  barCount (l ++ l') = (barCount l + barCount l')%nat.
Proof. induction l as [|t l IH]; simpl; [reflexivity|]. rewrite IH. lia. Qed.

Lemma noteCount_app l l' :
  noteCount (l ++ l') = (noteCount l + noteCount l')%nat.
Proof. induction l as [|t l IH]; simpl; [reflexivity|]. rewrite IH. lia. Qed.

Lemma totalDuration_app l l' :
  totalDuration (l ++ l') = (totalDuration l + totalDuration l')%nat.
Proof. induction l as [|t l IH]; simpl; [reflexivity|]. rewrite IH. lia. Qed.

Lemma barsFollowNotes_init l t :
  barsFollowNotes (l ++ [t]) -> barsFollowNotes l.
Proof.
  intros H i Hi.
  pose proof (lookup_lt_Some _ _ _ Hi) as Hlt.
  destruct (H i) as (t' & H1 & H2 & H3).
  { rewrite lookup_app_l by exact Hlt. exact Hi. }
  exists t'. split; [exact H1|]. split; [|exact H3].
  rewrite lookup_app_l in H2 by lia. exact H2.
Qed.

Lemma barsFollowNotes_note l t :
  barsFollowNotes l -> noteHead t = true -> barsFollowNotes (l ++ [t]).
Proof.
  intros H Ht i Hi. apply lookup_snoc_Some in Hi.
  destruct Hi as [[Hlt Hi]|[_ E]].
  - destruct (H i Hi) as (t' & H1 & H2 & H3).
    exists t'. split; [exact H1|]. split; [|exact H3].
    rewrite lookup_app_l by lia. exact H2.
  - subst t. discriminate Ht.
Qed.

Lemma barsFollowNotes_bar l t :
  barsFollowNotes (l ++ [t]) -> noteHead t = true ->
  barsFollowNotes ((l ++ [t]) ++ ["|"%string]).
Proof.
  intros H Ht i Hi. apply lookup_snoc_Some in Hi.
  destruct Hi as [[Hlt Hi]|[E _]].
  - destruct (H i Hi) as (t' & H1 & H2 & H3).
    exists t'. split; [exact H1|]. split; [|exact H3].
    rewrite lookup_app_l by lia. exact H2.
  - exists t. rewrite length_app in E. cbn [length] in E.
    split; [lia|]. split; [|exact Ht].
    rewrite lookup_app_l by (rewrite length_app; cbn [length]; lia).
    replace (i - 1)%nat with (length l + 0)%nat by lia.
    rewrite lookup_app_r by lia.
    replace (length l + 0 - length l)%nat with 0%nat by lia. reflexivity.
Qed.

Section LiveInvariant.
Import Realtime.
Variable freqToMidi : Q -> Z.
Variable baseClarity : Q.
Variable q : nat.

(** A note token at the end of a line, then the bar marker if the bar is
    full. *)
Lemma lineInv_close units n l t d :
  (units < Nat.max 1 q)%nat ->
  Forall noteOrBar l -> barsFollowNotes l ->
  noteHead t = true -> parsedDuration t = d ->
  noteCount l = n ->
  ((1 <= q)%nat -> (totalDuration l + d = q * barCount l + S units)%nat) ->
  lineInv q (if (q <=? S units)%nat then 0%nat else S units) (S n)
    ((l ++ [t])
       ++ (if (q <=? S units)%nat then ["|"%string] else [])).
Proof.
  intros Hu Hf Hb Ht Hd Hn Hs.
  pose proof (noteHead_not_bar t Ht) as Hnb.
  pose proof (barsFollowNotes_note l t Hb Ht) as Hb1.
  assert (Hf1 : Forall noteOrBar (l ++ [t])).
  { apply Forall_app. split; [exact Hf|].
    apply Forall_cons. split; [right; exact Ht|apply Forall_nil; trivial]. }
  assert (Hn1 : noteCount (l ++ [t]) = S n).
  { rewrite noteCount_app. cbn [noteCount]. rewrite Hnb. lia. }
  assert (Hd1 : totalDuration (l ++ [t]) = (totalDuration l + d)%nat).
  { rewrite totalDuration_app. cbn [totalDuration]. rewrite Hnb. lia. }
  assert (Hc1 : barCount (l ++ [t]) = barCount l).
  { rewrite barCount_app. cbn [barCount]. rewrite Hnb. lia. }
  destruct (Nat.leb_spec q (S units)) as [Hle|Hgt].
  - split; [|split; [|split]].
    + apply Forall_app. split; [exact Hf1|].
      apply Forall_cons. split; [left; reflexivity|apply Forall_nil; trivial].
    + apply barsFollowNotes_bar; assumption.
    + rewrite noteCount_app, Hn1. cbn. lia.
    + intros Hq. rewrite totalDuration_app, barCount_app, Hd1, Hc1.
      cbn [totalDuration barCount]. change (isBar "|") with true.
      cbv beta iota. specialize (Hs Hq).
      assert (Eq : q = S units) by lia.
      rewrite Nat.mul_add_distr_l. lia.
  - rewrite app_nil_r. split; [|split; [|split]]; try assumption.
    intros Hq. rewrite Hd1, Hc1. exact (Hs Hq).
Qed.

Lemma lineInv_push units n l t :
  (units < Nat.max 1 q)%nat ->
  lineInv q units n l ->
  noteHead t = true -> parsedDuration t = 1%nat ->
  lineInv q (if (q <=? S units)%nat then 0%nat else S units) (S n)
    ((l ++ [t])
       ++ (if (q <=? S units)%nat then ["|"%string] else [])).
Proof.
  intros Hu (Hf & Hb & Hn & Hs) Ht Hd.
  apply (lineInv_close units n l t 1); try assumption.
  intros Hq. specialize (Hs Hq). lia.
Qed.

Lemma lineInv_merge units n l item m :
  (units < Nat.max 1 q)%nat ->
  lineInv q units n (l ++ [item]) ->
  isBar item = false ->
  lineInv q (if (q <=? S units)%nat then 0%nat else S units) n
    ((l ++ [String.append (AudioUtils.midiToAbc m)
                          (natToString (S (parsedDuration item)))])
       ++ (if (q <=? S units)%nat then ["|"%string] else [])).
Proof.
  intros Hu (Hf & Hb & Hn & Hs) Hi.
  rewrite noteCount_app in Hn. cbn [noteCount] in Hn. rewrite Hi in Hn.
  destruct n as [|n]; [lia|].
  apply (lineInv_close units n l _ (S (parsedDuration item))).
  - exact Hu.
  - apply Forall_app in Hf. apply Hf.
  - apply (barsFollowNotes_init l item). exact Hb.
  - apply noteHead_append, midiToAbc_head.
  - apply parsedDuration_counted.
  - lia.
  - intros Hq. specialize (Hs Hq).
    rewrite totalDuration_app, barCount_app in Hs.
    cbn [totalDuration barCount] in Hs. rewrite Hi in Hs. lia.
Qed.

(** The two ways [confirm] ends when the lines are aligned: a push, or a
    merge into the last token of both lines. *)
Lemma confirm_cases midi s :
  linesAligned (melodyBuffer s) (harmonyBuffer s) ->
  let units := if (q <=? S (gridUnitsFilled s))%nat then 0%nat
               else S (gridUnitsFilled s) in
  let bar := if (q <=? S (gridUnitsFilled s))%nat then ["|"%string] else [] in
  ((isContinuous s = false
    \/ mergeable (last (melodyBuffer s)) (AudioUtils.midiToAbc midi) = false)
   /\ confirm q midi s
      = mkSession (lastMidi s) 0 true units
          ((melodyBuffer s ++ [AudioUtils.midiToAbc midi]) ++ bar)
          ((harmonyBuffer s ++ [AudioUtils.midiToAbc (harmonyOf midi)]) ++ bar)
          (liveMidi s ++ [midi]) (currentPitch s))
  \/ (exists mel0 har0 item hLast,
        melodyBuffer s = mel0 ++ [item]
        /\ harmonyBuffer s = har0 ++ [hLast]
        /\ isContinuous s = true
        /\ isBar item = false /\ isBar hLast = false
        /\ startsWith item (AudioUtils.midiToAbc midi) = true
        /\ confirm q midi s
           = mkSession (lastMidi s) 0 true units
               ((mel0 ++ [String.append (AudioUtils.midiToAbc midi)
                            (natToString (S (parsedDuration item)))]) ++ bar)
               ((har0 ++ [String.append
                            (AudioUtils.midiToAbc (harmonyOf midi))
                            (natToString (S (parsedDuration hLast)))]) ++ bar)
               (liveMidi s) (currentPitch s)).
Proof.
  intros Hal. cbv zeta. unfold confirm. cbv zeta.
  destruct (isContinuous s && mergeable (last (melodyBuffer s))
                                        (AudioUtils.midiToAbc midi)) eqn:Em.
  - right. apply andb_true_iff in Em as [Hc Hm].
    destruct (last (melodyBuffer s)) as [item|] eqn:El; [|discriminate Hm].
    apply last_Some in El as [mel0 Emel].
    unfold linesAligned in Hal. rewrite Emel in Hal.
    apply Forall2_app_inv_l in Hal as (har0 & k & H0 & H1 & Ehar).
    inversion H1 as [|? hLast ? k' Hah Hk']; subst. inversion Hk'; subst.
    exists mel0, har0, item, hLast.
    cbn [mergeable] in Hm. rewrite !andb_true_iff in Hm.
    destruct Hm as ((_ & Hnb) & Hst).
    assert (Hib : isBar item = false).
    { unfold isBar. apply negb_true_iff. exact Hnb. }
    pose proof (Forall2_length _ _ _ H0) as Hlen.
    rewrite Emel, Ehar.
    replace (length (mel0 ++ [item]) - 1)%nat with (length mel0 + 0)%nat
      by (rewrite length_app; cbn [length]; lia).
    assert (Elk : (har0 ++ [hLast]) !! (length mel0 + 0)%nat = Some hLast).
    { rewrite Hlen, lookup_app_r by lia.
      replace (length har0 + 0 - length har0)%nat with 0%nat by lia.
      reflexivity. }
    rewrite Elk, insert_app_r, Hlen, insert_app_r.
    cbn [insert list_insert default id from_option].
    repeat (split; [first [reflexivity|assumption
                          |destruct Hah as [Hb _]; congruence]|]).
    reflexivity.
  - left. split.
    + apply andb_false_iff in Em. exact Em.
    + rewrite !app_assoc. reflexivity.
Qed.

Lemma nextUnits_bound units :
  ((if (q <=? S units)%nat then 0%nat else S units) < Nat.max 1 q)%nat.
Proof. destruct (Nat.leb_spec q (S units)); lia. Qed.

Lemma confirm_inv midi s frames cp :
  liveInv q s -> lastMidi s = Some midi ->
  liveInv q (confirm q midi
               (mkSession (lastMidi s) frames (isContinuous s)
                          (gridUnitsFilled s) (melodyBuffer s)
                          (harmonyBuffer s) (liveMidi s) cp)).
Proof.
  intros (Hal & Hsf & Hgu & Hlm & Hco & Hlv & Hme & Hha) Hlast.
  set (s1 := mkSession _ _ _ _ _ _ _ _).
  pose proof (confirm_aligned q midi s1 Hal) as Hal'.
  unfold liveInv.
  destruct (confirm_cases midi s1 Hal)
    as [[_ E]|(mel0 & har0 & item & hLast & Em & Eh & Hc & Hib & Hhb & _ & E)];
    rewrite E in *; clear E; subst s1; cbn [lastMidi stableFrames isContinuous
      gridUnitsFilled melodyBuffer harmonyBuffer liveMidi currentPitch] in *;
    (split; [exact Hal'|]); (split; [lia|]);
    (split; [apply nextUnits_bound|]); (split; [exact Hlm|]).
  - split.
    { intros _. rewrite Hlast, last_snoc. split; [discriminate|reflexivity]. }
    split.
    { apply Forall_app. split; [exact Hlv|].
      apply Forall_cons. split; [apply (Hlm _ Hlast)|apply Forall_nil; trivial]. }
    rewrite length_app. cbn [length].
    replace (length (liveMidi s) + 1)%nat with (S (length (liveMidi s))) by lia.
    split; apply lineInv_push; try assumption;
      first [apply midiToAbc_head|apply parsedDuration_note].
  - split; [intros _; exact (Hco Hc)|]. split; [exact Hlv|].
    rewrite Em in Hme. rewrite Eh in Hha.
    split; apply lineInv_merge; assumption.
Qed.

Lemma updatePitch_inv s f :
  liveInv q s -> liveInv q (updatePitch freqToMidi baseClarity q s f).
Proof.
  intros Hinv.
  pose proof Hinv as (Hal & Hsf & Hgu & Hlm & Hco & Hlv & Hme & Hha).
  unfold updatePitch.
  destruct (isSilence baseClarity f).
  { unfold liveInv. cbn [lastMidi stableFrames isContinuous
      gridUnitsFilled melodyBuffer harmonyBuffer liveMidi currentPitch].
    split; [exact Hal|]. split; [lia|]. split; [exact Hgu|].
    split; [discriminate|]. split; [discriminate|].
    split; [exact Hlv|]. split; assumption. }
  set (midi := rangeLock (freqToMidi (pitch f))).
  destruct (cell_eqb (Some midi) (lastMidi s)) eqn:Ee.
  - apply cell_eqb_eq in Ee. symmetry in Ee.
    destruct (Nat.eqb_spec (S (stableFrames s)) 6) as [E6|N6].
    + apply confirm_inv; assumption.
    + unfold liveInv. cbn [lastMidi stableFrames isContinuous
        gridUnitsFilled melodyBuffer harmonyBuffer liveMidi currentPitch].
      split; [exact Hal|]. split; [lia|]. split; [exact Hgu|].
      split; [exact Hlm|]. split; [exact Hco|].
      split; [exact Hlv|]. split; assumption.
  - unfold liveInv. cbn [lastMidi stableFrames isContinuous
      gridUnitsFilled melodyBuffer harmonyBuffer liveMidi currentPitch].
    split; [exact Hal|]. split; [lia|]. split; [exact Hgu|].
    split.
    { intros m Hm. injection Hm as <-. apply rangeLock_range. }
    split; [discriminate|].
    split; [exact Hlv|]. split; assumption.
Qed.

Lemma foldFrames_inv (fs : list frame) : forall s,
  liveInv q s ->
  liveInv q (fold_left (updatePitch freqToMidi baseClarity q) fs s).
Proof.
  induction fs as [|f fs IH]; intros s H; [exact H|].
  cbn [fold_left]. apply IH, updatePitch_inv, H.
Qed.

Lemma lineInv_nil : lineInv q 0 0 [].
Proof.
  split; [apply Forall_nil; trivial|]. split.
  - intros i Hi. discriminate Hi.
  - split; [reflexivity|]. intros _. cbn. lia.
Qed.

Lemma runFrames_inv (fs : list frame) :
  liveInv q (runFrames freqToMidi baseClarity q fs).
Proof.
  apply foldFrames_inv.
  split; [apply Forall2_nil; trivial|]. split; [cbn; lia|].
  split; [cbn; lia|]. split; [discriminate|]. split; [discriminate|].
  split; [apply Forall_nil; trivial|]. split; apply lineInv_nil.
Qed.


Lemma updatePitch_same f sf c gu mel har lm cp :
  isSilence baseClarity f = false ->
  updatePitch freqToMidi baseClarity q
    (mkSession (Some (rangeLock (freqToMidi (pitch f)))) sf c gu mel har lm cp)
    f
  = if (S sf =? 6)%nat
    then confirm q (rangeLock (freqToMidi (pitch f)))
           (mkSession (Some (rangeLock (freqToMidi (pitch f)))) (S sf) c gu
                      mel har lm (Some (pitch f)))
    else mkSession (Some (rangeLock (freqToMidi (pitch f)))) (S sf) c gu
                   mel har lm (Some (pitch f)).
Proof.
  intros Hf. unfold updatePitch. rewrite Hf.
  cbn [lastMidi stableFrames isContinuous gridUnitsFilled melodyBuffer
       harmonyBuffer liveMidi currentPitch].
  rewrite cell_eqb_refl. reflexivity.
Qed.

Lemma six_frames f c gu mel har lm cp :
  isSilence baseClarity f = false ->
  fold_left (updatePitch freqToMidi baseClarity q) (repeat f 6)
    (mkSession (Some (rangeLock (freqToMidi (pitch f)))) 0 c gu mel har lm cp)
  = confirm q (rangeLock (freqToMidi (pitch f)))
      (mkSession (Some (rangeLock (freqToMidi (pitch f)))) 6 c gu mel har lm
                 (Some (pitch f))).
Proof.
  intros Hf. cbn [repeat fold_left].
  do 6 (rewrite (updatePitch_same f) by exact Hf; cbn [Nat.eqb]).
  reflexivity.
Qed.

Lemma first_frame f :
  isSilence baseClarity f = false ->
  updatePitch freqToMidi baseClarity q startSession f
  = mkSession (Some (rangeLock (freqToMidi (pitch f)))) 0 false 0 [] [] []
              (Some (pitch f)).
Proof. intros Hf. unfold updatePitch. rewrite Hf. reflexivity. Qed.

Lemma prefix_append a d : String.prefix a (String.append a d) = true.
Proof.
  induction a as [|c a IH]; cbn [String.append String.prefix].
  - destruct d; reflexivity.
  - destruct (ascii_dec c c) as [_|N]; [exact IH|congruence].
Qed.

Lemma prefix_refl a : String.prefix a a = true.
Proof.
  induction a as [|c a IH]; cbn [String.prefix]; [reflexivity|].
  destruct (ascii_dec c c) as [_|N]; [exact IH|congruence].
Qed.

Lemma heldToken_mergeable m k :
  mergeable (Some (heldToken (AudioUtils.midiToAbc m) k))
            (AudioUtils.midiToAbc m) = true.
Proof.
  assert (Hh : noteHead (heldToken (AudioUtils.midiToAbc m) k) = true).
  { unfold heldToken. destruct (k =? 1)%nat;
      [|apply noteHead_append]; apply midiToAbc_head. }
  cbn [mergeable]. pose proof (noteHead_not_bar _ Hh) as Hb.
  unfold isBar in Hb. rewrite Hb.
  destruct (noteHead_cases _ Hh) as (c & rest & E & _). rewrite E at 1.
  cbn [String.eqb negb andb]. unfold startsWith, heldToken.
  destruct (k =? 1)%nat; [apply prefix_refl|apply prefix_append].
Qed.

Lemma heldToken_duration m k :
  (1 <= k)%nat -> parsedDuration (heldToken (AudioUtils.midiToAbc m) k) = k.
Proof.
  intros Hk. unfold heldToken. destruct (Nat.eqb_spec k 1) as [->|Hne].
  - apply parsedDuration_note.
  - destruct k as [|k]; [lia|]. apply parsedDuration_counted.
Qed.

Lemma heldToken_next abc k :
  (1 <= k)%nat ->
  String.append abc (natToString (S k)) = heldToken abc (S k).
Proof.
  intros Hk. unfold heldToken.
  destruct (Nat.eqb_spec (S k) 1) as [E|_]; [lia|reflexivity].
Qed.

(** The session after the first frame of a steady pitch and [k] times six
    more frames of it, for [k] up to the length of a bar. *)
Lemma repeat_cons_first {A} (x : A) : repeat x (1 + 6 * 1) = x :: repeat x 6.
Proof. reflexivity. Qed.

Lemma fold_left_first {A B} (g : A -> B -> A) (x : B) (l : list B) (a : A) :
  fold_left g (x :: l) a = fold_left g l (g a x).
Proof. reflexivity. Qed.

Lemma heldToken_one abc : heldToken abc 1 = abc.
Proof. reflexivity. Qed.

Lemma nextBar_eq k : (1 <= k <= q)%nat -> (q <=? k)%nat = (k =? q)%nat.
Proof.
  intros Hk. destruct (Nat.leb_spec q k); destruct (Nat.eqb_spec k q);
    first [reflexivity|lia].
Qed.

(** The sixth stable frame of a pitch heard for the first time, on empty
    buffers. *)
Lemma confirm_first midi lm cp :
  confirm q midi (mkSession lm 6 false 0 [] [] [] cp)
  = mkSession lm 0 true (if (q <=? 1)%nat then 0%nat else 1%nat)
      (AudioUtils.midiToAbc midi
         :: (if (q <=? 1)%nat then ["|"%string] else []))
      (AudioUtils.midiToAbc (harmonyOf midi)
         :: (if (q <=? 1)%nat then ["|"%string] else []))
      [midi] cp.
Proof. reflexivity. Qed.

(** The sixth stable frame of a pitch that is being continued, the two
    lines holding one token each. *)
Lemma confirm_held midi lm gu item hItem lv cp :
  mergeable (Some item) (AudioUtils.midiToAbc midi) = true ->
  confirm q midi (mkSession lm 6 true gu [item] [hItem] lv cp)
  = mkSession lm 0 true (if (q <=? S gu)%nat then 0%nat else S gu)
      (String.append (AudioUtils.midiToAbc midi)
                     (natToString (S (parsedDuration item)))
         :: (if (q <=? S gu)%nat then ["|"%string] else []))
      (String.append (AudioUtils.midiToAbc (harmonyOf midi))
                     (natToString (S (parsedDuration hItem)))
         :: (if (q <=? S gu)%nat then ["|"%string] else []))
      lv cp.
Proof.
  intros Hm. unfold confirm.
  cbn [lastMidi stableFrames isContinuous gridUnitsFilled melodyBuffer
       harmonyBuffer liveMidi currentPitch last andb].
  rewrite Hm. reflexivity.
Qed.

Lemma repeat_seven {A} (x : A) k :
  repeat x (1 + 6 * S k) = repeat x (1 + 6 * k) ++ repeat x 6.
Proof.
  replace (1 + 6 * S k)%nat with ((1 + 6 * k) + 6)%nat by lia.
  apply repeat_app.
Qed.

(** The session after the first frame of a steady pitch and [k] times six
    more frames of it, for [k] up to the length of a bar. *)
Lemma held_frames f k :
  isSilence baseClarity f = false -> (1 <= k <= q)%nat ->
  runFrames freqToMidi baseClarity q (repeat f (1 + 6 * k))
  = mkSession (Some (rangeLock (freqToMidi (pitch f)))) 0 true
      (if (k =? q)%nat then 0%nat else k)
      (heldToken (AudioUtils.midiToAbc (rangeLock (freqToMidi (pitch f)))) k
         :: (if (k =? q)%nat then ["|"%string] else []))
      (heldToken
         (AudioUtils.midiToAbc (harmonyOf (rangeLock (freqToMidi (pitch f)))))
         k
         :: (if (k =? q)%nat then ["|"%string] else []))
      [rangeLock (freqToMidi (pitch f))] (Some (pitch f)).
Proof.
  intros Hf [Hk1 Hkq]. unfold runFrames.
  induction k as [|k IH]; [lia|].
  destruct (Nat.eq_dec k 0%nat) as [->|Hk0].
  - rewrite (repeat_cons_first f).
    rewrite fold_left_first, first_frame by exact Hf.
    rewrite six_frames by exact Hf.
    rewrite confirm_first, !heldToken_one.
    rewrite (nextBar_eq 1) by lia. reflexivity.
  - rewrite repeat_seven, fold_left_app, IH by lia.
    rewrite (proj2 (Nat.eqb_neq k q)) by lia.
    rewrite six_frames by exact Hf.
    rewrite confirm_held by apply heldToken_mergeable.
    rewrite (heldToken_duration (rangeLock (freqToMidi (pitch f))) k),
      (heldToken_duration (harmonyOf (rangeLock (freqToMidi (pitch f)))) k)
      by lia.
    rewrite (heldToken_next
               (AudioUtils.midiToAbc (rangeLock (freqToMidi (pitch f)))) k),
      (heldToken_next
         (AudioUtils.midiToAbc
            (harmonyOf (rangeLock (freqToMidi (pitch f))))) k) by lia.
    rewrite (nextBar_eq (S k)) by lia. reflexivity.
Qed.

Lemma confirm_after_bar midi lm gu t h lv cp :
  confirm q midi (mkSession lm 6 true gu [t; "|"%string] [h; "|"%string] lv cp)
  = mkSession lm 0 true (if (q <=? S gu)%nat then 0%nat else S gu)
      (t :: "|"%string :: AudioUtils.midiToAbc midi
         :: (if (q <=? S gu)%nat then ["|"%string] else []))
      (h :: "|"%string :: AudioUtils.midiToAbc (harmonyOf midi)
         :: (if (q <=? S gu)%nat then ["|"%string] else []))
      (lv ++ [midi]) cp.
Proof. reflexivity. Qed.

Lemma held_frames_after_bar f :
  isSilence baseClarity f = false -> (1 <= q)%nat ->
  runFrames freqToMidi baseClarity q (repeat f (1 + 6 * S q))
  = mkSession (Some (rangeLock (freqToMidi (pitch f)))) 0 true
      (if (q <=? 1)%nat then 0%nat else 1%nat)
      (heldToken (AudioUtils.midiToAbc (rangeLock (freqToMidi (pitch f)))) q
         :: "|"%string
         :: AudioUtils.midiToAbc (rangeLock (freqToMidi (pitch f)))
         :: (if (q <=? 1)%nat then ["|"%string] else []))
      (heldToken
         (AudioUtils.midiToAbc (harmonyOf (rangeLock (freqToMidi (pitch f)))))
         q
         :: "|"%string
         :: AudioUtils.midiToAbc (harmonyOf (rangeLock (freqToMidi (pitch f))))
         :: (if (q <=? 1)%nat then ["|"%string] else []))
      [rangeLock (freqToMidi (pitch f)); rangeLock (freqToMidi (pitch f))]
      (Some (pitch f)).
Proof.
  intros Hf Hq.
  pose proof (held_frames f q Hf ltac:(lia)) as H.
  unfold runFrames in *.
  rewrite repeat_seven, fold_left_app, H, Nat.eqb_refl.
  rewrite six_frames by exact Hf.
  rewrite confirm_after_bar. reflexivity.
Qed.

(** Fewer than seven frames write nothing. *)
Lemma debounce_frames (fs : list frame) : forall s n,
  melodyBuffer s = [] -> harmonyBuffer s = [] -> liveMidi s = [] ->
  (stableFrames s < Nat.max 1 n)%nat -> (n = 0%nat -> lastMidi s = None) ->
  (n + length fs <= 6)%nat ->
  melodyBuffer (fold_left (updatePitch freqToMidi baseClarity q) fs s) = []
  /\ harmonyBuffer (fold_left (updatePitch freqToMidi baseClarity q) fs s) = []
  /\ liveMidi (fold_left (updatePitch freqToMidi baseClarity q) fs s) = [].
Proof.
  induction fs as [|f fs IH]; intros s n Hm Hh Hl Hsf Hn Hlen.
  { repeat split; assumption. }
  cbn [fold_left]. cbn [length] in Hlen.
  apply (IH _ (S n)); try lia; unfold updatePitch;
    destruct (isSilence baseClarity f); try assumption; try (cbn; lia);
    try discriminate;
    destruct (cell_eqb _ (lastMidi s)) eqn:Ee; try assumption;
    try (cbn; lia); try discriminate;
    (assert (Hn0 : n <> 0%nat)
       by (intros E0; rewrite (Hn E0) in Ee; discriminate Ee));
    (destruct (Nat.eqb_spec (S (stableFrames s)) 6) as [E6|_]; [lia|]);
    first [assumption|cbn; lia|discriminate].
Qed.

End LiveInvariant.

Lemma mergeable_append m d :
  Realtime.mergeable (Some (String.append (AudioUtils.midiToAbc m) d))
                     (AudioUtils.midiToAbc m) = true.
Proof.
  pose proof (noteHead_append (AudioUtils.midiToAbc m) d (midiToAbc_head m))
    as Hh.
  cbn [Realtime.mergeable]. pose proof (noteHead_not_bar _ Hh) as Hb.
  unfold isBar in Hb. rewrite Hb.
  destruct (noteHead_cases _ Hh) as (c & rest & E & _). rewrite E at 1.
  cbn [String.eqb negb andb]. unfold startsWith. apply prefix_append.
Qed.

(** X12. The duration the live loop reads back from a token it wrote is
    the duration it wrote: a note name alone counts 1, a note name followed
    by the decimal of [n + 1] counts [n + 1]; and such a token starts with
    the name it was built from, so that it is merged again, while a bar
    marker and an empty buffer are never merged into. *)
Theorem live_duration_round_trip (m : Z) (n : nat) :
  parsedDuration (AudioUtils.midiToAbc m) = 1%nat
  /\ parsedDuration
       (String.append (AudioUtils.midiToAbc m) (natToString (S n))) = S n
  /\ Realtime.mergeable
       (Some (String.append (AudioUtils.midiToAbc m) (natToString (S n))))
       (AudioUtils.midiToAbc m) = true
  /\ Realtime.mergeable (Some (AudioUtils.midiToAbc m))
                        (AudioUtils.midiToAbc m) = true
  /\ Realtime.mergeable (Some "|"%string) (AudioUtils.midiToAbc m) = false
  /\ Realtime.mergeable None (AudioUtils.midiToAbc m) = false.
Proof.
  split; [apply parsedDuration_note|].
  split; [apply parsedDuration_counted|].
  split; [apply mergeable_append|].
  split; [apply (heldToken_mergeable m 1)|].
  split; reflexivity.
Qed.

(** X13. After any sequence of frames from the start of a recording: the
    stable-frame counter is at most 5 and the grid-unit counter is below
    qValue (it is 0 when qValue is 0); the last pitch and every recorded
    pitch lie in [48,84]; and while the continuity flag is set the last
    pitch is the pitch recorded last. *)
Theorem live_counters_stay_bounded freqToMidi baseClarity q
    (fs : list Realtime.frame) :
  let s := Realtime.runFrames freqToMidi baseClarity q fs in
  (Realtime.stableFrames s <= 5)%nat
  /\ (Realtime.gridUnitsFilled s < Nat.max 1 q)%nat
  /\ (forall m, Realtime.lastMidi s = Some m -> 48 <= m <= 84)
  /\ Forall (fun m => 48 <= m <= 84) (Realtime.liveMidi s)
  /\ (Realtime.isContinuous s = true ->
      Realtime.lastMidi s <> None
      /\ last (Realtime.liveMidi s) = Realtime.lastMidi s).
Proof.
  cbv zeta.
  destruct (runFrames_inv freqToMidi baseClarity q fs)
    as (_ & H1 & H2 & H3 & H4 & H5 & _).
  repeat (split; [assumption|]). assumption.
Qed.

Lemma noteOrBar_plain t :
  noteOrBar t -> isRest t = false /\ t <> EmptyString.
Proof.
  intros [->|Ht]; [split; [reflexivity|discriminate]|].
  split; [apply noteHead_not_rest; exact Ht|].
  intros ->. discriminate Ht.
Qed.

(** X14. After any sequence of frames from the start of a recording, each
    of the two live buffers holds only bar markers and tokens that start
    with a note name (no rest, no empty token); every bar marker directly
    follows a note token, so no buffer starts with a bar marker or holds
    two in a row; and each buffer holds one note token per recorded
    pitch. *)
Theorem live_lines_hold_notes_and_bars freqToMidi baseClarity q
    (fs : list Realtime.frame) :
  let s := Realtime.runFrames freqToMidi baseClarity q fs in
  let plain t := noteOrBar t /\ isRest t = false /\ t <> EmptyString in
  (Forall plain (Realtime.melodyBuffer s)
   /\ barsFollowNotes (Realtime.melodyBuffer s)
   /\ noteCount (Realtime.melodyBuffer s) = length (Realtime.liveMidi s))
  /\ (Forall plain (Realtime.harmonyBuffer s)
      /\ barsFollowNotes (Realtime.harmonyBuffer s)
      /\ noteCount (Realtime.harmonyBuffer s) = length (Realtime.liveMidi s)).
Proof.
  cbv zeta.
  destruct (runFrames_inv freqToMidi baseClarity q fs)
    as (_ & _ & _ & _ & _ & _ & Hm & Hh).
  assert (H : forall l u n, lineInv q u n l ->
            Forall (fun t => noteOrBar t /\ isRest t = false
                             /\ t <> EmptyString) l
            /\ barsFollowNotes l /\ noteCount l = n).
  { intros l u n (Hf & Hb & Hn & _). split; [|split; assumption].
    eapply Forall_impl; [exact Hf|].
    intros t Ht. split; [exact Ht|apply noteOrBar_plain; exact Ht]. }
  split; eapply H; eassumption.
Qed.

(** X15. With a positive qValue, after any sequence of frames from the
    start of a recording the durations of the note tokens of a buffer, as
    the loop reads them back, add up to qValue times the number of bar
    markers plus the grid-unit counter, which is below qValue: every bar
    marker closes exactly qValue confirmed units. *)
Theorem live_bar_closes_every_q_units freqToMidi baseClarity q
    (fs : list Realtime.frame) (Hq : (1 <= q)%nat) :
  let s := Realtime.runFrames freqToMidi baseClarity q fs in
  (Realtime.gridUnitsFilled s < q)%nat
  /\ totalDuration (Realtime.melodyBuffer s)
     = (q * barCount (Realtime.melodyBuffer s)
        + Realtime.gridUnitsFilled s)%nat
  /\ totalDuration (Realtime.harmonyBuffer s)
     = (q * barCount (Realtime.harmonyBuffer s)
        + Realtime.gridUnitsFilled s)%nat.
Proof.
  cbv zeta.
  destruct (runFrames_inv freqToMidi baseClarity q fs)
    as (_ & _ & Hu & _ & _ & _ & (_ & _ & _ & Hm) & (_ & _ & _ & Hh)).
  split; [lia|]. split; [exact (Hm Hq)|exact (Hh Hq)].
Qed.

Lemma live_bar_closes_every_q_units_witness :
  let s := Realtime.runFrames freqToMidiSample (31 # 40) 2
             (repeat (Realtime.mkFrame (440 # 1) (9 # 10)) 19) in
  (1 <= 2)%nat
  /\ Realtime.melodyBuffer s = ["A2"; "|"; "A"]%string
  /\ totalDuration (Realtime.melodyBuffer s)
     = (2 * barCount (Realtime.melodyBuffer s)
        + Realtime.gridUnitsFilled s)%nat.
Proof.
  cbv zeta. split; [lia|]. split; [vm_compute; reflexivity|].
  apply (live_bar_closes_every_q_units freqToMidiSample (31 # 40) 2
           (repeat (Realtime.mkFrame (440 # 1) (9 # 10)) 19)).
  lia.
Defined.

(** X16. The first six frames of a recording write nothing, whatever they
    are: a token needs one frame that sets the pitch and six that repeat
    it. *)
Theorem live_debounce freqToMidi baseClarity q (fs : list Realtime.frame)
    (Hfs : (length fs <= 6)%nat) :
  let s := Realtime.runFrames freqToMidi baseClarity q fs in
  Realtime.melodyBuffer s = [] /\ Realtime.harmonyBuffer s = []
  /\ Realtime.liveMidi s = [].
Proof.
  cbv zeta. unfold Realtime.runFrames.
  apply (debounce_frames freqToMidi baseClarity q fs Realtime.startSession
           0%nat); try reflexivity.
  - cbn. lia.
  - lia.
Qed.

Lemma live_debounce_witness :
  (length (repeat (Realtime.mkFrame (440 # 1) (9 # 10)) 6) <= 6)%nat
  /\ Realtime.melodyBuffer
       (Realtime.runFrames freqToMidiSample (31 # 40) 8
          (repeat (Realtime.mkFrame (440 # 1) (9 # 10)) 6)) = [].
Proof.
  split; [cbn; lia|].
  apply (live_debounce freqToMidiSample (31 # 40) 8
           (repeat (Realtime.mkFrame (440 # 1) (9 # 10)) 6)).
  cbn. lia.
Defined.

(** X17. A steady pitch: after the frame that sets it and [k] times six
    frames that repeat it, for [k] up to qValue, each buffer holds one
    token, the note name alone for [k = 1] and the name followed by the
    decimal of [k] after that, which reads back as [k]; the pitch is
    recorded once; and the bar marker follows when [k] reaches qValue. *)
Theorem held_note_grows freqToMidi baseClarity q (f : Realtime.frame)
    (k : nat) (Hf : Realtime.isSilence baseClarity f = false)
    (Hk : (1 <= k <= q)%nat) :
  let midi := rangeLock (freqToMidi (Realtime.pitch f)) in
  let s := Realtime.runFrames freqToMidi baseClarity q
             (repeat f (1 + 6 * k)) in
  let bar := if (k =? q)%nat then ["|"%string] else [] in
  Realtime.melodyBuffer s = heldToken (AudioUtils.midiToAbc midi) k :: bar
  /\ Realtime.harmonyBuffer s
     = heldToken (AudioUtils.midiToAbc (harmonyOf midi)) k :: bar
  /\ Realtime.liveMidi s = [midi]
  /\ Realtime.gridUnitsFilled s = (if (k =? q)%nat then 0%nat else k)
  /\ parsedDuration (heldToken (AudioUtils.midiToAbc midi) k) = k.
Proof.
  cbv zeta. rewrite (held_frames freqToMidi baseClarity q f k Hf Hk).
  cbn [Realtime.melodyBuffer Realtime.harmonyBuffer Realtime.liveMidi
       Realtime.gridUnitsFilled].
  repeat (split; [reflexivity|]).
  apply heldToken_duration. lia.
Qed.

Lemma held_note_grows_witness :
  (Realtime.isSilence (31 # 40) (Realtime.mkFrame (440 # 1) (31 # 40)) = false
   /\ (1 <= 3 <= 8)%nat)
  /\ Realtime.melodyBuffer
       (Realtime.runFrames freqToMidiSample (31 # 40) 8
          (repeat (Realtime.mkFrame (440 # 1) (31 # 40)) (1 + 6 * 3)))
     = [heldToken (AudioUtils.midiToAbc (rangeLock (freqToMidiSample (440 # 1))))
                  3].
Proof.
  split; [split; [reflexivity|lia]|].
  apply (held_note_grows freqToMidiSample (31 # 40) 8
           (Realtime.mkFrame (440 # 1) (31 # 40)) 3 eq_refl).
  lia.
Defined.

(** X18. A held note is not merged across a bar marker: six more frames of
    the steady pitch after the bar has been closed push a new token of the
    pitch and record the pitch a second time. *)
Theorem held_note_restarts_after_bar freqToMidi baseClarity q
    (f : Realtime.frame) (Hf : Realtime.isSilence baseClarity f = false)
    (Hq : (1 <= q)%nat) :
  let midi := rangeLock (freqToMidi (Realtime.pitch f)) in
  let s := Realtime.runFrames freqToMidi baseClarity q
             (repeat f (1 + 6 * S q)) in
  let bar := if (q <=? 1)%nat then ["|"%string] else [] in
  Realtime.melodyBuffer s
  = heldToken (AudioUtils.midiToAbc midi) q :: "|"%string
      :: AudioUtils.midiToAbc midi :: bar
  /\ Realtime.harmonyBuffer s
     = heldToken (AudioUtils.midiToAbc (harmonyOf midi)) q :: "|"%string
         :: AudioUtils.midiToAbc (harmonyOf midi) :: bar
  /\ Realtime.liveMidi s = [midi; midi].
Proof.
  cbv zeta. rewrite (held_frames_after_bar freqToMidi baseClarity q f Hf Hq).
  repeat split; reflexivity.
Qed.

Lemma held_note_restarts_after_bar_witness :
  (Realtime.isSilence (31 # 40) (Realtime.mkFrame (440 # 1) (31 # 40)) = false
   /\ (1 <= 2)%nat)
  /\ Realtime.liveMidi
       (Realtime.runFrames freqToMidiSample (31 # 40) 2
          (repeat (Realtime.mkFrame (440 # 1) (31 # 40)) (1 + 6 * 3)))
     = [rangeLock (freqToMidiSample (440 # 1));
        rangeLock (freqToMidiSample (440 # 1))].
Proof.
  split; [split; [reflexivity|lia]|].
  apply (held_note_restarts_after_bar freqToMidiSample (31 # 40) 2
           (Realtime.mkFrame (440 # 1) (31 # 40)) eq_refl).
  lia.
Defined.

(** ** Chord names *)

Section ChordProofs.
Import Chords.

Lemma includes_cons x l c :
  AudioUtils.includes (x :: l) c = (c =? x) || AudioUtils.includes l c.
Proof. reflexivity. Qed.

Lemma includes_setFrom l : forall seen c,
  AudioUtils.includes (setFrom seen l) c
  = AudioUtils.includes l c && negb (AudioUtils.includes seen c).
Proof.
  induction l as [|x l IH]; intros seen c; [reflexivity|].
  cbn [setFrom]. destruct (AudioUtils.includes seen x) eqn:Ex.
  - rewrite IH, includes_cons.
    destruct (Z.eqb_spec c x) as [->|_]; [|reflexivity].
    rewrite Ex. cbn. rewrite andb_false_r. reflexivity.
  - rewrite !includes_cons, IH, includes_cons.
    destruct (Z.eqb_spec c x) as [->|_].
    + rewrite Ex. reflexivity.
    + reflexivity.
Qed.

Lemma includes_insertAsc x l c :
  AudioUtils.includes (insertAsc x l) c = (c =? x) || AudioUtils.includes l c.
Proof.
  induction l as [|y l IH]; [reflexivity|].
  cbn [insertAsc]. destruct (x <=? y); [reflexivity|].
  rewrite !includes_cons, IH.
  destruct (c =? y), (c =? x); reflexivity.
Qed.

Lemma includes_sortAsc l c :
  AudioUtils.includes (sortAsc l) c = AudioUtils.includes l c.
Proof.
  induction l as [|x l IH]; [reflexivity|].
  cbn [sortAsc fold_right]. fold (sortAsc l).
  rewrite includes_insertAsc, IH. reflexivity.
Qed.

Lemma includes_uniqueNotes notes c :
  AudioUtils.includes (uniqueNotes notes) c
  = existsb (fun m => Z.rem m 12 =? c) notes.
Proof.
  unfold uniqueNotes. rewrite includes_sortAsc, includes_setFrom.
  cbn. rewrite andb_true_r. unfold AudioUtils.includes.
  induction notes as [|m notes IH]; [reflexivity|].
  cbn [map existsb]. rewrite IH, (Z.eqb_sym c). reflexivity.
Qed.

Lemma length_insertAsc x l : length (insertAsc x l) = S (length l).
Proof.
  induction l as [|y l IH]; [reflexivity|].
  cbn [insertAsc]. destruct (x <=? y); cbn [length]; [reflexivity|].
  rewrite IH. reflexivity.
Qed.

Lemma length_sortAsc l : length (sortAsc l) = length l.
Proof.
  induction l as [|x l IH]; [reflexivity|].
  cbn [sortAsc fold_right]. fold (sortAsc l).
  rewrite length_insertAsc, IH. reflexivity.
Qed.

Lemma setFrom_nil l : forall seen,
  setFrom seen l = [] <-> forall y, In y l -> AudioUtils.includes seen y = true.
Proof.
  induction l as [|x l IH]; intros seen.
  - split; [intros _ y []|reflexivity].
  - cbn [setFrom]. destruct (AudioUtils.includes seen x) eqn:Ex.
    + rewrite IH. split.
      * intros H y [<-|Hy]; [exact Ex|apply H; exact Hy].
      * intros H y Hy. apply H. right. exact Hy.
    + split; [discriminate|]. intros H.
      rewrite (H x (or_introl eq_refl)) in Ex. discriminate.
Qed.

(** Fewer than two distinct classes: all notes share one class. *)
Lemma uniqueNotes_short notes :
  (length (uniqueNotes notes) <? 2)%nat = true
  <-> forall a b, In a notes -> In b notes -> Z.rem a 12 = Z.rem b 12.
Proof.
  unfold uniqueNotes. rewrite length_sortAsc, Nat.ltb_lt.
  destruct notes as [|x notes]; cbn [map setFrom AudioUtils.includes existsb].
  - split; [intros _ a b []|cbn; lia].
  - cbn [length]. split.
    + intros H.
      assert (E : setFrom [Z.rem x 12] (map (fun m => Z.rem m 12) notes) = [])
        by (destruct (setFrom _ _); [reflexivity|cbn in H; lia]).
      rewrite setFrom_nil in E.
      assert (Hx : forall a, In a (x :: notes) -> Z.rem a 12 = Z.rem x 12).
      { intros a [<-|Ha]; [reflexivity|].
        specialize (E (Z.rem a 12) (in_map _ _ _ Ha)).
        unfold AudioUtils.includes in E. cbn in E.
        rewrite orb_false_r in E. apply Z.eqb_eq in E. exact E. }
      intros a b Ha Hb. rewrite (Hx a Ha), (Hx b Hb). reflexivity.
    + intros H.
      assert (E : setFrom [Z.rem x 12] (map (fun m => Z.rem m 12) notes) = []).
      { apply setFrom_nil. intros y Hy. apply in_map_iff in Hy.
        destruct Hy as (a & <- & Ha).
        unfold AudioUtils.includes. cbn. rewrite orb_false_r.
        apply Z.eqb_eq. apply H; [right; exact Ha|left; reflexivity]. }
      rewrite E. cbn. lia.
Qed.

Lemma forallb_insertAsc (f : Z -> bool) x l :
  forallb f (insertAsc x l) = f x && forallb f l.
Proof.
  induction l as [|y l IH]; [reflexivity|].
  cbn [insertAsc]. destruct (x <=? y); [reflexivity|].
  cbn [forallb]. rewrite IH. destruct (f x), (f y); reflexivity.
Qed.

Lemma forallb_sortAsc (f : Z -> bool) l :
  forallb f (sortAsc l) = forallb f l.
Proof.
  induction l as [|x l IH]; [reflexivity|].
  cbn [sortAsc fold_right]. fold (sortAsc l).
  rewrite forallb_insertAsc, IH. reflexivity.
Qed.

Lemma matches_triad notes (root : nat) third :
  (root < 12)%nat -> 0 <= third ->
  matches (uniqueNotes notes) (triad (Z.of_nat root) third)
  = hasTriad notes root third.
Proof.
  intros Hr Ht. unfold matches, triad, hasTriad.
  rewrite forallb_sortAsc. cbn [forallb].
  rewrite !includes_uniqueNotes.
  rewrite !Z.rem_mod_nonneg by lia.
  rewrite (Z.mod_small (Z.of_nat root) 12) by lia. reflexivity.
Qed.

Lemma chordLoop_first notes n : forall a,
  (a + n <= 12)%nat ->
  ((forall r, (a <= r < a + n)%nat ->
      hasTriad notes r 4 = false /\ hasTriad notes r 3 = false)
   /\ chordLoop (uniqueNotes notes) (seq a n) = "Complex"%string)
  \/ exists r, (a <= r < a + n)%nat
       /\ (forall r', (a <= r' < r)%nat ->
             hasTriad notes r' 4 = false /\ hasTriad notes r' 3 = false)
       /\ ((hasTriad notes r 4 = true
            /\ chordLoop (uniqueNotes notes) (seq a n)
               = String.append (nth r noteNames "undefined"%string) " Maj")
           \/ (hasTriad notes r 4 = false /\ hasTriad notes r 3 = true
               /\ chordLoop (uniqueNotes notes) (seq a n)
                  = String.append (nth r noteNames "undefined"%string)
                                  " min")).
Proof.
  induction n as [|n IH]; intros a Ha.
  - left. split; [intros r Hr; lia|reflexivity].
  - cbn [seq chordLoop].
    rewrite !matches_triad by lia.
    destruct (hasTriad notes a 4) eqn:E4.
    + right. exists a. split; [lia|]. split; [intros r' Hr'; lia|].
      left. split; [exact E4|reflexivity].
    + destruct (hasTriad notes a 3) eqn:E3.
      * right. exists a. split; [lia|]. split; [intros r' Hr'; lia|].
        right. split; [exact E4|]. split; [exact E3|reflexivity].
      * destruct (IH (S a) ltac:(lia)) as [[Hnone E]|(r & Hr & Hb & Hres)].
        -- left. split; [|exact E].
           intros r Hr. destruct (Nat.eq_dec r a) as [->|Hne];
             [split; assumption|apply Hnone; lia].
        -- right. exists r. split; [lia|]. split; [|exact Hres].
           intros r' Hr'. destruct (Nat.eq_dec r' a) as [->|Hne];
             [split; assumption|apply Hb; lia].
Qed.

End ChordProofs.

(** X19. [detectChord] answers [---] exactly when the notes have fewer
    than two distinct pitch classes.  Otherwise it names the first root,
    from C upward, whose major or minor triad lies within the pitch
    classes of the notes, the major triad being tried before the minor one
    on each root, and answers [Complex] when no root has one.  The set and
    the sorting of the code do not matter: only which classes occur. *)
Theorem detect_chord_first_triad (notes : list Z) :
  ((forall a b, In a notes -> In b notes -> Z.rem a 12 = Z.rem b 12) ->
   Chords.detectChord notes = "---"%string)
  /\ (~ (forall a b, In a notes -> In b notes -> Z.rem a 12 = Z.rem b 12) ->
      (noTriadBelow notes 12
       /\ Chords.detectChord notes = "Complex"%string)
      \/ exists r, (r < 12)%nat /\ noTriadBelow notes r
           /\ ((hasTriad notes r 4 = true
                /\ Chords.detectChord notes
                   = String.append (nth r Chords.noteNames "undefined"%string)
                                   " Maj")
               \/ (hasTriad notes r 4 = false /\ hasTriad notes r 3 = true
                   /\ Chords.detectChord notes
                      = String.append
                          (nth r Chords.noteNames "undefined"%string)
                          " min"))).
Proof.
  split.
  - intros H. unfold Chords.detectChord.
    destruct (length notes =? 0)%nat; [reflexivity|].
    rewrite (proj2 (uniqueNotes_short notes) H). reflexivity.
  - intros H. unfold Chords.detectChord.
    destruct (Nat.eqb_spec (length notes) 0) as [E|_].
    { exfalso. apply H. destruct notes; [intros a b []|discriminate E]. }
    destruct (length (Chords.uniqueNotes notes) <? 2)%nat eqn:El.
    { exfalso. apply H. apply uniqueNotes_short. exact El. }
    destruct (chordLoop_first notes 12 0 ltac:(lia))
      as [[Hnone E]|(r & Hr & Hb & Hres)].
    + left. split; [|exact E]. intros r' Hr'. apply Hnone. lia.
    + right. exists r. split; [lia|]. split; [|exact Hres].
      intros r' Hr'. apply Hb. lia.
Qed.

Lemma detect_chord_first_triad_witness :
  Chords.detectChord [60; 72; 48] = "---"%string
  /\ (exists r, (r < 12)%nat /\ noTriadBelow [57; 60; 64; 67] r
        /\ Chords.detectChord [57; 60; 64; 67]
           = String.append (nth r Chords.noteNames "undefined"%string) " Maj").
Proof.
  destruct (detect_chord_first_triad [60; 72; 48]) as [H1 _].
  destruct (detect_chord_first_triad [57; 60; 64; 67]) as [_ H2].
  split.
  - apply H1. intros a b Ha Hb. cbn [In] in Ha, Hb.
    repeat (destruct Ha as [<-|Ha]); try contradiction;
      repeat (destruct Hb as [<-|Hb]); try contradiction; reflexivity.
  - destruct H2 as [[_ E]|(r & Hr & Hb & [[_ E]|(E4 & _ & E)])].
    + intros H. specialize (H 57 60 ltac:(cbn; auto) ltac:(cbn; auto)).
      discriminate H.
    + vm_compute in E. discriminate E.
    + exists r. split; [exact Hr|]. split; [exact Hb|exact E].
    + exfalso. vm_compute in E.
      do 12 (destruct r as [|r]; [vm_compute in E4; discriminate|]). lia.
Defined.

(** ** The MIDI export *)

Section ExportProofs.
Import MidiExport.

Lemma list_ascii_append a d :
  list_ascii_of_string (String.append a d)
  = list_ascii_of_string a ++ list_ascii_of_string d.
Proof. induction a as [|c a IH]; [reflexivity|]. cbn. rewrite IH. reflexivity. Qed.

Lemma string_append_assoc a b c :
  String.append (String.append a b) c = String.append a (String.append b c).
Proof. induction a as [|x a IH]; [reflexivity|]. cbn. rewrite IH. reflexivity. Qed.

Lemma countChar_append c a d :
  countChar c (String.append a d) = (countChar c a + countChar c d)%nat.
Proof.
  unfold countChar. rewrite list_ascii_append, List.filter_app, length_app.
  reflexivity.
Qed.

Lemma stripMarks_plain d :
  forallb noMark (list_ascii_of_string d) = true -> stripMarks d = d.
Proof.
  induction d as [|c d IH]; [reflexivity|].
  cbn [list_ascii_of_string forallb stripMarks]. intros H.
  apply andb_true_iff in H as [Hc Hd]. rewrite (IH Hd).
  unfold noMark in Hc. apply negb_true_iff in Hc.
  apply orb_false_iff in Hc as [Hc _]. rewrite Hc. reflexivity.
Qed.

Lemma sharpenFirst_plain d :
  forallb noMark (list_ascii_of_string d) = true -> sharpenFirst d = d.
Proof.
  induction d as [|c d IH]; [reflexivity|].
  cbn [list_ascii_of_string forallb sharpenFirst]. intros H.
  apply andb_true_iff in H as [Hc Hd]. rewrite (IH Hd).
  unfold noMark in Hc. apply negb_true_iff in Hc.
  apply orb_false_iff in Hc as [_ Hc]. rewrite Hc. reflexivity.
Qed.

Lemma countChar_plain c d :
  noMark c = false ->
  forallb noMark (list_ascii_of_string d) = true -> countChar c d = 0%nat.
Proof.
  intros Hc. unfold countChar.
  induction d as [|x d IH]; [reflexivity|].
  cbn [list_ascii_of_string forallb List.filter]. intros H.
  apply andb_true_iff in H as [Hx Hd].
  destruct (Ascii.eqb_spec c x) as [->|_]; [congruence|]. apply IH, Hd.
Qed.

Lemma stripMarks_append a d :
  forallb noMark (list_ascii_of_string d) = true ->
  stripMarks (String.append a d) = String.append (stripMarks a) d.
Proof.
  intros Hd. induction a as [|c a IH]; [apply stripMarks_plain, Hd|].
  cbn [String.append stripMarks]. rewrite IH.
  destruct (Ascii.eqb c "'" || Ascii.eqb c ","); reflexivity.
Qed.

Lemma sharpenFirst_append a d :
  forallb noMark (list_ascii_of_string d) = true ->
  sharpenFirst (String.append a d) = String.append (sharpenFirst a) d.
Proof.
  intros Hd. induction a as [|c a IH]; [apply sharpenFirst_plain, Hd|].
  cbn [String.append sharpenFirst]. rewrite IH.
  destruct (Ascii.eqb c "^"); reflexivity.
Qed.

Lemma digit_noMark c : isDigit c = true -> noMark c = true.
Proof.
  destruct c as [[] [] [] [] [] [] [] []]; vm_compute; congruence.
Qed.

Lemma digits_noMark l :
  forallb isDigit l = true -> forallb noMark l = true.
Proof.
  induction l as [|c l IH]; [reflexivity|]. cbn [forallb]. intros H.
  apply andb_true_iff in H as [Hc Hl].
  rewrite (digit_noMark c Hc), (IH Hl). reflexivity.
Qed.

Lemma natToString_noMark n :
  forallb noMark (list_ascii_of_string (natToString n)) = true.
Proof. apply digits_noMark, natToString_digits. Qed.

Lemma getDurStr_noMark q n :
  forallb noMark (list_ascii_of_string (Quantizer.getDurStr q n)) = true.
Proof.
  unfold Quantizer.getDurStr.
  repeat match goal with
         | |- context [if ?b then _ else _] => destruct b
         end;
    try reflexivity; try apply natToString_noMark.
  rewrite list_ascii_append, forallb_app, natToString_noMark. reflexivity.
Qed.

Lemma exportTable : forallb exportTableOk (seq 0 128) = true.
Proof. vm_compute. reflexivity. Qed.

Lemma exportTable_at m :
  let safe := Z.max 0 (Z.min 127 m) in
  sharpenFirst (stripMarks (AudioUtils.midiToAbc m)) = exportName safe
  /\ abcOctave (AudioUtils.midiToAbc m) = exportOctave safe.
Proof.
  cbv zeta. rewrite midiToAbc_clamp.
  set (k := Z.max 0 (Z.min 127 m)).
  assert (Hk : 0 <= k <= 127) by (unfold k; lia).
  pose proof exportTable as T. rewrite forallb_forall in T.
  specialize (T (Z.to_nat k) ltac:(apply in_seq; lia)).
  unfold exportTableOk in T. rewrite Z2Nat.id in T by lia.
  apply andb_true_iff in T as [T1 T2].
  apply String.eqb_eq in T1. apply Z.eqb_eq in T2. split; assumption.
Qed.

Lemma exportNotes_app l l' :
  exportNotes (l ++ l') = exportNotes l ++ exportNotes l'.
Proof. unfold exportNotes. rewrite List.filter_app, map_app. reflexivity. Qed.

End ExportProofs.

(** X20. What [generateMidiData] makes of the tokens of the encoder.  Bar
    markers are dropped.  For the token of a pitch with its duration
    string, the pitch name handed to the MIDI writer is the note name with
    the sharp sign in front of the letter, in lower case from pitch 72 on,
    followed by the duration string of the token and then the octave
    number: the duration text stays inside the name.  The octave number
    is [floor(pitch / 12) - 1] below pitch 72 and one less than that from
    pitch 72 on, where the notation switches to lower case without a
    mark. *)
Theorem export_of_encoded_token (q n : nat) (m : Z) (l l' : list string) :
  let safe := Z.max 0 (Z.min 127 m) in
  MidiExport.exportNotes (l ++ "|"%string :: l')
  = MidiExport.exportNotes l ++ MidiExport.exportNotes l'
  /\ MidiExport.exportNotes [melToken q (Some m, n)]
     = [String.append (exportName safe)
          (String.append (Quantizer.getDurStr q n)
                         (MidiExport.intToString (exportOctave safe)))]
  /\ MidiExport.exportNotes [melToken q (None, n)]
     = [String.append "z"
          (String.append (Quantizer.getDurStr q n) "4")].
Proof.
  cbv zeta.
  pose proof (getDurStr_noMark q n) as Hd.
  split.
  { rewrite exportNotes_app. reflexivity. }
  unfold melToken. cbn [fst snd]. unfold MidiExport.exportNotes.
  split.
  - destruct (exportTable_at m) as [E1 E2].
    assert (Hb : String.eqb
                   (String.append (AudioUtils.midiToAbc m)
                                  (Quantizer.getDurStr q n)) "|" = false).
    { apply (noteHead_not_bar _
               (noteHead_append _ _ (midiToAbc_head m))). }
    cbn [List.filter map]. rewrite Hb. cbn [negb map].
    rewrite stripMarks_append, sharpenFirst_append by exact Hd.
    unfold MidiExport.abcOctave.
    rewrite !countChar_append.
    rewrite !(countChar_plain _ (Quantizer.getDurStr q n)) by
      (first [reflexivity|exact Hd]).
    rewrite !Nat.add_0_r.
    fold (MidiExport.abcOctave (AudioUtils.midiToAbc m)).
    rewrite E1, E2.
    rewrite string_append_assoc. reflexivity.
  - assert (Hb : String.eqb
                   (String.append "z" (Quantizer.getDurStr q n)) "|" = false)
      by reflexivity.
    cbn [List.filter map]. rewrite Hb. cbn [negb map].
    rewrite stripMarks_append, sharpenFirst_append by exact Hd.
    unfold MidiExport.abcOctave.
    rewrite !countChar_append.
    rewrite !(countChar_plain _ (Quantizer.getDurStr q n)) by
      (first [reflexivity|exact Hd]).
    rewrite string_append_assoc. reflexivity.
Qed.
